(** * scrabble_jp: the game session engine, embedded and verified

    A shallow embedding of the server side of the Japanese Scrabble
    repository: the tile table ([tiles.ts]), the bonus layout
    ([board.ts]), the tile bag ([TileBag.ts]), the placement validator
    ([BoardValidator.ts]), the game session ([Game.ts]) and the room
    with its reconnection timers ([Room.ts]).

    JavaScript numbers that the code uses as integers are [Z] (or [nat]
    for lengths and array indices), arrays are lists indexed with
    stdpp's lookup, [Map] is [gmap], [Set] is [gset].  Methods that
    mutate [this] and may throw are functions from a state to an
    outcome and the state reached when the method returned or threw:
    an exception does not undo assignments that were made before it. *)

From stdpp Require Import gmap strings list fin_maps.

Open Scope string_scope.
Open Scope list_scope.
Open Scope Z_scope.

(** ** shared/src/protocol.ts *)

Record Tile := mkTile {
  t_id : Z;
  t_char : string;                  (* '' for a blank *)
  t_points : Z;
  t_isBlank : bool;
  t_assignedChar : option string    (* [None] is [undefined] *)
}.

Inductive BonusType := NONE | DL | TL | DW | TW | START.

Record TilePlacement := mkPlacement {
  p_row : Z;
  p_col : Z;
  p_tileId : Z;
  p_assignedChar : option string
}.

Inductive GamePhase := waiting | playing | finished.

Inductive Action := actPlay | actExchange | actPass.

Record TurnRecord := mkTurn {
  tr_playerId : string;
  tr_playerName : string;
  tr_action : Action;
  tr_words : option (list (string * Z));
  tr_totalScore : Z
}.

#[global] Instance Tile_eq_dec : EqDecision Tile.
Proof. solve_decision. Defined.
#[global] Instance BonusType_eq_dec : EqDecision BonusType.
Proof. solve_decision. Defined.
#[global] Instance GamePhase_eq_dec : EqDecision GamePhase.
Proof. solve_decision. Defined.
#[global] Instance Action_eq_dec : EqDecision Action.
Proof. solve_decision. Defined.

(** JavaScript truthiness of an optional string: [undefined] and the
    empty string are falsy. *)
Definition truthy (s : option string) : bool :=
  match s with
  | Some c => negb (bool_decide (c = ""))
  | None => false
  end.

(** ** Errors

    One constructor for each [throw new Error(...)] of the server, in
    the order of the source files, and [TypeError] for a property read
    on [undefined]. *)
Inductive Error :=
  | ErrNoPlacement                 (* タイルを配置してください *)
  | ErrNotInRack                   (* ラックにないタイルです *)
  | ErrOutOfBounds                 (* 盤面の範囲外です *)
  | ErrOccupied (r c : Z)          (* (r,c)には既にタイルがあります *)
  | ErrBlankNeedsChar              (* ブランクタイルに文字を指定してください *)
  | ErrNotInLine                   (* タイルは一直線に配置してください *)
  | ErrGap                         (* タイルの間に隙間があります *)
  | ErrFirstMoveCenter             (* 最初の手は中央マスを通る必要があります *)
  | ErrFirstMoveTooShort           (* 最初の手は2文字以上必要です *)
  | ErrNotAdjacent                 (* 既存のタイルに隣接させてください *)
  | ErrNoWord                      (* 有効な単語が形成されていません *)
  | ErrUnknownWord (w : string)    (* 「w」は辞書にありません *)
  | ErrBagShort                    (* 袋のタイルが足りません *)
  | ErrInGame                      (* ゲーム中は参加できません *)
  | ErrFull                        (* 最大4人です *)
  | ErrAlreadyJoined               (* 既に参加しています *)
  | ErrNeedTwoPlayers              (* 2人以上必要です *)
  | ErrNotStarted                  (* ゲームが開始されていません *)
  | ErrNotYourTurn                 (* あなたの番ではありません *)
  | ErrNothingToExchange           (* 交換するタイルを選択してください *)
  | TypeError.

Inductive Result (A : Type) :=
  | Ok (a : A)
  | Throw (e : Error).
Arguments Ok {A} a.
Arguments Throw {A} e.

Definition isThrow {A} (r : Result A) : bool :=
  match r with Ok _ => false | Throw _ => true end.

Definition rbind {A B} (r : Result A) (k : A → Result B) : Result B :=
  match r with
  | Ok a => k a
  | Throw e => Throw e
  end.

(** ** The state-and-exception monad of a mutable object *)
Definition M (St A : Type) : Type := St → Result A * St.

Definition ret {St A} (a : A) : M St A := λ s, (Ok a, s).
Definition throw {St A} (e : Error) : M St A := λ s, (Throw e, s).
Definition bind {St A B} (m : M St A) (k : A → M St B) : M St B :=
  λ s, match m s with
       | (Ok a, s') => k a s'
       | (Throw e, s') => (Throw e, s')
       end.
Definition get {St} : M St St := λ s, (Ok s, s).
Definition put {St} (s : St) : M St unit := λ _, (Ok tt, s).
Definition modify {St} (f : St → St) : M St unit := λ s, (Ok tt, f s).
Definition liftR {St A} (r : Result A) : M St A := λ s, (r, s).
Definition when {St} (b : bool) (m : M St unit) : M St unit :=
  if b then m else ret tt.

Declare Scope js_scope.
Delimit Scope js_scope with js.
Notation "'do' x <- m ; k" := (bind m (λ x, k))
  (at level 10, x name, m at level 99, k at level 200) : js_scope.
Notation "m ;; k" := (bind m (λ _, k))
  (at level 100, k at level 200, right associativity) : js_scope.

(** ** server/src/tiles.ts *)

Record TileDef := mkDef { d_char : string; d_points : Z; d_count : nat }.

Definition TILE_DEFINITIONS : list TileDef :=
  [ mkDef "い" 1 5; mkDef "う" 1 5; mkDef "か" 1 4; mkDef "し" 1 4;
    mkDef "た" 1 4; mkDef "て" 1 4; mkDef "の" 1 4; mkDef "に" 1 4;
    mkDef "は" 1 3; mkDef "ん" 1 3; mkDef "く" 1 3; mkDef "こ" 1 3;
    mkDef "と" 1 3; mkDef "な" 1 3; mkDef "り" 1 3; mkDef "る" 1 3;
    mkDef "き" 2 3; mkDef "あ" 2 3; mkDef "お" 2 3; mkDef "け" 2 2;
    mkDef "さ" 2 2; mkDef "す" 2 2; mkDef "せ" 2 2; mkDef "そ" 2 2;
    mkDef "ち" 2 2; mkDef "つ" 2 2; mkDef "ま" 2 2; mkDef "み" 2 2;
    mkDef "も" 2 2; mkDef "よ" 2 2; mkDef "え" 2 2; mkDef "れ" 2 2;
    mkDef "わ" 3 2; mkDef "ふ" 3 2; mkDef "ら" 3 2; mkDef "む" 3 1;
    mkDef "め" 3 1; mkDef "ろ" 3 1; mkDef "ー" 3 2;
    mkDef "ぬ" 4 1; mkDef "ね" 4 1; mkDef "ひ" 4 1; mkDef "ほ" 4 1;
    mkDef "や" 4 1; mkDef "ゆ" 4 1;
    mkDef "" 0 2 ].

Definition RACK_SIZE : Z := 7.
Definition BOARD_SIZE : Z := 15.
Definition BINGO_BONUS : Z := 50.

(** ** server/src/TileBag.ts *)

(** [bag_calls] counts the calls of [Math.random] made so far; it is
    the position in the stream of random numbers, not a field of the
    class. *)
Record TileBag := mkBag {
  bag_tiles : list Tile;
  bag_nextId : Z;
  bag_calls : nat
}.

Section TileBag.
(** [random k n] stands for the value of [Math.random() * n] rounded
    down at the [k]-th call; [randomInt] keeps it below [n]. *)
Variable random : nat → nat → nat.

Definition randomInt (k n : nat) : nat := (random k n `mod` n)%nat.

(** [[a[i], a[j]] = [a[j], a[i]]] *)
Definition swap (l : list Tile) (i j : nat) : list Tile :=
  match l !! i, l !! j with
  | Some ti, Some tj => <[j := ti]> (<[i := tj]> l)
  | _, _ => l
  end.

(** The loop of [shuffle], entered with loop variable [i]. *)
Fixpoint shuffleLoop (i : nat) (k : nat) (l : list Tile) : list Tile * nat :=
  match i with
  | O => (l, k)
  | S i' => shuffleLoop i' (S k) (swap l i (randomInt k (S i)))
  end.

Definition shuffle (b : TileBag) : TileBag :=
  let '(l, k) := shuffleLoop (length (bag_tiles b) - 1)%nat (bag_calls b) (bag_tiles b) in
  mkBag l (bag_nextId b) k.

(** The inner loop of [init]: [def.count] tiles of one definition. *)
Fixpoint pushDef (d : TileDef) (n : nat) (acc : list Tile * Z) : list Tile * Z :=
  match n with
  | O => acc
  | S n' =>
      let '(l, next) := acc in
      pushDef d n'
        (l ++ [mkTile next (d_char d) (d_points d) (bool_decide (d_char d = "")) None],
         next + 1)
  end.

(** The tiles of [init] before the call of [shuffle]. *)
Definition initTiles : list Tile * Z :=
  foldl (λ acc d, pushDef d (d_count d) acc) ([], 0) TILE_DEFINITIONS.

Definition init (calls : nat) : TileBag :=
  shuffle (mkBag (fst initTiles) (snd initTiles) calls).

(** [splice(0, Math.min(count, this.tiles.length))] *)
Definition draw (count : nat) (b : TileBag) : list Tile * TileBag :=
  let n := Nat.min count (length (bag_tiles b)) in
  (take n (bag_tiles b), mkBag (drop n (bag_tiles b)) (bag_nextId b) (bag_calls b)).

Definition drawToFill (currentCount : nat) (b : TileBag) : list Tile * TileBag :=
  let needed := RACK_SIZE - Z.of_nat currentCount in
  if needed <=? 0 then ([], b) else draw (Z.to_nat needed) b.

Definition resetBlank (t : Tile) : Tile :=
  if t_isBlank t
  then mkTile (t_id t) (t_char t) (t_points t) (t_isBlank t) None
  else t.

Definition exchange (tilesToReturn : list Tile) (b : TileBag) : Result (list Tile) * TileBag :=
  if (length (bag_tiles b) <? length tilesToReturn)%nat then (Throw ErrBagShort, b)
  else
    let '(drawn, b1) := draw (length tilesToReturn) b in
    let b2 := mkBag (bag_tiles b1 ++ map resetBlank tilesToReturn) (bag_nextId b1) (bag_calls b1) in
    (Ok drawn, shuffle b2).

Definition remaining (b : TileBag) : nat := length (bag_tiles b).
Definition isEmpty (b : TileBag) : bool := bool_decide (length (bag_tiles b) = 0%nat).
End TileBag.


(** ** server/src/board.ts *)

Definition BONUS_POSITIONS : list (nat * nat * BonusType) :=
  [ (0, 0, TW); (0, 7, TW); (7, 0, TW);
    (1, 1, DW); (2, 2, DW); (3, 3, DW); (4, 4, DW);
    (1, 5, TL); (5, 1, TL); (5, 5, TL);
    (0, 3, DL); (3, 0, DL); (2, 6, DL); (6, 2, DL); (6, 6, DL);
    (3, 7, DL); (7, 3, DL);
    (7, 7, START) ]%nat.

(** The eight images of a cell, without repetition, in the order of the
    source; [positions] is the [Set] of keys seen so far. *)
Definition mirrorPositions (row col : nat) : list (nat * nat) :=
  let maxIdx := (Z.to_nat BOARD_SIZE - 1)%nat in
  snd (foldl
         (λ (acc : gset (nat * nat) * list (nat * nat)) rc,
            let '(positions, result) := acc in
            if bool_decide (rc ∈ positions) then acc
            else ({[ rc ]} ∪ positions, result ++ [rc]))
         (∅, [])
         [ (row, col); (row, maxIdx - col); (maxIdx - row, col);
           (maxIdx - row, maxIdx - col); (col, row); (col, maxIdx - row);
           (maxIdx - col, row); (maxIdx - col, maxIdx - row) ]%nat).

Definition bonusAt (layout : list (list BonusType)) (r c : nat) : BonusType :=
  default NONE (layout !! r ≫= (.!! c)).

Definition createBonusLayout : list (list BonusType) :=
  foldl
    (λ layout '(row, col, type),
       foldl
         (λ layout '(r, c),
            if bool_decide (bonusAt layout r c = NONE) || bool_decide (type = START)
            then alter (λ line, <[c := type]> line) r layout
            else layout)
         layout (mirrorPositions row col))
    (replicate (Z.to_nat BOARD_SIZE) (replicate (Z.to_nat BOARD_SIZE) NONE))
    BONUS_POSITIONS.

(** ** server/src/BoardValidator.ts *)

Abbreviation Board := (list (list (option Tile))).

(** [board[r][c]] for a cell inside the grid; every read of the source
    is guarded by a bounds test, and outside the grid the model answers
    [None]. *)
Definition cellAt (board : Board) (r c : Z) : option Tile :=
  if (r <? 0) || (c <? 0) then None
  else match board !! Z.to_nat r with
       | Some line => default None (line !! Z.to_nat c)
       | None => None
       end.

Definition occupied (board : Board) (r c : Z) : bool :=
  bool_decide (is_Some (cellAt board r c)).

(** [board[r][c] = t], for a cell inside the grid: the callers write
    only on cells whose bounds [validate] has tested. *)
Definition setCell (board : Board) (r c : Z) (t : Tile) : Board :=
  alter (λ line, <[Z.to_nat c := Some t]> line) (Z.to_nat r) board.

Record PlacedTile := mkPlaced { pt_tile : Tile; pt_row : Z; pt_col : Z }.

Record WordTile := mkWordTile {
  wt_tile : Tile;
  wt_row : Z;
  wt_col : Z;
  wt_isNew : bool
}.

Record WordFound := mkWord { w_word : string; w_tiles : list WordTile }.

Inductive Direction := horizontal | vertical.

#[global] Instance Direction_eq_dec : EqDecision Direction.
Proof. solve_decision. Defined.
#[global] Instance Direction_countable : Countable Direction.
Proof.
  refine (inj_countable' (λ d, match d with horizontal => true | vertical => false end)
                         (λ b : bool, if b then horizontal else vertical) _).
  by intros [].
Defined.

Definition withAssigned (t : Tile) (a : option string) : Tile :=
  mkTile (t_id t) (t_char t) (t_points t) (t_isBlank t) a.

Definition inBounds (r c : Z) : bool :=
  negb ((r <? 0) || (r >=? BOARD_SIZE) || (c <? 0) || (c >=? BOARD_SIZE)).

(** The first loop of [validate]: fetch every placed tile from the rack
    and test it, stopping at the first error. *)
Fixpoint collectPlaced (board : Board) (rackTiles : gmap Z Tile)
    (placements : list TilePlacement) (placedTiles : list PlacedTile)
    : Result (list PlacedTile) :=
  match placements with
  | [] => Ok placedTiles
  | p :: rest =>
      match rackTiles !! p_tileId p with
      | None => Throw ErrNotInRack
      | Some tile =>
          if negb (inBounds (p_row p) (p_col p)) then Throw ErrOutOfBounds
          else if occupied board (p_row p) (p_col p)
          then Throw (ErrOccupied (p_row p) (p_col p))
          else if t_isBlank tile then
            if negb (truthy (p_assignedChar p)) then Throw ErrBlankNeedsChar
            else collectPlaced board rackTiles rest
                   (placedTiles ++ [mkPlaced (withAssigned tile (p_assignedChar p)) (p_row p) (p_col p)])
          else collectPlaced board rackTiles rest
                 (placedTiles ++ [mkPlaced tile (p_row p) (p_col p)])
      end
  end.

(** [Math.min(...l)] and [Math.max(...l)] of a non-empty list. *)
Definition minOf (l : list Z) : Z :=
  match l with [] => 0 | x :: xs => foldl Z.min x xs end.
Definition maxOf (l : list Z) : Z :=
  match l with [] => 0 | x :: xs => foldl Z.max x xs end.

Definition stepOf (direction : Direction) : Z * Z :=
  (if bool_decide (direction = vertical) then 1 else 0,
   if bool_decide (direction = horizontal) then 1 else 0).

(** First [while] of [getWordAt]: walk back to the start of the run. *)
Fixpoint wordStart (fuel : nat) (board : Board) (dr dc r c : Z) : Z * Z :=
  match fuel with
  | O => (r, c)
  | S fuel' =>
      if (r - dr >=? 0) && (c - dc >=? 0) && occupied board (r - dr) (c - dc)
      then wordStart fuel' board dr dc (r - dr) (c - dc)
      else (r, c)
  end.

Definition letterOf (tile : Tile) : string :=
  if t_isBlank tile && truthy (t_assignedChar tile)
  then default "" (t_assignedChar tile)
  else t_char tile.

(** Second [while] of [getWordAt]: collect the run. *)
Fixpoint collectRun (fuel : nat) (board : Board) (newPositions : gset (Z * Z))
    (dr dc r c : Z) (word : string) (tiles : list WordTile) : string * list WordTile :=
  match fuel with
  | O => (word, tiles)
  | S fuel' =>
      if (r <? BOARD_SIZE) && (c <? BOARD_SIZE) then
        match cellAt board r c with
        | Some tile =>
            collectRun fuel' board newPositions (dr) (dc) (r + dr) (c + dc)
              (word +:+ letterOf tile)
              (tiles ++ [mkWordTile tile r c (bool_decide ((r, c) ∈ newPositions))])
        | None => (word, tiles)
        end
      else (word, tiles)
  end.

(** Both loops run along one axis of a board of [BOARD_SIZE] cells, so
    [BOARD_SIZE] iterations are enough (see [wordStart_exits] and
    [collectRun_exits]). *)
Definition loopFuel : nat := Z.to_nat BOARD_SIZE.

Definition getWordAt (board : Board) (row col : Z) (direction : Direction)
    (newPositions : gset (Z * Z)) : option WordFound :=
  let '(dr, dc) := stepOf direction in
  let '(r, c) := wordStart loopFuel board dr dc row col in
  let '(word, tiles) := collectRun loopFuel board newPositions dr dc r c "" [] in
  if (length tiles <? 2)%nat then None else Some (mkWord word tiles).

(** One half of the body of the loop of [extractWords]. *)
Definition noteWord (direction : Direction) (found : option WordFound)
    (acc : list WordFound * gset (Direction * (Z * Z)))
    : list WordFound * gset (Direction * (Z * Z)) :=
  let '(words, checked) := acc in
  match found with
  | Some w =>
      if (2 <=? length (w_tiles w))%nat then
        match w_tiles w with
        | first :: _ =>
            let key := (direction, (wt_row first, wt_col first)) in
            if bool_decide (key ∈ checked) then acc
            else (words ++ [w], {[ key ]} ∪ checked)
        | [] => acc
        end
      else acc
  | None => acc
  end.

Definition extractWords (board : Board) (placedTiles : list PlacedTile)
    (newPositions : gset (Z * Z)) : list WordFound :=
  fst (foldl
         (λ acc pt,
            let acc := noteWord horizontal
                         (getWordAt board (pt_row pt) (pt_col pt) horizontal newPositions) acc in
            noteWord vertical
              (getWordAt board (pt_row pt) (pt_col pt) vertical newPositions) acc)
         ([], ∅) placedTiles).

Section Validator.
(** [Dictionary.isValid]: membership in the word list read from
    [data/dictionary.txt]. *)
Variable isValid : string → bool.

Definition gapFree (tempBoard : Board) (isHorizontal : bool)
    (placedTiles : list PlacedTile) : bool :=
  match placedTiles with
  | [] => true
  | first :: _ =>
      if isHorizontal then
        let row := pt_row first in
        let minCol := minOf (map pt_col placedTiles) in
        let maxCol := maxOf (map pt_col placedTiles) in
        forallb (λ c, occupied tempBoard row c) (seqZ minCol (maxCol - minCol + 1))
      else
        let col := pt_col first in
        let minRow := minOf (map pt_row placedTiles) in
        let maxRow := maxOf (map pt_row placedTiles) in
        forallb (λ r, occupied tempBoard r col) (seqZ minRow (maxRow - minRow + 1))
  end.

Definition touchesCenter (placedTiles : list PlacedTile) : bool :=
  let center := BOARD_SIZE `div` 2 in
  existsb (λ t, bool_decide (pt_row t = center) && bool_decide (pt_col t = center))
          placedTiles.

Definition adjacent (board : Board) (placedTiles : list PlacedTile) : bool :=
  existsb
    (λ pt,
       existsb
         (λ '(dr, dc),
            let nr := pt_row pt + dr in
            let nc := pt_col pt + dc in
            if negb (inBounds nr nc) then false
            else occupied board nr nc)
         [ (0, 1); (0, -1); (1, 0); (-1, 0) ])
    placedTiles.

(** The dictionary loop: the first word that is not valid is thrown. *)
Fixpoint checkWords (words : list WordFound) : Result unit :=
  match words with
  | [] => Ok tt
  | w :: rest =>
      if negb (isValid (w_word w)) then Throw (ErrUnknownWord (w_word w))
      else checkWords rest
  end.

Definition validate (board : Board) (placements : list TilePlacement)
    (rackTiles : gmap Z Tile) (isFirstMove : bool) : Result (list WordFound) :=
  if bool_decide (length placements = 0%nat) then Throw ErrNoPlacement else
  rbind (collectPlaced board rackTiles placements []) (λ placedTiles,
  let rows : gset Z := list_to_set (map pt_row placedTiles) in
  let cols : gset Z := list_to_set (map pt_col placedTiles) in
  let isHorizontal := bool_decide (size rows = 1%nat) in
  let isVertical := bool_decide (size cols = 1%nat) in
  if negb isHorizontal && negb isVertical then Throw ErrNotInLine else
  let tempBoard :=
    foldl (λ b pt, setCell b (pt_row pt) (pt_col pt) (pt_tile pt)) board placedTiles in
  let newPositions : gset (Z * Z) :=
    list_to_set (map (λ pt, (pt_row pt, pt_col pt)) placedTiles) in
  if negb (gapFree tempBoard isHorizontal placedTiles) then Throw ErrGap else
  rbind
    (if isFirstMove then
       if negb (touchesCenter placedTiles) then Throw ErrFirstMoveCenter
       else if (length placedTiles <? 2)%nat then Throw ErrFirstMoveTooShort
       else Ok tt
     else
       if negb (adjacent board placedTiles) then Throw ErrNotAdjacent
       else Ok tt) (λ _,
  let words := extractWords tempBoard placedTiles newPositions in
  if bool_decide (length words = 0%nat) then Throw ErrNoWord else
  rbind (checkWords words) (λ _, Ok words))).
End Validator.

(** ** server/src/Game.ts *)

Record Player := mkPlayer {
  pl_id : string;
  pl_name : string;
  pl_score : Z;
  pl_rack : list Tile;
  pl_connected : bool
}.

(** The fields of [Game].  [g_turnTimer] tells whether a turn timeout
    is pending; the wall-clock value [turnDeadline] and the callback
    [onTurnTimeout] of the server are left out. *)
Record Game := mkGame {
  g_board : Board;
  g_bonusLayout : list (list BonusType);
  g_players : list Player;
  g_currentPlayerIndex : nat;
  g_tileBag : TileBag;
  g_turnHistory : list TurnRecord;
  g_phase : GamePhase;
  g_consecutivePasses : Z;
  g_isFirstMove : bool;
  g_turnTimer : bool
}.

Definition setBoard (b : Board) (g : Game) : Game :=
  mkGame b (g_bonusLayout g) (g_players g) (g_currentPlayerIndex g) (g_tileBag g)
    (g_turnHistory g) (g_phase g) (g_consecutivePasses g) (g_isFirstMove g) (g_turnTimer g).
Definition setPlayers (ps : list Player) (g : Game) : Game :=
  mkGame (g_board g) (g_bonusLayout g) ps (g_currentPlayerIndex g) (g_tileBag g)
    (g_turnHistory g) (g_phase g) (g_consecutivePasses g) (g_isFirstMove g) (g_turnTimer g).
Definition setCurrentPlayerIndex (i : nat) (g : Game) : Game :=
  mkGame (g_board g) (g_bonusLayout g) (g_players g) i (g_tileBag g)
    (g_turnHistory g) (g_phase g) (g_consecutivePasses g) (g_isFirstMove g) (g_turnTimer g).
Definition setTileBag (b : TileBag) (g : Game) : Game :=
  mkGame (g_board g) (g_bonusLayout g) (g_players g) (g_currentPlayerIndex g) b
    (g_turnHistory g) (g_phase g) (g_consecutivePasses g) (g_isFirstMove g) (g_turnTimer g).
Definition pushTurn (t : TurnRecord) (g : Game) : Game :=
  mkGame (g_board g) (g_bonusLayout g) (g_players g) (g_currentPlayerIndex g) (g_tileBag g)
    (g_turnHistory g ++ [t]) (g_phase g) (g_consecutivePasses g) (g_isFirstMove g) (g_turnTimer g).
Definition setPhase (p : GamePhase) (g : Game) : Game :=
  mkGame (g_board g) (g_bonusLayout g) (g_players g) (g_currentPlayerIndex g) (g_tileBag g)
    (g_turnHistory g) p (g_consecutivePasses g) (g_isFirstMove g) (g_turnTimer g).
Definition setConsecutivePasses (n : Z) (g : Game) : Game :=
  mkGame (g_board g) (g_bonusLayout g) (g_players g) (g_currentPlayerIndex g) (g_tileBag g)
    (g_turnHistory g) (g_phase g) n (g_isFirstMove g) (g_turnTimer g).
Definition setIsFirstMove (b : bool) (g : Game) : Game :=
  mkGame (g_board g) (g_bonusLayout g) (g_players g) (g_currentPlayerIndex g) (g_tileBag g)
    (g_turnHistory g) (g_phase g) (g_consecutivePasses g) b (g_turnTimer g).
Definition setTurnTimer (b : bool) (g : Game) : Game :=
  mkGame (g_board g) (g_bonusLayout g) (g_players g) (g_currentPlayerIndex g) (g_tileBag g)
    (g_turnHistory g) (g_phase g) (g_consecutivePasses g) (g_isFirstMove g) b.

Definition setRack (r : list Tile) (p : Player) : Player :=
  mkPlayer (pl_id p) (pl_name p) (pl_score p) r (pl_connected p).
Definition setScore (n : Z) (p : Player) : Player :=
  mkPlayer (pl_id p) (pl_name p) n (pl_rack p) (pl_connected p).
Definition setConnectedFlag (b : bool) (p : Player) : Player :=
  mkPlayer (pl_id p) (pl_name p) (pl_score p) (pl_rack p) b.

Definition initBoard : Board :=
  replicate (Z.to_nat BOARD_SIZE) (replicate (Z.to_nat BOARD_SIZE) None).

(** [tile.isBlank ? 0 : tile.points] *)
Definition tilePoints (t : Tile) : Z := if t_isBlank t then 0 else t_points t.

(** The body of the inner loop of [playTiles] on the pair
    [(wordScore, wordMultiplier)]. *)
Definition scoreTile (layout : list (list BonusType)) (acc : Z * Z) (wt : WordTile) : Z * Z :=
  let '(wordScore, wordMultiplier) := acc in
  if wt_isNew wt then
    match bonusAt layout (Z.to_nat (wt_row wt)) (Z.to_nat (wt_col wt)) with
    | DL => (wordScore + tilePoints (wt_tile wt) * 2, wordMultiplier)
    | TL => (wordScore + tilePoints (wt_tile wt) * 3, wordMultiplier)
    | DW | START => (wordScore + tilePoints (wt_tile wt), wordMultiplier * 2)
    | TW => (wordScore + tilePoints (wt_tile wt), wordMultiplier * 3)
    | NONE => (wordScore + tilePoints (wt_tile wt), wordMultiplier)
    end
  else (wordScore + tilePoints (wt_tile wt), wordMultiplier).

Definition scoreWord (layout : list (list BonusType)) (wf : WordFound) : Z :=
  let '(wordScore, wordMultiplier) := foldl (scoreTile layout) (0, 1) (w_tiles wf) in
  wordScore * wordMultiplier.

(** The outer loop of [playTiles] on [(totalScore, wordResults)]. *)
Definition scoreWords (layout : list (list BonusType)) (wordsFound : list WordFound)
    : Z * list (string * Z) :=
  foldl
    (λ '(totalScore, wordResults) wf,
       let wordScore := scoreWord layout wf in
       (totalScore + wordScore, wordResults ++ [(w_word wf, wordScore)]))
    (0, []) wordsFound.

(** [new Map(rack.map(t => [t.id, t]))]: a later entry replaces an
    earlier one with the same key. *)
Definition rackMapOf (rack : list Tile) : gmap Z Tile :=
  foldl (λ m t, <[t_id t := t]> m) ∅ rack.

(** The commit loop of [playTiles]; [validate] has found every tile in
    [rackMap] when this runs. *)
Definition commitPlacements (rackMap : gmap Z Tile) (placements : list TilePlacement)
    (board : Board) : Board :=
  foldl
    (λ b p,
       match rackMap !! p_tileId p with
       | Some tile =>
           let placed :=
             if truthy (p_assignedChar p) then withAssigned tile (p_assignedChar p) else tile in
           setCell b (p_row p) (p_col p) placed
       | None => b
       end)
    board placements.

(** [rack.reduce((sum, t) => sum + t.points, 0)] *)
Definition rackPoints (rack : list Tile) : Z :=
  foldl (λ sum t, sum + t_points t) 0 rack.

Definition currentPlayerId (g : Game) : string :=
  match g_players g !! g_currentPlayerIndex g with
  | Some p => pl_id p
  | None => ""
  end.

Section Game.
Variable isValid : string → bool.
Variable random : nat → nat → nat.

Local Open Scope js_scope.

Definition newGame (calls : nat) : Game :=
  mkGame initBoard createBonusLayout [] 0 (init random calls) [] waiting 0 true false.

Definition clearTurnTimer : M Game unit := modify (setTurnTimer false).

Definition startTurnTimer : M Game unit :=
  clearTurnTimer ;;
  do g <- get;
  if negb (bool_decide (g_phase g = playing)) then ret tt
  else modify (setTurnTimer true).

Definition endGame : M Game unit :=
  modify (setPhase finished) ;;
  clearTurnTimer ;;
  modify (λ g, setPlayers
                 (map (λ player, setScore (pl_score player - rackPoints (pl_rack player)) player)
                      (g_players g)) g).

Definition checkGameEnd : M Game unit :=
  do g <- get;
  if g_consecutivePasses g >=? Z.of_nat (length (g_players g)) * 2 then endGame
  else
    match find (λ p, bool_decide (length (pl_rack p) = 0%nat)) (g_players g) with
    | Some _ => if isEmpty (g_tileBag g) then endGame else ret tt
    | None => ret tt
    end.

(** [(i + 1) % players.length]; the callers run it with at least one
    player. *)
Definition advanceTurn : M Game unit :=
  do g <- get;
  if negb (bool_decide (g_phase g = playing)) then ret tt
  else
    modify (setCurrentPlayerIndex
              ((g_currentPlayerIndex g + 1) `mod` length (g_players g))%nat) ;;
    startTurnTimer.

Definition assertTurn (playerId : string) : M Game unit :=
  do g <- get;
  if negb (bool_decide (g_phase g = playing)) then throw ErrNotStarted
  else if negb (bool_decide (currentPlayerId g = playerId)) then throw ErrNotYourTurn
  else ret tt.

(** The common body of [pass] and [forcePass]: the counter is
    incremented before the turn record reads [player.id]. *)
Definition forcePass : M Game unit :=
  do g <- get;
  let player := g_players g !! g_currentPlayerIndex g in
  modify (setConsecutivePasses (g_consecutivePasses g + 1)) ;;
  match player with
  | None => throw TypeError
  | Some player =>
      modify (pushTurn (mkTurn (pl_id player) (pl_name player) actPass None 0)) ;;
      advanceTurn ;;
      checkGameEnd
  end.

Definition pass (playerId : string) : M Game unit :=
  assertTurn playerId ;;
  forcePass.

Definition addPlayer (id name : string) : M Game unit :=
  do g <- get;
  if negb (bool_decide (g_phase g = waiting)) then throw ErrInGame
  else if (4 <=? length (g_players g))%nat then throw ErrFull
  else if existsb (λ p, bool_decide (pl_id p = id)) (g_players g) then throw ErrAlreadyJoined
  else modify (setPlayers (g_players g ++ [mkPlayer id name 0 [] true])).

Definition removePlayer (id : string) : M Game unit :=
  modify (λ g, setPlayers (filter (λ p, pl_id p ≠ id) (g_players g)) g).

(** [find] returns the first player with that id. *)
Fixpoint setFirst (id : string) (connected : bool) (ps : list Player) : list Player :=
  match ps with
  | [] => []
  | p :: rest =>
      if bool_decide (pl_id p = id) then setConnectedFlag connected p :: rest
      else p :: setFirst id connected rest
  end.

Definition setConnected (id : string) (connected : bool) : M Game unit :=
  modify (λ g, setPlayers (setFirst id connected (g_players g)) g).

(** The loop of [start]: every player draws a rack in turn. *)
Definition dealRacks (ps : list Player) (bag : TileBag) : list Player * TileBag :=
  foldl
    (λ '(done, bag) player,
       let '(drawn, bag') := draw (Z.to_nat RACK_SIZE) bag in
       (done ++ [setRack drawn player], bag'))
    ([], bag) ps.

Definition start : M Game unit :=
  do g <- get;
  if (length (g_players g) <? 2)%nat then throw ErrNeedTwoPlayers
  else
    modify (setPhase playing) ;;
    modify (λ g, let '(ps, bag) := dealRacks (g_players g) (g_tileBag g) in
                 setTileBag bag (setPlayers ps g)) ;;
    startTurnTimer.

Definition playTiles (playerId : string) (placements : list TilePlacement)
    : M Game (list (string * Z) * Z) :=
  assertTurn playerId ;;
  do g <- get;
  match g_players g !! g_currentPlayerIndex g with
  | None => throw TypeError
  | Some player =>
      let rackMap := rackMapOf (pl_rack player) in
      do wordsFound <- liftR (validate isValid (g_board g) placements rackMap (g_isFirstMove g));
      let '(wordsTotal, wordResults) := scoreWords (g_bonusLayout g) wordsFound in
      let totalScore :=
        if bool_decide (Z.of_nat (length placements) = RACK_SIZE)
        then wordsTotal + BINGO_BONUS else wordsTotal in
      modify (λ g, setBoard (commitPlacements rackMap placements (g_board g)) g) ;;
      let usedIds : gset Z := list_to_set (map p_tileId placements) in
      let kept := filter (λ t, t_id t ∉ usedIds) (pl_rack player) in
      let '(drawn, bag) := drawToFill (length kept) (g_tileBag g) in
      modify (setTileBag bag) ;;
      modify (λ g, setPlayers
                     (<[g_currentPlayerIndex g :=
                          setScore (pl_score player + totalScore) (setRack (kept ++ drawn) player)]>
                        (g_players g)) g) ;;
      modify (setIsFirstMove false) ;;
      modify (setConsecutivePasses 0) ;;
      modify (pushTurn (mkTurn (pl_id player) (pl_name player) actPlay (Some wordResults) totalScore)) ;;
      advanceTurn ;;
      checkGameEnd ;;
      ret (wordResults, totalScore)
  end.

(** The loop of [exchangeTiles] that looks every id up in the rack. *)
Fixpoint findTiles (rack : list Tile) (tileIds : list Z) (tilesToExchange : list Tile)
    : Result (list Tile) :=
  match tileIds with
  | [] => Ok tilesToExchange
  | id :: rest =>
      match find (λ t, bool_decide (t_id t = id)) rack with
      | None => Throw ErrNotInRack
      | Some tile => findTiles rack rest (tilesToExchange ++ [tile])
      end
  end.

Definition exchangeTiles (playerId : string) (tileIds : list Z) : M Game unit :=
  assertTurn playerId ;;
  do g <- get;
  if bool_decide (length tileIds = 0%nat) then throw ErrNothingToExchange
  else if (remaining (g_tileBag g) <? length tileIds)%nat then throw ErrBagShort
  else
    match g_players g !! g_currentPlayerIndex g with
    | None => throw TypeError
    | Some player =>
        do tilesToExchange <- liftR (findTiles (pl_rack player) tileIds []);
        do newTiles <- (λ g, let '(r, bag) := exchange random tilesToExchange (g_tileBag g) in
                             (r, setTileBag bag g));
        modify (λ g, setPlayers
                       (<[g_currentPlayerIndex g :=
                            setRack (filter (λ t, t_id t ∉ tileIds) (pl_rack player) ++ newTiles)
                                    player]>
                          (g_players g)) g) ;;
        modify (setConsecutivePasses 0) ;;
        modify (pushTurn (mkTurn (pl_id player) (pl_name player) actExchange None 0)) ;;
        advanceTurn
    end.
End Game.

(** [PlayerInfo] of the protocol and the views of [Game] that the
    server sends to the clients. *)
Record PlayerInfo := mkInfo {
  pi_id : string;
  pi_name : string;
  pi_score : Z;
  pi_tileCount : nat;
  pi_connected : bool
}.

Definition toPlayerInfo (p : Player) : PlayerInfo :=
  mkInfo (pl_id p) (pl_name p) (pl_score p) (length (pl_rack p)) (pl_connected p).

Definition getPlayersInfo (g : Game) : list PlayerInfo :=
  map toPlayerInfo (g_players g).

Definition getPlayerIds (g : Game) : list string :=
  map pl_id (g_players g).

(** [Array.prototype.sort] with a comparator.  The sort of the language
    is stable, and for a comparator that orders by a key its result is
    the one list that is sorted and keeps elements with equal keys in
    their order; insertion from the right computes it: an element goes
    in front of the first element it does not come after. *)
Fixpoint insertSorted {A} (cmp : A → A → Z) (x : A) (sorted : list A) : list A :=
  match sorted with
  | [] => [x]
  | y :: rest =>
      if cmp x y <=? 0 then x :: y :: rest else y :: insertSorted cmp x rest
  end.

Definition sortBy {A} (cmp : A → A → Z) (l : list A) : list A :=
  foldr (insertSorted cmp) [] l.

(** [toPlayerInfo(sorted[0])] reads a field of [undefined] when there
    is no player. *)
Definition getWinner (g : Game) : Result (option PlayerInfo) :=
  if negb (bool_decide (g_phase g = finished)) then Ok None
  else
    match sortBy (λ a b, pl_score b - pl_score a) (g_players g) !! 0%nat with
    | Some p => Ok (Some (toPlayerInfo p))
    | None => Throw TypeError
    end.

(** ** server/src/Room.ts *)

(** A connection ([WebSocket]) and a timeout handle are natural numbers. *)
Record RoomPlayer := mkRoomPlayer {
  rp_id : string;
  rp_name : string;
  rp_ws : nat;
  rp_reconnectTimer : option nat
}.

(** The fields of [Room], and the part of the event loop a room talks
    to: [rm_timeouts] holds the pending [setTimeout] callbacks of
    [handleDisconnect], each with the player id its closure captured;
    [rm_nextHandle] is the next fresh handle; [rm_notified] lists the
    calls of the [onTimeout] argument, by player id. *)
Record Room := mkRoom {
  rm_players : gmap string RoomPlayer;
  rm_hostId : string;
  rm_game : Game;
  rm_timeouts : gmap nat string;
  rm_nextHandle : nat;
  rm_notified : list string
}.

Definition setRoomPlayers (ps : gmap string RoomPlayer) (r : Room) : Room :=
  mkRoom ps (rm_hostId r) (rm_game r) (rm_timeouts r) (rm_nextHandle r) (rm_notified r).
Definition setHostId (h : string) (r : Room) : Room :=
  mkRoom (rm_players r) h (rm_game r) (rm_timeouts r) (rm_nextHandle r) (rm_notified r).
Definition setGame (g : Game) (r : Room) : Room :=
  mkRoom (rm_players r) (rm_hostId r) g (rm_timeouts r) (rm_nextHandle r) (rm_notified r).
Definition setTimeouts (t : gmap nat string) (r : Room) : Room :=
  mkRoom (rm_players r) (rm_hostId r) (rm_game r) t (rm_nextHandle r) (rm_notified r).
Definition setNextHandle (n : nat) (r : Room) : Room :=
  mkRoom (rm_players r) (rm_hostId r) (rm_game r) (rm_timeouts r) n (rm_notified r).
Definition notify (id : string) (r : Room) : Room :=
  mkRoom (rm_players r) (rm_hostId r) (rm_game r) (rm_timeouts r) (rm_nextHandle r)
    (rm_notified r ++ [id]).

(** Run a method of [this.game]. *)
Definition onGame {A} (m : M Game A) : M Room A :=
  λ r, let '(res, g) := m (rm_game r) in (res, setGame g r).

Section Room.
Variable random : nat → nat → nat.

Local Open Scope js_scope.

Definition newRoom (calls : nat) : Room :=
  mkRoom ∅ "" (newGame random calls) ∅ 0 [].

(** [clearTimeout(h)]: the callback will not run; clearing a handle
    that has fired or was cleared does nothing. *)
Definition clearTimeout (h : nat) : M Room unit :=
  modify (λ r, setTimeouts (delete h (rm_timeouts r)) r).

Definition roomAddPlayer (id name : string) (ws : nat) : M Room unit :=
  modify (λ r, setRoomPlayers (<[id := mkRoomPlayer id name ws None]> (rm_players r)) r) ;;
  onGame (addPlayer id name) ;;
  do r <- get;
  when (bool_decide (size (rm_players r) = 1%nat)) (modify (setHostId id)).

Definition roomRemovePlayer (id : string) : M Room unit :=
  do r <- get;
  match rm_players r !! id ≫= rp_reconnectTimer with
  | Some h => clearTimeout h
  | None => ret tt
  end ;;
  modify (λ r, setRoomPlayers (delete id (rm_players r)) r) ;;
  do r <- get;
  when (bool_decide (g_phase (rm_game r) = waiting)) (onGame (removePlayer id)).

Definition reconnectPlayer (id : string) (ws : nat) : M Room bool :=
  do r <- get;
  match rm_players r !! id with
  | None => ret false
  | Some player =>
      match rp_reconnectTimer player with
      | Some h => clearTimeout h
      | None => ret tt
      end ;;
      modify (λ r, setRoomPlayers
                     (<[id := mkRoomPlayer (rp_id player) (rp_name player) ws None]>
                        (rm_players r)) r) ;;
      onGame (setConnected id true) ;;
      ret true
  end.

(** [handleDisconnect(id, onTimeout)]; a call of [onTimeout] is
    recorded in [rm_notified]. *)
Definition handleDisconnect (id : string) : M Room unit :=
  do r <- get;
  match rm_players r !! id with
  | None => ret tt
  | Some player =>
      onGame (setConnected id false) ;;
      do r <- get;
      if bool_decide (g_phase (rm_game r) = playing) then
        let h := rm_nextHandle r in
        modify (setNextHandle (S h)) ;;
        modify (λ r, setTimeouts (<[h := id]> (rm_timeouts r)) r) ;;
        modify (λ r, setRoomPlayers
                       (<[id := mkRoomPlayer (rp_id player) (rp_name player) (rp_ws player)
                                  (Some h)]>
                          (rm_players r)) r)
      else
        roomRemovePlayer id ;;
        modify (notify id)
  end.

(** The event loop runs the callback of timeout [h], if it is still
    pending: [() => { this.removePlayer(id); onTimeout(); }]. *)
Definition timeoutFires (h : nat) : M Room unit :=
  do r <- get;
  match rm_timeouts r !! h with
  | None => ret tt
  | Some id =>
      modify (λ r, setTimeouts (delete h (rm_timeouts r)) r) ;;
      roomRemovePlayer id ;;
      modify (notify id)
  end.
End Room.

(** ** The message switch of server/src/index.ts

    The three game intents of a client and the [Game] method each one
    is routed to. *)
Inductive Intent :=
  | PLAY_TILES (placements : list TilePlacement)
  | EXCHANGE_TILES (tileIds : list Z)
  | PASS.

Definition submit (isValid : string → bool) (random : nat → nat → nat)
    (playerId : string) (msg : Intent) : M Game unit :=
  match msg with
  | PLAY_TILES placements => bind (playTiles isValid playerId placements) (λ _, ret tt)
  | EXCHANGE_TILES tileIds => exchangeTiles random playerId tileIds
  | PASS => pass playerId
  end.

(** ** What can happen to a session

    The events that reach the [Game] of a room: a participant joins; a
    participant leaves while the room waits (in the other phases
    [Room.removePlayer] keeps the seat); a connection is lost or
    restored; the host sends START_GAME; the participant [playerId]
    submits an intent; the pending turn timer fires. *)
Inductive Event :=
  | Join (id name : string)
  | Leave (id : string)
  | Connection (id : string) (connected : bool)
  | StartGame
  | Submit (playerId : string) (msg : Intent)
  | TurnTimeout.

Definition handle (isValid : string → bool) (random : nat → nat → nat)
    (ev : Event) : M Game unit :=
  match ev with
  | Join id name => addPlayer id name
  | Leave id =>
      bind get (λ g, when (bool_decide (g_phase g = waiting)) (removePlayer id))
  | Connection id connected => setConnected id connected
  | StartGame => start
  | Submit playerId msg => submit isValid random playerId msg
  | TurnTimeout =>
      bind get (λ g,
        when (g_turnTimer g)
          (bind (modify (setTurnTimer false)) (λ _,
             when (bool_decide (g_phase g = playing)) forcePass)))
  end.

Definition runEvents (isValid : string → bool) (random : nat → nat → nat)
    (evs : list Event) (g : Game) : Game :=
  foldl (λ g ev, snd (handle isValid random ev g)) g evs.

(** The sessions that a new game can get to. *)
Definition reachable (isValid : string → bool) (random : nat → nat → nat) (g : Game) : Prop :=
  ∃ calls evs, g = runEvents isValid random evs (newGame random calls).

(** ** The message switch of server/src/index.ts, for one room

    What the handlers of the server do to the room of a connection:
    JOIN_ROOM with its two guards and the id that the server has
    generated for the new participant, RECONNECT, START_GAME with its
    host guard, the three intents under the id of the connection, the
    close of a connection, and the two timers (the grace timer of a
    participant and the turn timer of the game).  A handler catches the
    exception of the method it calls and reports it to the client; the
    room keeps the state it had when the exception was thrown. *)
Inductive RoomEvent :=
  | JoinRoom (id name : string) (ws : nat)
  | Reconnect (id : string) (ws : nat)
  | HostStarts (id : string)
  | Sends (id : string) (msg : Intent)
  | Closes (id : string)
  | GraceEnds (h : nat)
  | TurnEnds.

(** [Room.isHost] and [Room.playerCount] *)
Definition isHost (id : string) (r : Room) : bool := bool_decide (id = rm_hostId r).
Definition playerCount (r : Room) : nat := size (rm_players r).

Definition roomHandle (isValid : string → bool) (random : nat → nat → nat)
    (ev : RoomEvent) : M Room unit :=
  match ev with
  | JoinRoom id name ws =>
      bind get (λ r,
        if negb (bool_decide (g_phase (rm_game r) = waiting)) then ret tt
        else if (4 <=? playerCount r)%nat then ret tt
        else roomAddPlayer id name ws)
  | Reconnect id ws => bind (reconnectPlayer id ws) (λ _, ret tt)
  | HostStarts id =>
      bind get (λ r, if negb (isHost id r) then ret tt else onGame start)
  | Sends id msg => onGame (submit isValid random id msg)
  | Closes id => handleDisconnect id
  | GraceEnds h => timeoutFires h
  | TurnEnds => onGame (handle isValid random TurnTimeout)
  end.

Definition runRoomEvents (isValid : string → bool) (random : nat → nat → nat)
    (evs : list RoomEvent) (r : Room) : Room :=
  foldl (λ r ev, snd (roomHandle isValid random ev r)) r evs.

(** The rooms that CREATE_ROOM makes (a new room with its creator as
    first participant) and the rooms they can get to. *)
Definition reachableRoom (isValid : string → bool) (random : nat → nat → nat)
    (r : Room) : Prop :=
  ∃ calls id name ws evs,
    r = runRoomEvents isValid random evs
          (snd (roomAddPlayer id name ws (newRoom random calls))).

(** ** Quantities the properties speak about *)

(** *** Counting tiles *)

(** Number of tiles on the board. *)
Definition boardTiles (board : Board) : nat :=
  sum_list (map (λ line, length (filter (λ c : option Tile, is_Some c) line)) board).

(** Number of tiles in the pool, the racks and on the board together. *)
Definition tileCount (g : Game) : nat :=
  (length (bag_tiles (g_tileBag g))
   + sum_list (map (λ p, length (pl_rack p)) (g_players g))
   + boardTiles (g_board g))%nat.

(** The grid of the board: [BOARD_SIZE] lines of [BOARD_SIZE] cells. *)
Definition wfBoard (board : Board) : Prop :=
  length board = Z.to_nat BOARD_SIZE
  ∧ Forall (λ line : list (option Tile), length line = Z.to_nat BOARD_SIZE) board.

(** No two tiles of the pool and the racks have the same id. *)
Definition distinctIds (g : Game) : Prop :=
  NoDup (map t_id (bag_tiles (g_tileBag g) ++ concat (map pl_rack (g_players g)))).

Definition sound (g : Game) : Prop := wfBoard (g_board g) ∧ distinctIds g.

(** An intent that names no tile twice and no cell twice. *)
Definition wellFormed (msg : Intent) : Prop :=
  match msg with
  | PLAY_TILES placements =>
      NoDup (map p_tileId placements)
      ∧ NoDup (map (λ p, (p_row p, p_col p)) placements)
  | EXCHANGE_TILES tileIds => NoDup tileIds
  | PASS => True
  end.

(** The events of a started session: intents, turn timeouts, and
    connections lost and restored. *)
Definition turnEvent (ev : Event) : Prop :=
  match ev with
  | Submit _ msg => wellFormed msg
  | TurnTimeout | Connection _ _ => True
  | Join _ _ | Leave _ | StartGame => False
  end.

(** The events of a room that waits for its game to start. *)
Definition lobbyEvent (ev : Event) : Prop :=
  match ev with
  | Join _ _ | Leave _ | Connection _ _ => True
  | StartGame | Submit _ _ | TurnTimeout => False
  end.

(** A session that waits: nothing dealt, nothing placed. *)
Definition inLobby (g : Game) : Prop :=
  g_phase g = waiting
  ∧ Forall (λ rack : list Tile, rack = []) (map pl_rack (g_players g))
  ∧ length (bag_tiles (g_tileBag g)) = 112%nat
  ∧ NoDup (map t_id (bag_tiles (g_tileBag g)))
  ∧ g_board g = initBoard.

(** What [validate] has established about every placement when its
    first loop succeeds. *)
Definition placeable (board : Board) (rackTiles : gmap Z Tile) (p : TilePlacement) : Prop :=
  inBounds (p_row p) (p_col p) = true
  ∧ cellAt board (p_row p) (p_col p) = None
  ∧ is_Some (rackTiles !! p_tileId p).

(** The racks [start] deals, one chunk of the pool after the other. *)
Fixpoint dealtFrom (tiles : list Tile) (ps : list Player) : list Player :=
  match ps with
  | [] => []
  | p :: rest => setRack (take 7 tiles) p :: dealtFrom (drop 7 tiles) rest
  end.

(** *** Tiles of the table *)

(** In the table a blank is worth nothing. *)
Definition tableTile (t : Tile) : Prop :=
  t_isBlank t = true → t_points t = 0.

#[global] Instance tableTile_dec (t : Tile) : Decision (tableTile t).
Proof. unfold tableTile. apply _. Defined.


Definition sumZ (l : list Z) : Z := foldr Z.add 0 l.
Definition prodZ (l : list Z) : Z := foldr Z.mul 1 l.


(** *** The scoring rule *)

(** The spec's reading of the scoring rule: letter multiplier of a cell,
    word multiplier of a cell, and the score of a word as the sum of
    its letter contributions times the product of the word multipliers
    of its new cells. *)
Definition letterMultiplier (b : BonusType) : Z :=
  match b with DL => 2 | TL => 3 | _ => 1 end.

Definition wordMultiplier (b : BonusType) : Z :=
  match b with DW | START => 2 | TW => 3 | _ => 1 end.

Definition cellBonus (layout : list (list BonusType)) (wt : WordTile) : BonusType :=
  bonusAt layout (Z.to_nat (wt_row wt)) (Z.to_nat (wt_col wt)).

Definition specLetterScore (layout : list (list BonusType)) (wt : WordTile) : Z :=
  if wt_isNew wt
  then tilePoints (wt_tile wt) * letterMultiplier (cellBonus layout wt)
  else tilePoints (wt_tile wt).

Definition specWordMultiplier (layout : list (list BonusType)) (wt : WordTile) : Z :=
  if wt_isNew wt then wordMultiplier (cellBonus layout wt) else 1.

Definition specWordScore (layout : list (list BonusType)) (wf : WordFound) : Z :=
  sumZ (map (specLetterScore layout) (w_tiles wf))
  * prodZ (map (specWordMultiplier layout) (w_tiles wf)).

(** The cells a play puts tiles on. *)
Definition placedCells (placements : list TilePlacement) : gset (Z * Z) :=
  list_to_set (map (λ p, (p_row p, p_col p)) placements).

(** The new-cell flag of a word tile tells whether its cell is one of
    [cells]. *)
Definition flaggedBy (cells : gset (Z * Z)) (wt : WordTile) : Prop :=
  wt_isNew wt = bool_decide ((wt_row wt, wt_col wt) ∈ cells).

(** A tile of a run that [getWordAt] collects on [board]. *)
Definition wordTileOf (board : Board) (cells : gset (Z * Z)) (wt : WordTile) : Prop :=
  flaggedBy cells wt
  ∧ cellAt board (wt_row wt) (wt_col wt) = Some (wt_tile wt).

(** A tile of a formed word, seen from the board before the play: it is
    flagged as new exactly on the cells of the play, and when it is not
    new it is the tile the board already had on its cell. *)
Definition scoredTile (board : Board) (cells : gset (Z * Z)) (wt : WordTile) : Prop :=
  flaggedBy cells wt
  ∧ (wt_isNew wt = false → cellAt board (wt_row wt) (wt_col wt) = Some (wt_tile wt)).

(** *** Seats *)

(** What a participant keeps across a reconnection: the seats of the
    game in turn order, each with its id, score and rack. *)
Definition seats (g : Game) : list (string * Z * list Tile) :=
  map (λ p, (pl_id p, pl_score p, pl_rack p)) (g_players g).

(** *** Words *)

(** The cell of a tile of a run, and the letters of a run in order. *)
Definition cellOf (wt : WordTile) : Z * Z := (wt_row wt, wt_col wt).

Definition spell (tiles : list WordTile) : string :=
  foldr (λ wt s, letterOf (wt_tile wt) +:+ s) "" tiles.

(** The cells of a run of [n] tiles that starts at [(r, c)] and goes
    along [direction]. *)
Definition runCells (direction : Direction) (r c : Z) (n : nat) : list (Z * Z) :=
  map (λ j, (r + j * fst (stepOf direction), c + j * snd (stepOf direction)))
      (seqZ 0 (Z.of_nat n)).

(** The four cells next to a cell, in the order in which [validate]
    looks at them. *)
Definition neighbours (r c : Z) : list (Z * Z) :=
  [ (r, c + 1); (r, c - 1); (r + 1, c); (r - 1, c) ].

(** A placement of a blank names a letter. *)
Definition lettered (rackTiles : gmap Z Tile) (p : TilePlacement) : Prop :=
  ∀ tile, rackTiles !! p_tileId p = Some tile → t_isBlank tile = true →
    truthy (p_assignedChar p) = true.

(** *** Seats and turns *)

(** The seats of a session are in order when there are at most four of
    them, with pairwise distinct ids; while the session waits the turn
    index is 0, and from the start on there are at least two seats and
    the turn index names one of them. *)
Definition seated (g : Game) : Prop :=
  (length (g_players g) ≤ 4)%nat
  ∧ NoDup (map pl_id (g_players g))
  ∧ (g_phase g = waiting → g_currentPlayerIndex g = 0%nat)
  ∧ (g_phase g ≠ waiting →
       (2 ≤ length (g_players g))%nat
       ∧ (g_currentPlayerIndex g < length (g_players g))%nat).

(** A turn timeout is pending exactly in the playing phase. *)
Definition timed (g : Game) : Prop :=
  g_turnTimer g = bool_decide (g_phase g = playing).

Definition steady (g : Game) : Prop := seated g ∧ timed g.

(** The events other than START_GAME. *)
Definition tableEvent (ev : Event) : Prop :=
  match ev with
  | StartGame => False
  | _ => True
  end.

(** *** Rooms and their games *)

(** Every participant of the room has a seat in its game, and while
    the room waits every seat belongs to a participant. *)
Definition inStep (r : Room) : Prop :=
  (∀ id, is_Some (rm_players r !! id) → id ∈ getPlayerIds (rm_game r))
  ∧ (g_phase (rm_game r) = waiting →
       ∀ id, id ∈ getPlayerIds (rm_game r) → is_Some (rm_players r !! id)).

(** *** The books of a session *)

(** The sum of the turn totals that the history records for one id. *)
Definition recorded (id : string) (history : list TurnRecord) : Z :=
  sumZ (map tr_totalScore (filter (λ t, tr_playerId t = id) history)).

(** What the end of the game has taken from a seat: the points of its
    rack once the game is finished, nothing before. *)
Definition leftOnRack (g : Game) (p : Player) : Z :=
  if bool_decide (g_phase g = finished) then rackPoints (pl_rack p) else 0.

Definition accounted (g : Game) : Prop :=
  Forall (λ p, pl_score p = recorded (pl_id p) (g_turnHistory g) - leftOnRack g p)
         (g_players g).

(** A session that waits has recorded no turn and given no points. *)
Definition opening (g : Game) : Prop :=
  g_phase g = waiting
  ∧ g_turnHistory g = []
  ∧ Forall (λ p, pl_score p = 0) (g_players g).

(** ** Concrete games

    A random source that makes every swap of the shuffle a swap of a
    tile with itself, so that the bag keeps the order of the table; a
    small word list; and a few sessions. *)
Definition lastIndex (k n : nat) : nat := (n - 1)%nat.

(** A random source whose shuffle moves the last tile of the table, a
    blank, to the front. *)
Definition blankFirst (k n : nat) : nat :=
  match k with O => 0%nat | S _ => (n - 1)%nat end.

Definition someWords (w : string) : bool :=
  bool_decide (w ∈ ["いい"; "いう"; "いか"; "もうしあわせる"]).

Definition runGame {A} (m : M Game A) (g : Game) : Game := snd (m g).

Definition twoPlayers : Game :=
  runGame (addPlayer "b" "B") (runGame (addPlayer "a" "A") (newGame lastIndex 0)).

(** Two players, racks dealt: "a" holds tiles 0 to 6, "b" tiles 7 to 13. *)
Definition started : Game := runGame start twoPlayers.

(** "a" has passed; it is the turn of "b". *)
Definition afterPass : Game := runGame (pass "a") started.

Definition tileI : Tile := mkTile 0 "い" 1 false None.
Definition tileU : Tile := mkTile 5 "う" 1 false None.
Definition tileKa : Tile := mkTile 10 "か" 1 false None.

(** The board after いう was played from the centre to the right. *)
Definition boardIU : Board := setCell (setCell initBoard 7 7 tileI) 7 8 tileU.

(** The tiles of the table at the given positions (a tile's position
    in the table is its id). *)
Definition tableTiles (ids : list nat) : list Tile :=
  omap (λ i, fst initTiles !! i) ids.

(** A session in which "a" was dealt the letters of もうしあわせる; the
    pool holds the tiles of the table that were not dealt. *)
Definition fullRack : list Tile := tableTiles [85; 5; 14; 61; 93; 73; 55]%nat.

Definition fullRackGame : Game :=
  let rackB := tableTiles [7; 8; 9; 10; 11; 12; 13]%nat in
  let dealt := map t_id (fullRack ++ rackB) in
  setTileBag (mkBag (filter (λ t, t_id t ∉ dealt) (fst initTiles)) 112 111)
    (setPlayers [mkPlayer "a" "A" 0 fullRack true; mkPlayer "b" "B" 0 rackB true] started).

Definition fullRackPlay : list TilePlacement :=
  [ mkPlacement 7 4 85 None; mkPlacement 7 5 5 None; mkPlacement 7 6 14 None;
    mkPlacement 7 7 61 None; mkPlacement 7 8 93 None; mkPlacement 7 9 73 None;
    mkPlacement 7 10 55 None ].

(** A session dealt from a bag with a blank in front, after three
    passes: "a" holds the blank and six い, the next pass is the fourth
    and ends the game. *)
Definition beforeLastPass : Game :=
  runEvents someWords blankFirst
    [Join "a" "A"; Join "b" "B"; StartGame;
     Submit "a" PASS; Submit "b" PASS; Submit "a" PASS]
    (newGame blankFirst 0).

(** A room with the two players, the game started. *)
Definition runRoom {A} (m : M Room A) (r : Room) : Room := snd (m r).

Definition startedRoom : Room :=
  runRoom (onGame start)
    (runRoom (roomAddPlayer "b" "B" 2) (runRoom (roomAddPlayer "a" "A" 1) (newRoom lastIndex 0))).

(** * Properties *)

(** ** Running the monad *)

Ltac runM :=
  unfold bind, ret, throw, get, put, modify, liftR, when in *; cbn beta iota in *.

Lemma bind_ok {St A B} (m : M St A) (k : A → M St B) s a s' :
  m s = (Ok a, s') → bind m k s = k a s'.
Proof. intros H. unfold bind. by rewrite H. Qed.

Lemma bind_throw {St A B} (m : M St A) (k : A → M St B) s e s' :
  m s = (Throw e, s') → bind m k s = (Throw e, s').
Proof. intros H. unfold bind. by rewrite H. Qed.

(** ** The tile bag *)

Section BagFacts.
Variable random : nat → nat → nat.

Lemma swap_perm l i j : swap l i j ≡ₚ l.
Proof.
  unfold swap.
  destruct (l !! i) as [ti|] eqn:Hi; [|done].
  destruct (l !! j) as [tj|] eqn:Hj; [|done].
  by apply Permutation_insert_swap.
Qed.

Lemma shuffleLoop_perm i k l : fst (shuffleLoop random i k l) ≡ₚ l.
Proof.
  revert k l. induction i as [|i IH]; intros k l; [done|].
  cbn [shuffleLoop]. rewrite IH. apply swap_perm.
Qed.

Lemma shuffle_perm b : bag_tiles (shuffle random b) ≡ₚ bag_tiles b.
Proof.
  unfold shuffle.
  pose proof (shuffleLoop_perm (length (bag_tiles b) - 1) (bag_calls b) (bag_tiles b)) as H.
  destruct (shuffleLoop random _ _ _) as [l k]. exact H.
Qed.

Lemma shuffle_nextId b : bag_nextId (shuffle random b) = bag_nextId b.
Proof. unfold shuffle. by destruct (shuffleLoop random _ _ _). Qed.

Lemma shuffle_length b : length (bag_tiles (shuffle random b)) = length (bag_tiles b).
Proof. apply Permutation_length, shuffle_perm. Qed.

Lemma draw_length count b :
  length (fst (draw count b)) = Nat.min count (length (bag_tiles b)).
Proof. unfold draw. cbn. rewrite length_take. lia. Qed.

Lemma draw_split count b :
  fst (draw count b) ++ bag_tiles (snd (draw count b)) = bag_tiles b.
Proof. unfold draw. cbn. apply take_drop. Qed.

Lemma initTiles_ids : map t_id (fst initTiles) = seqZ 0 112.
Proof. vm_compute. reflexivity. Qed.

End BagFacts.

Lemma filter_ext_elem {A} (P Q : A → Prop) `{!∀ x, Decision (P x)} `{!∀ x, Decision (Q x)}
    (l : list A) :
  (∀ x, x ∈ l → P x ↔ Q x) → filter P l = filter Q l.
Proof.
  induction l as [|x l IH]; intros Hext; [done|].
  rewrite !filter_cons.
  rewrite IH by (intros y Hy; apply Hext; by right).
  destruct (decide (P x)) as [HP|HP], (decide (Q x)) as [HQ|HQ]; try done.
  - apply Hext in HP; [done | by left].
  - apply Hext in HQ; [done | by left].
Qed.

Lemma initTiles_count : length (fst initTiles) = 112%nat.
Proof. vm_compute. reflexivity. Qed.

Lemma initTiles_nextId : snd initTiles = 112.
Proof. vm_compute. reflexivity. Qed.

Lemma table_count : sum_list (map d_count TILE_DEFINITIONS) = 112%nat.
Proof. vm_compute. reflexivity. Qed.

Lemma initTiles_blanks :
  length (filter (λ t, t_isBlank t = true) (fst initTiles)) = 2%nat.
Proof. vm_compute. reflexivity. Qed.

Lemma initTiles_blank_worthless :
  forallb (λ t, Bool.eqb (t_isBlank t) (bool_decide (t_points t = 0))) (fst initTiles) = true.
Proof. vm_compute. reflexivity. Qed.

Lemma initTiles_NoDup : NoDup (map t_id (fst initTiles)).
Proof. rewrite initTiles_ids. apply NoDup_seqZ. Qed.

Lemma NoDup_ids_perm (l l' : list Tile) :
  l ≡ₚ l' → NoDup (map t_id l') → NoDup (map t_id l).
Proof. intros Hp. by rewrite (fmap_Permutation t_id _ _ Hp : map t_id l ≡ₚ map t_id l'). Qed.

(** C10: a freshly constructed tile bag holds exactly 112 tiles, the sum
    of the counts of the frequency table; before the shuffle their ids
    are 0, 1, ..., 111 in this order, hence pairwise distinct; the
    shuffle only permutes them; exactly two of the tiles are blanks, and
    these are the only tiles worth zero points. *)
Theorem fresh_bag_contents (random : nat → nat → nat) (calls : nat) :
  let unshuffled := fst initTiles in
  let bag := init random calls in
  length (bag_tiles bag) = 112%nat
  ∧ length (bag_tiles bag) = sum_list (map d_count TILE_DEFINITIONS)
  ∧ map t_id unshuffled = seqZ 0 112
  ∧ bag_nextId bag = 112
  ∧ bag_tiles bag ≡ₚ unshuffled
  ∧ NoDup (map t_id (bag_tiles bag))
  ∧ length (filter (λ t, t_isBlank t = true) (bag_tiles bag)) = 2%nat
  ∧ length (filter (λ t, t_points t = 0) (bag_tiles bag)) = 2%nat
  ∧ filter (λ t, t_isBlank t = true) (bag_tiles bag)
    = filter (λ t, t_points t = 0) (bag_tiles bag).
Proof.
  intros unshuffled bag.
  assert (Hperm : bag_tiles bag ≡ₚ unshuffled) by apply shuffle_perm.
  assert (Hlen : length (bag_tiles bag) = 112%nat).
  { rewrite <- initTiles_count. by apply Permutation_length. }
  assert (Hsame : ∀ l : list Tile, l ⊆ unshuffled →
            filter (λ t, t_isBlank t = true) l = filter (λ t, t_points t = 0) l).
  { intros l Hl. apply filter_ext_elem. intros t Ht%Hl.
    pose proof initTiles_blank_worthless as Hb.
    rewrite forallb_forall in Hb. apply list_elem_of_In, Hb in Ht.
    apply Bool.eqb_prop in Ht. rewrite Ht. apply bool_decide_eq_true. }
  assert (Hblanks : length (filter (λ t, t_isBlank t = true) (bag_tiles bag)) = 2%nat).
  { rewrite <- initTiles_blanks. apply Permutation_length. by apply filter_Permutation. }
  assert (Hsub : bag_tiles bag ⊆ unshuffled).
  { intros t Ht. by rewrite <- Hperm. }
  split_and!.
  - exact Hlen.
  - rewrite Hlen. symmetry. apply table_count.
  - apply initTiles_ids.
  - unfold bag, init. rewrite shuffle_nextId. apply initTiles_nextId.
  - exact Hperm.
  - exact (NoDup_ids_perm _ _ Hperm initTiles_NoDup).
  - exact Hblanks.
  - rewrite <- (Hsame _ Hsub). exact Hblanks.
  - by apply Hsame.
Qed.

(** C8, as amended: [drawToFill] returns the tiles at the front of the
    pool, as many as the rack lacks or as the pool still holds,
    whichever is less, and removes them from the pool. *)
Theorem drawToFill_count (b : TileBag) (currentCount : nat) :
  let drawn := fst (drawToFill currentCount b) in
  let rest := snd (drawToFill currentCount b) in
  Z.of_nat (length drawn)
  = Z.min (Z.of_nat (length (bag_tiles b))) (Z.max 0 (RACK_SIZE - Z.of_nat currentCount))
  ∧ drawn ++ bag_tiles rest = bag_tiles b.
Proof.
  unfold drawToFill, RACK_SIZE.
  destruct (7 - Z.of_nat currentCount <=? 0) eqn:Hneeded; cbn -[Z.sub].
  - apply Z.leb_le in Hneeded. split; try done; lia.
  - apply Z.leb_gt in Hneeded. rewrite length_take, take_drop. split; try done; lia.
Qed.

(** C8, the claim as stated fails: with three tiles left in the pool a
    rack of two tiles receives three tiles, not five. *)
Lemma drawToFill_short_pool :
  let bag := mkBag (tableTiles [100; 101; 102]%nat) 112 0 in
  length (bag_tiles bag) = 3%nat
  ∧ Z.of_nat (length (fst (drawToFill 2 bag))) = 3
  ∧ Z.of_nat (length (fst (drawToFill 2 bag))) ≠ Z.max 0 (RACK_SIZE - 2).
Proof. vm_compute. split_and!; congruence. Qed.

(** ** Starting a game *)

Lemma take_min_length {A} (n : nat) (l : list A) : take (n `min` length l) l = take n l.
Proof.
  destruct (decide (n ≤ length l)%nat) as [H|H].
  - by rewrite Nat.min_l.
  - rewrite Nat.min_r by lia. rewrite !take_ge by lia. done.
Qed.

Lemma drop_min_length {A} (n : nat) (l : list A) : drop (n `min` length l) l = drop n l.
Proof.
  destruct (decide (n ≤ length l)%nat) as [H|H].
  - by rewrite Nat.min_l.
  - rewrite Nat.min_r by lia. rewrite !drop_ge by lia. done.
Qed.

Lemma dealRacks_eq (ps done : list Player) (b : TileBag) :
  foldl (λ '(done, bag) player,
           let '(drawn, bag') := draw (Z.to_nat RACK_SIZE) bag in
           (done ++ [setRack drawn player], bag'))
        (done, b) ps
  = (done ++ dealtFrom (bag_tiles b) ps,
     mkBag (drop (7 * length ps) (bag_tiles b)) (bag_nextId b) (bag_calls b)).
Proof.
  revert done b. induction ps as [|p ps IH]; intros done b.
  - cbn. rewrite app_nil_r, drop_0. by destruct b.
  - cbn [foldl]. unfold draw at 2. cbn [fst snd].
    rewrite IH. cbn [bag_tiles bag_nextId bag_calls dealtFrom length].
    change (Z.to_nat RACK_SIZE) with 7%nat.
    rewrite <- app_assoc. cbn [app].
    rewrite take_min_length, drop_min_length, drop_drop.
    do 3 f_equal. lia.
Qed.

Lemma dealtFrom_lookup (tiles : list Tile) (ps : list Player) (i : nat) :
  dealtFrom tiles ps !! i
  = (λ p, setRack (take 7 (drop (7 * i) tiles)) p) <$> ps !! i.
Proof.
  revert tiles i. induction ps as [|p ps IH]; intros tiles i; [done|].
  destruct i as [|i]; cbn.
  - done.
  - rewrite IH, drop_drop. do 4 f_equal. lia.
Qed.

Lemma dealtFrom_length (tiles : list Tile) (ps : list Player) :
  length (dealtFrom tiles ps) = length ps.
Proof. revert tiles. induction ps as [|p ps IH]; intros tiles; cbn; [done|]. by rewrite IH. Qed.

(** ** Methods of [Game] that never throw *)

Lemma startTurnTimer_eq (g : Game) :
  startTurnTimer g = (Ok tt, setTurnTimer (bool_decide (g_phase g = playing)) g).
Proof.
  unfold startTurnTimer, clearTurnTimer. runM. cbn.
  by destruct (bool_decide (g_phase g = playing)).
Qed.

Lemma endGame_eq (g : Game) :
  endGame g
  = (Ok tt,
     setPlayers (map (λ player, setScore (pl_score player - rackPoints (pl_rack player)) player)
                     (g_players g))
       (setTurnTimer false (setPhase finished g))).
Proof. reflexivity. Qed.

Lemma checkGameEnd_cases (g : Game) :
  checkGameEnd g = (Ok tt, g) ∨ checkGameEnd g = endGame g.
Proof.
  unfold checkGameEnd. runM.
  destruct (g_consecutivePasses g >=? _); [by right|].
  destruct (find _ _); [|by left].
  destruct (isEmpty _); [by right | by left].
Qed.

Lemma advanceTurn_eq (g : Game) :
  advanceTurn g
  = (Ok tt,
     if bool_decide (g_phase g = playing)
     then setTurnTimer true
            (setCurrentPlayerIndex
               ((g_currentPlayerIndex g + 1) `mod` length (g_players g))%nat g)
     else g).
Proof.
  unfold advanceTurn. runM.
  destruct (bool_decide (g_phase g = playing)) eqn:Hp; cbn [negb]; [|done].
  rewrite startTurnTimer_eq. cbn. by rewrite Hp.
Qed.

(** C9: [start] throws exactly when the session has fewer than two
    participants, and then changes nothing.  It looks at no other field:
    with two or more participants it succeeds in every phase, the phase
    becomes [playing], and every participant's rack is replaced by the
    next seven tiles of the pool (fewer when the pool runs out),
    whatever the rack held before. *)
Theorem start_needs_two_players_only (g : Game) :
  (isThrow (fst (start g)) = true ↔ (length (g_players g) < 2)%nat)
  ∧ ((length (g_players g) < 2)%nat → start g = (Throw ErrNeedTwoPlayers, g))
  ∧ ((2 ≤ length (g_players g))%nat →
       ∃ g', start g = (Ok tt, g')
         ∧ g_phase g' = playing
         ∧ length (g_players g') = length (g_players g)
         ∧ (∀ i p, g_players g !! i = Some p →
              g_players g' !! i
              = Some (setRack (take 7 (drop (7 * i) (bag_tiles (g_tileBag g)))) p))
         ∧ bag_tiles (g_tileBag g')
           = drop (7 * length (g_players g)) (bag_tiles (g_tileBag g))
         ∧ g_board g' = g_board g).
Proof.
  unfold start. runM.
  destruct (length (g_players g) <? 2)%nat eqn:Hn.
  - apply Nat.ltb_lt in Hn. split_and!; [done | done | lia].
  - apply Nat.ltb_ge in Hn. split_and!.
    + rewrite startTurnTimer_eq. cbn. split; [done | lia].
    + lia.
    + intros _. rewrite startTurnTimer_eq. unfold dealRacks. cbn [g_players g_tileBag setPhase].
      rewrite (dealRacks_eq (g_players g) [] (g_tileBag g)). cbn [app].
      eexists. split; [reflexivity|]. cbn.
      split_and!; try done.
      * apply dealtFrom_length.
      * intros i p Hp. by rewrite dealtFrom_lookup, Hp.
Qed.

(** C9, at a session that is already in the playing phase. *)
Lemma start_again_succeeds :
  ∃ g', start started = (Ok tt, g')
    ∧ g_phase g' = playing
    ∧ length (g_players g') = length (g_players started)
    ∧ (∀ i p, g_players started !! i = Some p →
         g_players g' !! i
         = Some (setRack (take 7 (drop (7 * i) (bag_tiles (g_tileBag started)))) p))
    ∧ bag_tiles (g_tileBag g')
      = drop (7 * length (g_players started)) (bag_tiles (g_tileBag started))
    ∧ g_board g' = g_board started.
Proof.
  apply (proj2 (proj2 (start_needs_two_players_only started))).
  vm_compute. lia.
Defined.

(** ** Exchanging tiles *)

Lemma assertTurn_cases (playerId : string) (g : Game) :
  (assertTurn playerId g = (Ok tt, g)
   ∧ g_phase g = playing ∧ currentPlayerId g = playerId)
  ∨ (∃ e, assertTurn playerId g = (Throw e, g)).
Proof.
  unfold assertTurn. runM.
  destruct (bool_decide (g_phase g = playing)) eqn:Hp; cbn [negb]; [|right; by eexists].
  destruct (bool_decide (currentPlayerId g = playerId)) eqn:Hc; cbn [negb]; [|right; by eexists].
  left. apply bool_decide_eq_true in Hp, Hc. done.
Qed.

(** C4, as amended: a successful exchange sets the consecutive-pass
    counter to zero, appends a turn record of the acting participant
    with action exchange and score zero, and moves the turn to the next
    participant in order. *)
Theorem exchange_resets_pass_counter (random : nat → nat → nat) (g g' : Game)
    (playerId : string) (tileIds : list Z) :
  exchangeTiles random playerId tileIds g = (Ok tt, g') →
  ∃ player,
    g_players g !! g_currentPlayerIndex g = Some player
    ∧ pl_id player = playerId
    ∧ g_consecutivePasses g' = 0
    ∧ g_turnHistory g'
      = g_turnHistory g ++ [mkTurn playerId (pl_name player) actExchange None 0]
    ∧ g_currentPlayerIndex g'
      = ((g_currentPlayerIndex g + 1) `mod` length (g_players g))%nat.
Proof.
  unfold exchangeTiles. intros H.
  destruct (assertTurn_cases playerId g) as [(Ha & Hphase & Hcur)|[e Ha]];
    [|by rewrite (bind_throw _ _ _ _ _ Ha) in H].
  rewrite (bind_ok _ _ _ _ _ Ha) in H. runM.
  destruct (bool_decide (length tileIds = 0%nat)); [done|].
  destruct (remaining (g_tileBag g) <? length tileIds)%nat; [done|].
  destruct (g_players g !! g_currentPlayerIndex g) as [player|] eqn:Hplayer; [|done].
  destruct (findTiles (pl_rack player) tileIds []) as [tiles|]; [|done].
  destruct (exchange random tiles (g_tileBag g)) as [[newTiles|] bag]; [|done].
  rewrite advanceTurn_eq in H. cbn in H. rewrite Hphase in H. cbn in H.
  injection H as <-. cbn.
  exists player. split_and!; try done.
  - unfold currentPlayerId in Hcur. by rewrite Hplayer in Hcur.
  - unfold currentPlayerId in Hcur. rewrite Hplayer in Hcur. by rewrite Hcur.
  - by rewrite length_insert.
Qed.

(** C4, the claim as stated fails: after "a" has passed the counter is
    1, and the exchange of tile 7 by "b" succeeds and leaves it at 0. *)
Lemma exchange_after_pass_counter :
  g_consecutivePasses afterPass = 1
  ∧ ∃ g', exchangeTiles lastIndex "b" [7] afterPass = (Ok tt, g')
          ∧ g_consecutivePasses g' = 0
          ∧ g_consecutivePasses g' ≠ g_consecutivePasses afterPass.
Proof.
  split; [by vm_compute|].
  eexists. split; [vm_compute; reflexivity|]. by vm_compute.
Qed.

(** C4, at the exchange of tile 7 by "b" after the pass of "a". *)
Lemma exchange_resets_pass_counter_witness :
  ∃ player,
    g_players afterPass !! g_currentPlayerIndex afterPass = Some player
    ∧ pl_id player = "b"
    ∧ g_consecutivePasses (runGame (exchangeTiles lastIndex "b" [7]) afterPass) = 0
    ∧ g_turnHistory (runGame (exchangeTiles lastIndex "b" [7]) afterPass)
      = g_turnHistory afterPass ++ [mkTurn "b" (pl_name player) actExchange None 0]
    ∧ g_currentPlayerIndex (runGame (exchangeTiles lastIndex "b" [7]) afterPass)
      = ((g_currentPlayerIndex afterPass + 1) `mod` length (g_players afterPass))%nat.
Proof.
  apply (exchange_resets_pass_counter lastIndex afterPass _ "b" [7]).
  vm_compute. reflexivity.
Defined.

(** ** Failed intents *)

Lemma checkGameEnd_ok (g : Game) : ∃ g', checkGameEnd g = (Ok tt, g').
Proof.
  destruct (checkGameEnd_cases g) as [H|H]; rewrite H; [by eexists|].
  rewrite endGame_eq. by eexists.
Qed.

Lemma playTiles_throw (isValid : string → bool) (g g' : Game) (playerId : string)
    (placements : list TilePlacement) (e : Error) :
  playTiles isValid playerId placements g = (Throw e, g') → g' = g.
Proof.
  unfold playTiles. intros H.
  destruct (assertTurn_cases playerId g) as [(Ha & Hphase & Hcur)|[e' Ha]].
  2:{ rewrite (bind_throw _ _ _ _ _ Ha) in H. congruence. }
  rewrite (bind_ok _ _ _ _ _ Ha) in H. runM.
  destruct (g_players g !! g_currentPlayerIndex g) as [player|]; [|congruence].
  destruct (validate isValid _ _ _ _) as [wordsFound|]; [|congruence].
  destruct (scoreWords _ _) as [wordsTotal wordResults].
  destruct (drawToFill _ _) as [drawn bag].
  rewrite advanceTurn_eq in H.
  match type of H with
  | context [checkGameEnd ?s] => destruct (checkGameEnd_ok s) as [g2 Hend]; rewrite Hend in H
  end.
  discriminate.
Qed.

Lemma exchange_throw (random : nat → nat → nat) (tiles : list Tile) (b b' : TileBag) (e : Error) :
  exchange random tiles b = (Throw e, b') → b' = b.
Proof.
  unfold exchange. destruct (_ <? _)%nat; [congruence|].
  destruct (draw _ _). discriminate.
Qed.

Lemma exchangeTiles_throw (random : nat → nat → nat) (g g' : Game) (playerId : string)
    (tileIds : list Z) (e : Error) :
  exchangeTiles random playerId tileIds g = (Throw e, g') → g' = g.
Proof.
  unfold exchangeTiles. intros H.
  destruct (assertTurn_cases playerId g) as [(Ha & Hphase & Hcur)|[e' Ha]].
  2:{ rewrite (bind_throw _ _ _ _ _ Ha) in H. congruence. }
  rewrite (bind_ok _ _ _ _ _ Ha) in H. runM.
  destruct (bool_decide (length tileIds = 0%nat)); [congruence|].
  destruct (remaining (g_tileBag g) <? length tileIds)%nat; [congruence|].
  destruct (g_players g !! g_currentPlayerIndex g) as [player|]; [|congruence].
  destruct (findTiles (pl_rack player) tileIds []) as [tiles|]; [|congruence].
  destruct (exchange random tiles (g_tileBag g)) as [[newTiles|e'] bag] eqn:Hex.
  - rewrite advanceTurn_eq in H. discriminate.
  - apply exchange_throw in Hex as ->. injection H as _ <-. by destruct g.
Qed.

Lemma pass_throw (g g' : Game) (playerId : string) (e : Error) :
  pass playerId g = (Throw e, g') →
  g' = g ∨ g' = setConsecutivePasses (g_consecutivePasses g + 1) g.
Proof.
  unfold pass, forcePass. intros H.
  destruct (assertTurn_cases playerId g) as [(Ha & Hphase & Hcur)|[e' Ha]].
  2:{ rewrite (bind_throw _ _ _ _ _ Ha) in H. left. congruence. }
  rewrite (bind_ok _ _ _ _ _ Ha) in H. runM.
  destruct (g_players g !! g_currentPlayerIndex g) as [player|].
  - rewrite advanceTurn_eq in H.
    match type of H with
    | context [checkGameEnd ?s] => destruct (checkGameEnd_ok s) as [g2 Hend]; rewrite Hend in H
    end.
    discriminate.
  - right. congruence.
Qed.

(** C1: when a play, an exchange or a pass fails with an error, the
    board, every participant's rack, the pool and every participant's
    score are what they were before the attempt. *)
Theorem failed_intent_changes_nothing (isValid : string → bool)
    (random : nat → nat → nat) (g g' : Game) (playerId : string) (msg : Intent)
    (e : Error) :
  submit isValid random playerId msg g = (Throw e, g') →
  g_board g' = g_board g
  ∧ map pl_rack (g_players g') = map pl_rack (g_players g)
  ∧ g_tileBag g' = g_tileBag g
  ∧ map pl_score (g_players g') = map pl_score (g_players g).
Proof.
  destruct msg as [placements|tileIds|]; cbn [submit]; intros H.
  - unfold bind in H.
    destruct (playTiles isValid playerId placements g) as [[r|e'] g1] eqn:Hplay;
      [discriminate|].
    injection H as _ <-. by apply playTiles_throw in Hplay as ->.
  - by apply exchangeTiles_throw in H as ->.
  - by apply pass_throw in H as [->| ->].
Qed.

(** C1, at a play of two tiles that "a" does not hold. *)
Lemma failed_intent_changes_nothing_witness :
  let msg := PLAY_TILES [mkPlacement 7 7 50 None; mkPlacement 7 8 51 None] in
  let g' := runGame (submit someWords lastIndex "a" msg) started in
  g_board g' = g_board started
  ∧ map pl_rack (g_players g') = map pl_rack (g_players started)
  ∧ g_tileBag g' = g_tileBag started
  ∧ map pl_score (g_players g') = map pl_score (g_players started).
Proof.
  intros msg g'.
  apply (failed_intent_changes_nothing someWords lastIndex started g' "a" msg ErrNotInRack).
  vm_compute. reflexivity.
Defined.

(** ** The loops of [getWordAt] terminate within their fuel

    Along the axis of the walk the coordinate of a cell of the grid is
    between 0 and [BOARD_SIZE - 1]; the first loop lowers it and stops
    at 0, the second raises it and stops at [BOARD_SIZE].  Additional
    iterations therefore change nothing. *)

Lemma wordStart_stable (board : Board) (dr dc : Z) (fuel extra : nat) (r c : Z) :
  (dr, dc) = (0, 1) ∨ (dr, dc) = (1, 0) →
  0 ≤ r → 0 ≤ c → r * dr + c * dc < Z.of_nat fuel →
  wordStart (fuel + extra) board dr dc r c = wordStart fuel board dr dc r c.
Proof.
  intros Hstep. revert r c. induction fuel as [|fuel IH]; intros r c Hr Hc Hm.
  - destruct Hstep as [[= -> ->]|[= -> ->]]; lia.
  - cbn [Nat.add wordStart].
    destruct ((r - dr >=? 0) && (c - dc >=? 0) && occupied board (r - dr) (c - dc)) eqn:Hcond;
      [|done].
    apply andb_prop in Hcond as [[Hr'%Z.geb_le Hc'%Z.geb_le]%andb_prop _].
    apply IH; [lia | lia |].
    destruct Hstep as [[= -> ->]|[= -> ->]]; lia.
Qed.

Lemma wordStart_nonneg (board : Board) (dr dc : Z) (fuel : nat) (r c : Z) :
  0 ≤ r → 0 ≤ c →
  0 ≤ fst (wordStart fuel board dr dc r c) ∧ 0 ≤ snd (wordStart fuel board dr dc r c).
Proof.
  revert r c. induction fuel as [|fuel IH]; intros r c Hr Hc; cbn [wordStart]; [done|].
  destruct ((r - dr >=? 0) && (c - dc >=? 0) && occupied board (r - dr) (c - dc)) eqn:Hcond;
    [|done].
  apply andb_prop in Hcond as [[Hr'%Z.geb_le Hc'%Z.geb_le]%andb_prop _].
  apply IH; lia.
Qed.

Lemma collectRun_stable (board : Board) (cells : gset (Z * Z)) (dr dc : Z)
    (fuel extra : nat) (r c : Z) (word : string) (tiles : list WordTile) :
  (dr, dc) = (0, 1) ∨ (dr, dc) = (1, 0) →
  0 ≤ r → 0 ≤ c → BOARD_SIZE - (r * dr + c * dc) ≤ Z.of_nat fuel →
  collectRun (fuel + extra) board cells dr dc r c word tiles
  = collectRun fuel board cells dr dc r c word tiles.
Proof.
  intros Hstep. revert r c word tiles.
  induction fuel as [|fuel IH]; intros r c word tiles Hr Hc Hm.
  - cbn [Nat.add collectRun]. destruct extra as [|extra]; [done|]. cbn [collectRun].
    destruct ((r <? BOARD_SIZE) && (c <? BOARD_SIZE)) eqn:Hcond; [|done].
    apply andb_prop in Hcond as [Hr'%Z.ltb_lt Hc'%Z.ltb_lt].
    destruct Hstep as [[= -> ->]|[= -> ->]]; lia.
  - cbn [Nat.add collectRun].
    destruct ((r <? BOARD_SIZE) && (c <? BOARD_SIZE)) eqn:Hcond; [|done].
    destruct (cellAt board r c) as [tile|]; [|done].
    apply IH; destruct Hstep as [[= -> ->]|[= -> ->]]; lia.
Qed.

Lemma stepOf_axis (direction : Direction) :
  stepOf direction = (0, 1) ∨ stepOf direction = (1, 0).
Proof. destruct direction; [by left | by right]. Qed.

(** From a cell of the grid, [loopFuel] iterations let both loops run
    to their exit. *)
Lemma wordStart_exits (board : Board) (direction : Direction) (extra : nat) (row col : Z) :
  inBounds row col = true →
  wordStart (loopFuel + extra) board (fst (stepOf direction)) (snd (stepOf direction)) row col
  = wordStart loopFuel board (fst (stepOf direction)) (snd (stepOf direction)) row col.
Proof.
  unfold inBounds, BOARD_SIZE. intros Hin.
  apply negb_true_iff, orb_false_iff in Hin as [[[Hr1 Hr2]%orb_false_iff Hc1]%orb_false_iff Hc2].
  apply Z.ltb_ge in Hr1, Hc1. rewrite Z.geb_leb in Hr2, Hc2. apply Z.leb_gt in Hr2, Hc2.
  apply wordStart_stable; [| lia | lia |].
  - destruct (stepOf_axis direction) as [->| ->]; [by left | by right].
  - unfold loopFuel, BOARD_SIZE. destruct (stepOf_axis direction) as [->| ->]; cbn [fst snd]; lia.
Qed.

Lemma collectRun_exits (board : Board) (cells : gset (Z * Z)) (direction : Direction)
    (extra : nat) (r c : Z) (word : string) (tiles : list WordTile) :
  0 ≤ r → 0 ≤ c →
  collectRun (loopFuel + extra) board cells (fst (stepOf direction)) (snd (stepOf direction))
    r c word tiles
  = collectRun loopFuel board cells (fst (stepOf direction)) (snd (stepOf direction))
      r c word tiles.
Proof.
  intros Hr Hc. apply collectRun_stable; [| done | done |].
  - destruct (stepOf_axis direction) as [->| ->]; [by left | by right].
  - unfold loopFuel. destruct (stepOf_axis direction) as [->| ->]; cbn [fst snd]; lia.
Qed.

(** ** A lone tile *)

Lemma collectPlaced_length (board : Board) (rackTiles : gmap Z Tile)
    (placements : list TilePlacement) (acc placedTiles : list PlacedTile) :
  collectPlaced board rackTiles placements acc = Ok placedTiles →
  length placedTiles = (length acc + length placements)%nat.
Proof.
  revert acc. induction placements as [|p rest IH]; intros acc; cbn [collectPlaced].
  - intros [= <-]. cbn. lia.
  - destruct (rackTiles !! p_tileId p) as [tile|]; [|done].
    destruct (negb (inBounds _ _)); [done|].
    destruct (occupied _ _ _); [done|].
    destruct (t_isBlank tile).
    + destruct (negb (truthy _)); [done|].
      intros H%IH. rewrite length_app in H. cbn in *. lia.
    + intros H%IH. rewrite length_app in H. cbn in *. lia.
Qed.

(** C5, as amended: on the first move [validate] rejects every
    placement set that consists of exactly one tile, for every board,
    rack and word list. *)
Theorem lone_tile_rejected_on_first_move (isValid : string → bool) (board : Board)
    (p : TilePlacement) (rackTiles : gmap Z Tile) :
  isThrow (validate isValid board [p] rackTiles true) = true.
Proof.
  unfold validate. cbn [length].
  rewrite bool_decide_eq_false_2 by done.
  destruct (collectPlaced board rackTiles [p] []) as [placedTiles|] eqn:Hplaced; [|done].
  apply collectPlaced_length in Hplaced. cbn in Hplaced.
  destruct placedTiles as [|pt [|? ?]]; try done.
  cbn [rbind].
  destruct (negb _ && negb _); [done|].
  destruct (negb (gapFree _ _ _)); [done|].
  destruct (negb (touchesCenter [pt])); [done|].
  done.
Qed.

(** C5, the claim as stated fails: with いう on the board and the first
    move made, the lone tile か placed under い is accepted and forms
    the word いか. *)
Lemma lone_tile_accepted_later :
  ∃ words,
    validate someWords boardIU [mkPlacement 8 7 10 None] (rackMapOf [tileKa]) false = Ok words
    ∧ map w_word words = ["いか"]
    ∧ isThrow (validate someWords boardIU [mkPlacement 8 7 10 None] (rackMapOf [tileKa]) false)
      = false.
Proof. eexists. split_and!; by vm_compute. Qed.

(** ** Cells of the board *)

Lemma inBounds_range (r c : Z) :
  inBounds r c = true ↔ 0 ≤ r < BOARD_SIZE ∧ 0 ≤ c < BOARD_SIZE.
Proof.
  unfold inBounds. rewrite negb_true_iff, !orb_false_iff, !Z.ltb_ge, !Z.geb_leb, !Z.leb_gt. lia.
Qed.

Lemma cellAt_setCell_ne (board : Board) (r c r' c' : Z) (t : Tile) :
  0 ≤ r → 0 ≤ c → (r, c) ≠ (r', c') →
  cellAt (setCell board r c t) r' c' = cellAt board r' c'.
Proof.
  intros Hr Hc Hne. unfold cellAt, setCell.
  destruct ((r' <? 0) || (c' <? 0)) eqn:Hneg; [done|].
  apply orb_false_iff in Hneg as [Hr'%Z.ltb_ge Hc'%Z.ltb_ge].
  destruct (decide (Z.to_nat r = Z.to_nat r')) as [Heq|Hrow].
  - rewrite <- Heq, list_lookup_alter_eq.
    destruct (board !! Z.to_nat r) as [line|]; [|done]. cbn.
    rewrite list_lookup_insert_ne; [done|].
    intros Hcol. apply Hne. f_equal; lia.
  - by rewrite list_lookup_alter_ne.
Qed.

(** ** Scoring a play *)

Lemma scoreTile_spec (layout : list (list BonusType)) (tiles : list WordTile) (ws wm : Z) :
  foldl (scoreTile layout) (ws, wm) tiles
  = (ws + sumZ (map (specLetterScore layout) tiles),
     wm * prodZ (map (specWordMultiplier layout) tiles)).
Proof.
  revert ws wm. induction tiles as [|wt tiles IH]; intros ws wm; cbn [foldl map sumZ prodZ foldr].
  - f_equal; lia.
  - unfold scoreTile at 2, specLetterScore at 1, specWordMultiplier at 1, cellBonus.
    destruct (wt_isNew wt); [destruct (bonusAt _ _ _)|];
      rewrite IH; cbn [letterMultiplier wordMultiplier];
      fold (sumZ (map (specLetterScore layout) tiles));
      fold (prodZ (map (specWordMultiplier layout) tiles)); f_equal; lia.
Qed.

Lemma scoreWord_spec (layout : list (list BonusType)) (wf : WordFound) :
  scoreWord layout wf = specWordScore layout wf.
Proof.
  unfold scoreWord, specWordScore. rewrite scoreTile_spec.
  f_equal; lia.
Qed.

Lemma scoreWords_spec (layout : list (list BonusType)) (wordsFound : list WordFound) :
  scoreWords layout wordsFound
  = (sumZ (map (specWordScore layout) wordsFound),
     map (λ wf, (w_word wf, specWordScore layout wf)) wordsFound).
Proof.
  unfold scoreWords.
  enough (H : ∀ total results,
             foldl (λ '(totalScore, wordResults) wf,
                      let wordScore := scoreWord layout wf in
                      (totalScore + wordScore, wordResults ++ [(w_word wf, wordScore)]))
                   (total, results) wordsFound
             = (total + sumZ (map (specWordScore layout) wordsFound),
                results ++ map (λ wf, (w_word wf, specWordScore layout wf)) wordsFound))
    by (rewrite H; f_equal).
  induction wordsFound as [|wf rest IH]; intros total results; cbn [foldl map sumZ foldr].
  - rewrite app_nil_r. f_equal. lia.
  - rewrite IH, scoreWord_spec, <- app_assoc. cbn [app].
    fold (sumZ (map (specWordScore layout) rest)). f_equal. lia.
Qed.

Lemma collectRun_tiles (fuel : nat) (board : Board) (cells : gset (Z * Z))
    (dr dc r c : Z) (word : string) (tiles : list WordTile) :
  Forall (wordTileOf board cells) tiles →
  Forall (wordTileOf board cells) (snd (collectRun fuel board cells dr dc r c word tiles)).
Proof.
  revert r c word tiles. induction fuel as [|fuel IH]; intros r c word tiles Htiles;
    cbn [collectRun]; [done|].
  destruct ((r <? BOARD_SIZE) && (c <? BOARD_SIZE)); [|done].
  destruct (cellAt board r c) as [tile|] eqn:Hcell; [|done].
  apply IH. apply Forall_app. split; [done|].
  by apply Forall_singleton.
Qed.

Lemma getWordAt_tiles (board : Board) (row col : Z) (direction : Direction)
    (cells : gset (Z * Z)) (w : WordFound) :
  getWordAt board row col direction cells = Some w →
  Forall (wordTileOf board cells) (w_tiles w).
Proof.
  unfold getWordAt. destruct (stepOf direction) as [dr dc].
  destruct (wordStart _ _ _ _ _ _) as [r c].
  pose proof (collectRun_tiles loopFuel board cells dr dc r c "" [] (Forall_nil_2 _)) as H.
  destruct (collectRun _ _ _ _ _ _ _ _ _) as [word tiles].
  destruct (length tiles <? 2)%nat; [done|].
  by intros [= <-].
Qed.

Lemma noteWord_tiles (P : WordFound → Prop) (direction : Direction)
    (found : option WordFound) (acc : list WordFound * gset (Direction * (Z * Z))) :
  (∀ w, found = Some w → P w) →
  Forall P (fst acc) →
  Forall P (fst (noteWord direction found acc)).
Proof.
  intros Hfound Hacc. unfold noteWord. destruct acc as [words checked].
  destruct found as [w|]; [|done].
  destruct (2 <=? length (w_tiles w))%nat; [|done].
  destruct (w_tiles w) as [|first ?] eqn:Htiles; [done|].
  destruct (bool_decide _); [done|].
  cbn. apply Forall_app. split; [done|].
  apply Forall_singleton. by apply Hfound.
Qed.

Lemma extractWords_tiles (board : Board) (placedTiles : list PlacedTile)
    (cells : gset (Z * Z)) :
  Forall (λ w, Forall (wordTileOf board cells) (w_tiles w))
    (extractWords board placedTiles cells).
Proof.
  unfold extractWords.
  enough (H : ∀ acc : list WordFound * gset (Direction * (Z * Z)),
             Forall (λ w, Forall (wordTileOf board cells) (w_tiles w)) (fst acc) →
             Forall (λ w, Forall (wordTileOf board cells) (w_tiles w))
               (fst (foldl
                       (λ acc pt,
                          let acc := noteWord horizontal
                                       (getWordAt board (pt_row pt) (pt_col pt) horizontal cells) acc in
                          noteWord vertical
                            (getWordAt board (pt_row pt) (pt_col pt) vertical cells) acc)
                       acc placedTiles)))
    by (apply H; constructor).
  induction placedTiles as [|pt rest IH]; intros acc Hacc; cbn [foldl]; [done|].
  apply IH. apply noteWord_tiles; [apply getWordAt_tiles|].
  apply noteWord_tiles; [apply getWordAt_tiles | done].
Qed.

Lemma collectPlaced_cells (board : Board) (rackTiles : gmap Z Tile)
    (placements : list TilePlacement) (acc placedTiles : list PlacedTile) :
  collectPlaced board rackTiles placements acc = Ok placedTiles →
  map (λ pt, (pt_row pt, pt_col pt)) placedTiles
  = map (λ pt, (pt_row pt, pt_col pt)) acc ++ map (λ p, (p_row p, p_col p)) placements.
Proof.
  revert acc. induction placements as [|p rest IH]; intros acc; cbn [collectPlaced].
  - intros [= <-]. cbn. by rewrite app_nil_r.
  - destruct (rackTiles !! p_tileId p) as [tile|]; [|done].
    destruct (negb (inBounds _ _)); [done|].
    destruct (occupied _ _ _); [done|].
    destruct (t_isBlank tile).
    + destruct (negb (truthy _)); [done|].
      intros ->%IH. rewrite map_app, <- app_assoc. done.
    + intros ->%IH. rewrite map_app, <- app_assoc. done.
Qed.

Lemma collectPlaced_inBounds (board : Board) (rackTiles : gmap Z Tile)
    (placements : list TilePlacement) (acc placedTiles : list PlacedTile) :
  collectPlaced board rackTiles placements acc = Ok placedTiles →
  Forall (λ pt, inBounds (pt_row pt) (pt_col pt) = true) acc →
  Forall (λ pt, inBounds (pt_row pt) (pt_col pt) = true) placedTiles.
Proof.
  revert acc. induction placements as [|p rest IH]; intros acc; cbn [collectPlaced].
  - by intros [= <-].
  - destruct (rackTiles !! p_tileId p) as [tile|]; [|done].
    destruct (inBounds (p_row p) (p_col p)) eqn:Hin; [|done]. cbn [negb].
    destruct (occupied _ _ _); [done|].
    destruct (t_isBlank tile).
    + destruct (negb (truthy _)); [done|].
      intros Hrest Hacc. apply (IH _ Hrest). apply Forall_app. split; [done|].
      by apply Forall_singleton.
    + intros Hrest Hacc. apply (IH _ Hrest). apply Forall_app. split; [done|].
      by apply Forall_singleton.
Qed.

(** The scratch board of [validate] differs from the board only on the
    cells of the placements. *)
Lemma tempBoard_other (board : Board) (placedTiles : list PlacedTile) (r c : Z) :
  Forall (λ pt, inBounds (pt_row pt) (pt_col pt) = true) placedTiles →
  (r, c) ∉ map (λ pt, (pt_row pt, pt_col pt)) placedTiles →
  cellAt (foldl (λ b pt, setCell b (pt_row pt) (pt_col pt) (pt_tile pt)) board placedTiles) r c
  = cellAt board r c.
Proof.
  revert board. induction placedTiles as [|pt rest IH]; intros board Hin Hfresh; cbn [foldl];
    [done|].
  apply Forall_cons in Hin as [[Hr Hc]%inBounds_range Hin].
  cbn [map] in Hfresh. apply not_elem_of_cons in Hfresh as [Hne Hfresh].
  rewrite IH by done. apply cellAt_setCell_ne; [lia | lia | congruence].
Qed.

Lemma validate_scored (isValid : string → bool) (board : Board)
    (placements : list TilePlacement) (rackTiles : gmap Z Tile) (isFirstMove : bool)
    (words : list WordFound) :
  validate isValid board placements rackTiles isFirstMove = Ok words →
  Forall (λ w, Forall (scoredTile board (placedCells placements)) (w_tiles w)) words.
Proof.
  unfold validate, placedCells. destruct (bool_decide (length placements = 0%nat)); [done|].
  destruct (collectPlaced board rackTiles placements []) as [placedTiles|] eqn:Hplaced; [|done].
  pose proof (collectPlaced_inBounds _ _ _ _ _ Hplaced (Forall_nil_2 _)) as Hin.
  apply collectPlaced_cells in Hplaced. cbn [map app] in Hplaced.
  cbn [rbind].
  destruct (negb _ && negb _); [done|].
  destruct (negb (gapFree _ _ _)); [done|].
  match goal with
  | |- rbind ?check _ = _ → _ => destruct check; [|done]
  end.
  cbn [rbind]. destruct (bool_decide (length _ = 0%nat)); [done|].
  destruct (checkWords _ _); [|done]. cbn [rbind].
  intros [= <-].
  eapply Forall_impl; [apply extractWords_tiles|].
  intros w Hw. eapply Forall_impl; [exact Hw|].
  intros wt [Hflag Hcell]. rewrite Hplaced in Hflag. split; [exact Hflag|].
  intros Hold. rewrite <- Hcell. symmetry. apply tempBoard_other; [done|].
  unfold flaggedBy in Hflag. rewrite Hold in Hflag. symmetry in Hflag.
  apply bool_decide_eq_false in Hflag. rewrite elem_of_list_to_set in Hflag.
  by rewrite Hplaced.
Qed.

(** C2, as amended: in a successful play every formed word scores the
    sum of its letter contributions times the product of its word
    multipliers, where a tile on a cell placed this turn counts its
    points times the letter multiplier of the cell (2 on DL, 3 on TL)
    and brings the word multiplier of the cell (2 on DW and on the
    start cell, 3 on TW), and a tile on any other cell, which is the
    tile the board held there before the play, counts its plain points
    and no multiplier; the turn total is the sum of the scores of the
    formed words, plus the bonus of 50 when the play has exactly seven
    placements. *)
Theorem play_scores_words_plus_bonus (isValid : string → bool) (g g' : Game)
    (playerId : string) (placements : list TilePlacement)
    (words : list (string * Z)) (total : Z) :
  playTiles isValid playerId placements g = (Ok (words, total), g') →
  ∃ player wordsFound,
    g_players g !! g_currentPlayerIndex g = Some player
    ∧ validate isValid (g_board g) placements (rackMapOf (pl_rack player)) (g_isFirstMove g)
      = Ok wordsFound
    ∧ Forall (λ w, Forall (scoredTile (g_board g) (placedCells placements)) (w_tiles w))
        wordsFound
    ∧ words = map (λ wf, (w_word wf, specWordScore (g_bonusLayout g) wf)) wordsFound
    ∧ total = sumZ (map snd words)
              + (if bool_decide (Z.of_nat (length placements) = RACK_SIZE)
                 then BINGO_BONUS else 0).
Proof.
  unfold playTiles. intros H.
  destruct (assertTurn_cases playerId g) as [(Ha & Hphase & Hcur)|[e' Ha]].
  2:{ rewrite (bind_throw _ _ _ _ _ Ha) in H. congruence. }
  rewrite (bind_ok _ _ _ _ _ Ha) in H. runM.
  destruct (g_players g !! g_currentPlayerIndex g) as [player|]; [|congruence].
  destruct (validate isValid _ _ _ _) as [wordsFound|] eqn:Hvalid; [|congruence].
  rewrite scoreWords_spec in H.
  destruct (drawToFill _ _) as [drawn bag].
  rewrite advanceTurn_eq in H.
  match type of H with
  | context [checkGameEnd ?s] => destruct (checkGameEnd_ok s) as [g2 Hend]; rewrite Hend in H
  end.
  injection H as <- <- _.
  exists player, wordsFound. split_and!; try done.
  - by apply validate_scored in Hvalid.
  - clear Hend. rewrite map_map. cbn [snd].
    change (λ x, specWordScore (g_bonusLayout g) x) with (specWordScore (g_bonusLayout g)).
    destruct (bool_decide (Z.of_nat (length placements) = RACK_SIZE)); lia.
Qed.

(** C2, the claim as stated fails: "a" plays all seven tiles of the rack
    as もうしあわせる through the start cell; the word scores 24 and it
    is the only word, yet the turn total is 74. *)
Lemma full_rack_play_total :
  ∃ g', playTiles someWords "a" fullRackPlay fullRackGame
        = (Ok ([("もうしあわせる", 24)], 74), g')
        ∧ 74 ≠ sumZ (map snd [("もうしあわせる", 24)]).
Proof. eexists. split; [vm_compute; reflexivity | by vm_compute]. Qed.

(** C2, at the play of いう by "a" as the first move. *)
Lemma play_scores_words_plus_bonus_witness :
  ∃ player wordsFound,
    g_players started !! g_currentPlayerIndex started = Some player
    ∧ validate someWords (g_board started)
        [mkPlacement 7 7 0 None; mkPlacement 7 8 5 None]
        (rackMapOf (pl_rack player)) (g_isFirstMove started)
      = Ok wordsFound
    ∧ Forall (λ w, Forall (scoredTile (g_board started)
                             (placedCells [mkPlacement 7 7 0 None; mkPlacement 7 8 5 None]))
                     (w_tiles w)) wordsFound
    ∧ [("いう", 4)] = map (λ wf, (w_word wf, specWordScore (g_bonusLayout started) wf)) wordsFound
    ∧ 4 = sumZ (map snd [("いう", 4)])
          + (if bool_decide (Z.of_nat (length [mkPlacement 7 7 0 None; mkPlacement 7 8 5 None])
                             = RACK_SIZE)
             then BINGO_BONUS else 0).
Proof.
  apply (play_scores_words_plus_bonus someWords started
           (runGame (playTiles someWords "a" [mkPlacement 7 7 0 None; mkPlacement 7 8 5 None]) started)
           "a").
  vm_compute. reflexivity.
Defined.

(** ** Disconnection and the grace period *)

Lemma setFirst_seats (id : string) (connected : bool) (ps : list Player) :
  map (λ p, (pl_id p, pl_score p, pl_rack p)) (setFirst id connected ps)
  = map (λ p, (pl_id p, pl_score p, pl_rack p)) ps.
Proof.
  induction ps as [|p ps IH]; [done|]. cbn [setFirst].
  destruct (bool_decide (pl_id p = id)); cbn [map]; [done|]. by rewrite IH.
Qed.

Lemma handleDisconnect_playing (r : Room) (id : string) (player : RoomPlayer) :
  g_phase (rm_game r) = playing →
  rm_players r !! id = Some player →
  handleDisconnect id r
  = (Ok tt,
     mkRoom
       (<[id := mkRoomPlayer (rp_id player) (rp_name player) (rp_ws player)
                  (Some (rm_nextHandle r))]> (rm_players r))
       (rm_hostId r)
       (setPlayers (setFirst id false (g_players (rm_game r))) (rm_game r))
       (<[rm_nextHandle r := id]> (rm_timeouts r))
       (S (rm_nextHandle r))
       (rm_notified r)).
Proof.
  intros Hphase Hplayer. unfold handleDisconnect, onGame, setConnected. runM.
  rewrite Hplayer. cbn. rewrite Hphase. cbn. done.
Qed.




(** ** Connections never touch a seat

    Whatever happens between a disconnection and a reconnection, the
    two calls themselves leave the seats of a started game and the turn
    where they are. *)

Lemma reconnectPlayer_seats (r : Room) (id : string) (ws : nat) :
  seats (rm_game (snd (reconnectPlayer id ws r))) = seats (rm_game r)
  ∧ g_currentPlayerIndex (rm_game (snd (reconnectPlayer id ws r)))
    = g_currentPlayerIndex (rm_game r).
Proof.
  unfold reconnectPlayer, clearTimeout, onGame, setConnected. runM.
  destruct (rm_players r !! id) as [player|]; [|done].
  destruct (rp_reconnectTimer player); cbn -[setFirst]; unfold seats;
    cbn [g_players setPlayers]; by rewrite setFirst_seats.
Qed.

Lemma handleDisconnect_seats (r : Room) (id : string) :
  g_phase (rm_game r) ≠ waiting →
  seats (rm_game (snd (handleDisconnect id r))) = seats (rm_game r)
  ∧ g_currentPlayerIndex (rm_game (snd (handleDisconnect id r)))
    = g_currentPlayerIndex (rm_game r).
Proof.
  intros Hphase.
  unfold handleDisconnect, roomRemovePlayer, clearTimeout, onGame, setConnected, removePlayer.
  runM. destruct (rm_players r !! id) as [player|] eqn:Hplayer; [|done].
  cbn -[setFirst].
  destruct (bool_decide (g_phase (rm_game r) = playing)); cbn -[setFirst].
  - unfold seats. cbn [g_players setPlayers]. by rewrite setFirst_seats.
  - rewrite Hplayer. cbn -[setFirst].
    destruct (rp_reconnectTimer player); cbn -[setFirst];
      rewrite (bool_decide_eq_false_2 _ Hphase); cbn -[setFirst];
      unfold seats; cbn [g_players setPlayers]; by rewrite setFirst_seats.
Qed.

(** ** What a turn does to the tiles *)

Lemma map_insert {A B} (f : A → B) (l : list A) (i : nat) (x : A) :
  map f (<[i := x]> l) = <[i := f x]> (map f l).
Proof. exact (list_fmap_insert f l i x). Qed.

Lemma endGame_frame (g : Game) :
  map pl_rack (g_players (snd (endGame g))) = map pl_rack (g_players g)
  ∧ g_tileBag (snd (endGame g)) = g_tileBag g
  ∧ g_board (snd (endGame g)) = g_board g.
Proof.
  rewrite endGame_eq. cbn. split_and!; try done.
  rewrite map_map. by apply map_ext.
Qed.

Lemma checkGameEnd_frame (g g' : Game) :
  checkGameEnd g = (Ok tt, g') →
  map pl_rack (g_players g') = map pl_rack (g_players g)
  ∧ g_tileBag g' = g_tileBag g
  ∧ g_board g' = g_board g.
Proof.
  intros H. destruct (checkGameEnd_cases g) as [Hsame|Hend].
  - rewrite Hsame in H. by injection H as <-.
  - rewrite Hend in H. pose proof (endGame_frame g) as Hframe.
    rewrite H in Hframe. exact Hframe.
Qed.

Lemma advanceTurn_frame (g : Game) :
  g_players (snd (advanceTurn g)) = g_players g
  ∧ g_tileBag (snd (advanceTurn g)) = g_tileBag g
  ∧ g_board (snd (advanceTurn g)) = g_board g.
Proof.
  rewrite advanceTurn_eq. cbn [snd].
  by destruct (bool_decide _).
Qed.

Lemma forcePass_frame (g : Game) :
  map pl_rack (g_players (snd (forcePass g))) = map pl_rack (g_players g)
  ∧ g_tileBag (snd (forcePass g)) = g_tileBag g
  ∧ g_board (snd (forcePass g)) = g_board g.
Proof.
  unfold forcePass. runM.
  destruct (g_players g !! g_currentPlayerIndex g) as [player|]; [|done].
  match goal with
  | |- context [advanceTurn ?s] =>
      pose proof (advanceTurn_frame s) as (Hp & Hb & Hc); rewrite (advanceTurn_eq s) in *
  end.
  cbn [fst snd] in *.
  match goal with
  | |- context [checkGameEnd ?s] =>
      destruct (checkGameEnd_ok s) as [g2 Hend]; rewrite Hend;
      apply checkGameEnd_frame in Hend as (Hp2 & Hb2 & Hc2)
  end.
  cbn [snd]. rewrite Hp2, Hb2, Hc2, Hp, Hb, Hc. done.
Qed.

Lemma playTiles_ok_frame (isValid : string → bool) (g g' : Game) (playerId : string)
    (placements : list TilePlacement) (res : list (string * Z) * Z) :
  playTiles isValid playerId placements g = (Ok res, g') →
  ∃ player wordsFound,
    g_players g !! g_currentPlayerIndex g = Some player
    ∧ validate isValid (g_board g) placements (rackMapOf (pl_rack player)) (g_isFirstMove g)
      = Ok wordsFound
    ∧ let kept := filter (λ t, t_id t ∉ (list_to_set (map p_tileId placements) : gset Z))
                         (pl_rack player) in
      map pl_rack (g_players g')
      = <[g_currentPlayerIndex g := kept ++ fst (drawToFill (length kept) (g_tileBag g))]>
          (map pl_rack (g_players g))
      ∧ g_tileBag g' = snd (drawToFill (length kept) (g_tileBag g))
      ∧ g_board g' = commitPlacements (rackMapOf (pl_rack player)) placements (g_board g).
Proof.
  unfold playTiles. intros H.
  destruct (assertTurn_cases playerId g) as [(Ha & Hphase & Hcur)|[e' Ha]].
  2:{ rewrite (bind_throw _ _ _ _ _ Ha) in H. congruence. }
  rewrite (bind_ok _ _ _ _ _ Ha) in H. runM.
  destruct (g_players g !! g_currentPlayerIndex g) as [player|]; [|congruence].
  destruct (validate isValid _ _ _ _) as [wordsFound|] eqn:Hvalid; [|congruence].
  destruct (scoreWords _ _) as [wordsTotal wordResults].
  destruct (drawToFill _ _) as [drawn bag] eqn:Hdraw.
  match type of H with
  | context [advanceTurn ?s] =>
      pose proof (advanceTurn_frame s) as (Hp & Hb & Hc); rewrite (advanceTurn_eq s) in *
  end.
  cbn [fst snd] in *.
  match type of H with
  | context [checkGameEnd ?s] =>
      destruct (checkGameEnd_ok s) as [g2 Hend]; rewrite Hend in H;
      apply checkGameEnd_frame in Hend as (Hp2 & Hb2 & Hc2)
  end.
  injection H as _ <-.
  exists player, wordsFound. split_and!; try done.
  - rewrite Hp2, Hp, Hdraw. cbn [fst g_players g_currentPlayerIndex setPlayers setBoard setTileBag
      setIsFirstMove setConsecutivePasses pushTurn].
    rewrite map_insert. reflexivity.
  - rewrite Hb2, Hb, Hdraw. reflexivity.
  - rewrite Hc2, Hc. reflexivity.
Qed.


Lemma exchange_ok (random : nat → nat → nat) (tiles drawn : list Tile) (b b' : TileBag) :
  exchange random tiles b = (Ok drawn, b') →
  (length tiles ≤ length (bag_tiles b))%nat
  ∧ drawn = take (length tiles) (bag_tiles b)
  ∧ bag_tiles b' ≡ₚ drop (length tiles) (bag_tiles b) ++ map resetBlank tiles.
Proof.
  unfold exchange. destruct (_ <? _)%nat eqn:Hshort; [done|].
  apply Nat.ltb_ge in Hshort. unfold draw.
  rewrite take_min_length, drop_min_length.
  intros [= <- <-]. split_and!; [done | done |].
  by rewrite shuffle_perm.
Qed.

Lemma findTiles_ok (rack : list Tile) (tileIds : list Z) (acc tiles : list Tile) :
  findTiles rack tileIds acc = Ok tiles →
  ∃ found, tiles = acc ++ found
    ∧ map t_id found = tileIds
    ∧ Forall (λ t, t ∈ rack) found.
Proof.
  revert acc. induction tileIds as [|id rest IH]; intros acc; cbn [findTiles].
  - intros [= <-]. exists []. by rewrite app_nil_r.
  - destruct (find _ rack) as [tile|] eqn:Hfind; [|done].
    intros (found & -> & Hids & Hin)%IH.
    exists (tile :: found). rewrite <- app_assoc. split_and!; [done | |].
    + cbn. f_equal; [|done]. apply find_some in Hfind as [_ Hid].
      by apply bool_decide_eq_true in Hid.
    + constructor; [|done]. apply find_some in Hfind as [Hin' _].
      by apply list_elem_of_In.
Qed.

Lemma exchangeTiles_ok_frame (random : nat → nat → nat) (g g' : Game) (playerId : string)
    (tileIds : list Z) :
  exchangeTiles random playerId tileIds g = (Ok tt, g') →
  ∃ player tiles,
    g_players g !! g_currentPlayerIndex g = Some player
    ∧ map t_id tiles = tileIds
    ∧ Forall (λ t, t ∈ pl_rack player) tiles
    ∧ (length tiles ≤ length (bag_tiles (g_tileBag g)))%nat
    ∧ map pl_rack (g_players g')
      = <[g_currentPlayerIndex g :=
            filter (λ t, t_id t ∉ tileIds) (pl_rack player)
            ++ take (length tiles) (bag_tiles (g_tileBag g))]>
          (map pl_rack (g_players g))
    ∧ bag_tiles (g_tileBag g')
      ≡ₚ drop (length tiles) (bag_tiles (g_tileBag g)) ++ map resetBlank tiles
    ∧ g_board g' = g_board g.
Proof.
  unfold exchangeTiles. intros H.
  destruct (assertTurn_cases playerId g) as [(Ha & Hphase & Hcur)|[e' Ha]].
  2:{ rewrite (bind_throw _ _ _ _ _ Ha) in H. congruence. }
  rewrite (bind_ok _ _ _ _ _ Ha) in H. runM.
  destruct (bool_decide (length tileIds = 0%nat)); [congruence|].
  destruct (remaining (g_tileBag g) <? length tileIds)%nat; [congruence|].
  destruct (g_players g !! g_currentPlayerIndex g) as [player|]; [|congruence].
  destruct (findTiles (pl_rack player) tileIds []) as [tiles|] eqn:Hfind; [|congruence].
  apply findTiles_ok in Hfind as (found & -> & Hids & Hin). cbn [app] in *.
  destruct (exchange random found (g_tileBag g)) as [[newTiles|e'] bag] eqn:Hex; [|congruence].
  apply exchange_ok in Hex as (Hlen & -> & Hperm).
  match type of H with
  | advanceTurn ?s = _ => pose proof (advanceTurn_frame s) as (Hp & Hb & Hc)
  end.
  rewrite H in Hp, Hb, Hc. cbn [snd] in Hp, Hb, Hc.
  exists player, found. split_and!; try done.
  - rewrite Hp. cbn [g_players g_currentPlayerIndex setPlayers setTileBag setConsecutivePasses
                     pushTurn].
    rewrite map_insert. reflexivity.
  - rewrite Hb. exact Hperm.
Qed.

(** ** Every tile in play is a tile of the table *)

Lemma map_lookup {A B} (f : A → B) (l : list A) (i : nat) :
  map f l !! i = f <$> l !! i.
Proof. exact (list_lookup_fmap f l i). Qed.

Lemma start_eq (g : Game) :
  start g
  = if (length (g_players g) <? 2)%nat then (Throw ErrNeedTwoPlayers, g)
    else (Ok tt,
          setTurnTimer true
            (setTileBag
               (mkBag (drop (7 * length (g_players g)) (bag_tiles (g_tileBag g)))
                      (bag_nextId (g_tileBag g)) (bag_calls (g_tileBag g)))
               (setPlayers (dealtFrom (bag_tiles (g_tileBag g)) (g_players g))
                  (setPhase playing g)))).
Proof.
  unfold start. runM. destruct (_ <? _)%nat; [done|].
  rewrite startTurnTimer_eq. unfold dealRacks. cbn [g_players g_tileBag setPhase].
  rewrite (dealRacks_eq (g_players g) [] (g_tileBag g)). reflexivity.
Qed.



Lemma setFirst_racks (id : string) (connected : bool) (ps : list Player) :
  map pl_rack (setFirst id connected ps) = map pl_rack ps.
Proof.
  induction ps as [|p ps IH]; [done|]. cbn [setFirst].
  destruct (bool_decide (pl_id p = id)); cbn [map]; [done|]. by rewrite IH.
Qed.


Lemma pass_frame (playerId : string) (g : Game) :
  map pl_rack (g_players (snd (pass playerId g))) = map pl_rack (g_players g)
  ∧ g_tileBag (snd (pass playerId g)) = g_tileBag g
  ∧ g_board (snd (pass playerId g)) = g_board g.
Proof.
  unfold pass.
  destruct (assertTurn_cases playerId g) as [(Ha & _)|[e Ha]].
  - rewrite (bind_ok _ _ _ _ _ Ha). apply forcePass_frame.
  - by rewrite (bind_throw _ _ _ _ _ Ha).
Qed.






(** ** The end of the game *)



(** The phase becomes [finished] in [endGame] and nowhere else:
    [checkGameEnd] either changes nothing or is [endGame]. *)
Lemma finished_by_endGame (g g' : Game) :
  checkGameEnd g = (Ok tt, g') →
  g_phase g ≠ finished → g_phase g' = finished →
  endGame g = (Ok tt, g').
Proof.
  intros H Hbefore Hafter.
  destruct (checkGameEnd_cases g) as [Hsame|Hend]; [|congruence].
  rewrite Hsame in H. injection H as <-. done.
Qed.



(** The fourth pass ends that game: "a" holds the blank and six い and
    loses 6 points, "b" holds three う and four か and loses 7. *)
Example fourth_pass_ends_game :
  let g' := runGame (pass "b") beforeLastPass in
  map t_id (pl_rack (default (mkPlayer "" "" 0 [] true) (g_players beforeLastPass !! 0%nat)))
  = [111; 1; 2; 3; 4; 5; 6]
  ∧ g_phase beforeLastPass = playing
  ∧ g_phase g' = finished
  ∧ map pl_score (g_players g') = [-6; -7].
Proof. vm_compute. split_and!; reflexivity. Qed.

(** ** Conservation of tiles under well-formed intents

    A play or an exchange that names no tile and no cell twice moves
    tiles between the pool, the racks and the board and neither makes
    nor loses one. *)

Lemma count_some_insert (line : list (option Tile)) (c : nat) (t : Tile) :
  line !! c = Some None →
  length (filter (λ x : option Tile, is_Some x) (<[c := Some t]> line))
  = S (length (filter (λ x : option Tile, is_Some x) line)).
Proof.
  intros Hc. apply list_elem_of_split_length in Hc as (l1 & l2 & -> & ->).
  rewrite insert_app_r_alt, Nat.sub_diag by lia. cbn [insert list_insert].
  rewrite !filter_app, !filter_cons, !length_app.
  destruct (decide (is_Some (Some t))) as [_|[]]; [|by eexists].
  destruct (decide (is_Some (@None Tile))) as [[? [=]]|_].
  cbn [length]. lia.
Qed.

Lemma cellAt_lookup (board : Board) (r c : Z) (line : list (option Tile)) :
  0 ≤ r → 0 ≤ c → board !! Z.to_nat r = Some line →
  cellAt board r c = default None (line !! Z.to_nat c).
Proof.
  intros Hr Hc Hline. unfold cellAt.
  replace ((r <? 0) || (c <? 0)) with false by (symmetry; apply orb_false_iff; lia).
  by rewrite Hline.
Qed.

Lemma boardTiles_setCell (board : Board) (r c : Z) (t : Tile) :
  wfBoard board → inBounds r c = true → cellAt board r c = None →
  boardTiles (setCell board r c t) = S (boardTiles board).
Proof.
  intros [Hrows Hcols] [Hr Hc]%inBounds_range Hempty.
  destruct (lookup_lt_is_Some_2 board (Z.to_nat r)) as [line Hline]; [lia|].
  assert (Hlen : length line = Z.to_nat BOARD_SIZE).
  { rewrite Forall_forall in Hcols. apply Hcols. by eapply list_elem_of_lookup_2. }
  rewrite (cellAt_lookup board r c line) in Hempty by (done || lia).
  destruct (lookup_lt_is_Some_2 line (Z.to_nat c)) as [cell Hcell]; [lia|].
  rewrite Hcell in Hempty. cbn in Hempty. subst cell.
  unfold boardTiles, setCell.
  apply list_elem_of_split_length in Hline as (b1 & b2 & -> & Hb1).
  rewrite Hb1, alter_app_r_alt, Nat.sub_diag by lia.
  cbn [alter list_alter]. rewrite !map_app. cbn [map].
  rewrite !sum_list_with_app. cbn [sum_list_with].
  rewrite (count_some_insert line (Z.to_nat c) t Hcell). unfold id. lia.
Qed.

Lemma wfBoard_setCell (board : Board) (r c : Z) (t : Tile) :
  wfBoard board → wfBoard (setCell board r c t).
Proof.
  intros [Hrows Hcols]. unfold setCell. split; [by rewrite length_alter|].
  apply Forall_forall. intros line [i Hi]%list_elem_of_lookup.
  rewrite Forall_forall in Hcols.
  destruct (decide (Z.to_nat r = i)) as [<-|Hne].
  - rewrite list_lookup_alter_eq in Hi.
    destruct (board !! Z.to_nat r) as [line0|] eqn:Hline; [|done].
    injection Hi as <-. rewrite length_insert.
    apply Hcols. by eapply list_elem_of_lookup_2.
  - rewrite list_lookup_alter_ne in Hi by done.
    apply Hcols. by eapply list_elem_of_lookup_2.
Qed.

Lemma collectPlaced_placeable (board : Board) (rackTiles : gmap Z Tile)
    (placements : list TilePlacement) (acc placedTiles : list PlacedTile) :
  collectPlaced board rackTiles placements acc = Ok placedTiles →
  Forall (placeable board rackTiles) placements.
Proof.
  revert acc. induction placements as [|p rest IH]; intros acc; cbn [collectPlaced];
    [constructor|].
  destruct (rackTiles !! p_tileId p) as [tile|] eqn:Htile; [|done].
  destruct (inBounds _ _) eqn:Hin; [|done]. cbn [negb].
  unfold occupied. destruct (cellAt board (p_row p) (p_col p)) as [?|] eqn:Hcell.
  { rewrite bool_decide_eq_true_2 by (by eexists). done. }
  rewrite bool_decide_eq_false_2 by (by intros [? [=]]).
  assert (Hp : placeable board rackTiles p) by (split_and!; [done | done | by eexists]).
  destruct (t_isBlank tile).
  - destruct (negb (truthy _)); [done|]. intros H%IH. by constructor.
  - intros H%IH. by constructor.
Qed.

Lemma validate_placeable (isValid : string → bool) (board : Board)
    (placements : list TilePlacement) (rackTiles : gmap Z Tile) (isFirstMove : bool)
    (words : list WordFound) :
  validate isValid board placements rackTiles isFirstMove = Ok words →
  Forall (placeable board rackTiles) placements.
Proof.
  unfold validate. destruct (bool_decide _); [done|].
  destruct (collectPlaced board rackTiles placements []) as [placedTiles|] eqn:Hplaced; [|done].
  intros _. by eapply collectPlaced_placeable.
Qed.

Lemma commitPlacements_count (rackMap : gmap Z Tile) (placements : list TilePlacement)
    (board : Board) :
  wfBoard board →
  Forall (placeable board rackMap) placements →
  NoDup (map (λ p, (p_row p, p_col p)) placements) →
  boardTiles (commitPlacements rackMap placements board)
  = (boardTiles board + length placements)%nat
  ∧ wfBoard (commitPlacements rackMap placements board).
Proof.
  unfold commitPlacements.
  revert board. induction placements as [|p rest IH]; intros board Hwf Hok Hcells; cbn [foldl].
  - cbn. split; [lia | done].
  - apply Forall_cons in Hok as [(Hin & Hempty & [tile Htile]) Hrest].
    cbn [map] in Hcells. apply NoDup_cons in Hcells as [Hfresh Hcells].
    rewrite Htile.
    destruct (IH (setCell board (p_row p) (p_col p)
                    (if truthy (p_assignedChar p) then withAssigned tile (p_assignedChar p)
                     else tile))) as [Hcount Hwf'].
    + by apply wfBoard_setCell.
    + apply Forall_forall. intros q Hq. rewrite Forall_forall in Hrest.
      destruct (Hrest q Hq) as (Hqin & Hqempty & Hqtile). split_and!; [done | | done].
      rewrite cellAt_setCell_ne; [done | | |].
      * apply inBounds_range in Hin. lia.
      * apply inBounds_range in Hin. lia.
      * intros Heq. apply Hfresh. rewrite Heq.
        by apply (list_elem_of_fmap_2 (λ p, (p_row p, p_col p))).
    + done.
    + split; [|done]. rewrite Hcount, boardTiles_setCell by done. cbn [length]. lia.
Qed.

Lemma rackMapOf_lookup (rack : list Tile) (i : Z) (t : Tile) :
  rackMapOf rack !! i = Some t → t ∈ rack ∧ t_id t = i.
Proof.
  unfold rackMapOf.
  enough (H : ∀ m : gmap Z Tile,
             foldl (λ m t, <[t_id t := t]> m) m rack !! i = Some t →
             (t ∈ rack ∧ t_id t = i) ∨ m !! i = Some t).
  { intros Hl. destruct (H ∅ Hl) as [?|Hempty]; [done|]. by rewrite lookup_empty in Hempty. }
  induction rack as [|t0 rack IH]; intros m; cbn [foldl]; [by right|].
  intros [[Hin Hid]|Hm]%IH.
  - left. split; [by right | done].
  - destruct (decide (t_id t0 = i)) as [Heq|Hne].
    + rewrite Heq, lookup_insert_eq in Hm. injection Hm as ->. left. split; [by left | done].
    + rewrite lookup_insert_ne in Hm by done. by right.
Qed.

Lemma ids_of_named (rack : list Tile) (ids : list Z) :
  NoDup (map t_id rack) → NoDup ids → (∀ i, i ∈ ids → i ∈ map t_id rack) →
  map t_id (filter (λ t, t_id t ∈ ids) rack) ≡ₚ ids.
Proof.
  intros Hrack Hids Hsub. apply NoDup_Permutation; [| done |].
  - eapply sublist_NoDup; [exact Hrack|].
    apply (fmap_sublist t_id), sublist_filter.
  - intros i. split.
    + intros (t & -> & [Ht _]%list_elem_of_filter)%(list_elem_of_fmap_1 t_id). done.
    + intros Hi. destruct (list_elem_of_fmap_1 t_id _ _ (Hsub i Hi)) as (t & -> & Ht).
      apply (list_elem_of_fmap_2 t_id). by apply list_elem_of_filter.
Qed.

Lemma kept_rack (rack : list Tile) (ids : list Z) :
  NoDup (map t_id rack) → NoDup ids → (∀ i, i ∈ ids → i ∈ map t_id rack) →
  (length (filter (λ t, t_id t ∉ ids) rack) + length ids = length rack)%nat
  ∧ map t_id rack ≡ₚ ids ++ map t_id (filter (λ t, t_id t ∉ ids) rack).
Proof.
  intros Hrack Hids Hsub.
  pose proof (ids_of_named rack ids Hrack Hids Hsub) as Hnamed.
  pose proof (filter_app_complement (λ t, t_id t ∈ ids) rack) as Hsplit.
  split.
  - rewrite <- (Permutation_length Hsplit), length_app.
    rewrite <- (Permutation_length Hnamed), length_map. lia.
  - rewrite <- Hnamed. rewrite <- map_app.
    exact (fmap_Permutation t_id _ _ (symmetry Hsplit)).
Qed.

Lemma filter_set_list (ids : list Z) (rack : list Tile) :
  filter (λ t, t_id t ∉ (list_to_set ids : gset Z)) rack
  = filter (λ t, t_id t ∉ ids) rack.
Proof. apply filter_ext_elem. intros t _. by rewrite elem_of_list_to_set. Qed.

Lemma insert_split {A} (l : list A) (i : nat) (old new : A) :
  l !! i = Some old →
  ∃ l1 l2, l = l1 ++ old :: l2 ∧ <[i := new]> l = l1 ++ new :: l2.
Proof.
  intros (l1 & l2 & -> & ->)%list_elem_of_split_length.
  exists l1, l2. split; [done|].
  by rewrite insert_app_r_alt, Nat.sub_diag by lia.
Qed.

(** The number of tiles of a session, from the tiles of the pool, the
    racks and the board. *)
Lemma tileCount_alt (g : Game) :
  tileCount g
  = (length (bag_tiles (g_tileBag g))
     + length (concat (map pl_rack (g_players g)))
     + boardTiles (g_board g))%nat.
Proof.
  unfold tileCount. do 2 f_equal.
  induction (g_players g) as [|p ps IH]; [done|].
  cbn [map concat]. rewrite length_app, <- IH. reflexivity.
Qed.

Lemma resetBlank_id (t : Tile) : t_id (resetBlank t) = t_id t.
Proof. unfold resetBlank. by destruct (t_isBlank t). Qed.

Lemma drawToFill_split (currentCount : nat) (b : TileBag) :
  fst (drawToFill currentCount b) ++ bag_tiles (snd (drawToFill currentCount b)) = bag_tiles b.
Proof.
  unfold drawToFill. destruct (_ <=? 0); [done|]. apply draw_split.
Qed.

Lemma NoDup_of_submseteq {A} (l k : list A) : l ⊆+ k → NoDup k → NoDup l.
Proof.
  intros [k' Hk]%submseteq_Permutation Hnodup. rewrite Hk in Hnodup.
  by apply NoDup_app in Hnodup as [? _].
Qed.

Lemma play_conserves (isValid : string → bool) (g : Game) (playerId : string)
    (placements : list TilePlacement) :
  sound g → wellFormed (PLAY_TILES placements) →
  tileCount (snd (playTiles isValid playerId placements g)) = tileCount g
  ∧ sound (snd (playTiles isValid playerId placements g)).
Proof.
  intros [Hwf Hdist] [Hids Hcells].
  destruct (playTiles isValid playerId placements g) as [[res|e] g'] eqn:Hplay; cbn [snd].
  2:{ by apply playTiles_throw in Hplay as ->. }
  apply playTiles_ok_frame in Hplay
    as (player & wordsFound & Hplayer & Hvalid & Hr & Hb & Hboard).
  apply validate_placeable in Hvalid.
  destruct (commitPlacements_count _ placements (g_board g) Hwf Hvalid Hcells) as [Hcount Hwf'].
  rewrite filter_set_list in Hr, Hb.
  set (rack := pl_rack player) in *. set (ids := map p_tileId placements) in *.
  set (kept := filter (λ t, t_id t ∉ ids) rack) in *.
  pose proof (drawToFill_split (length kept) (g_tileBag g)) as Hsplit.
  rewrite <- Hb in Hsplit.
  set (drawn := fst (drawToFill (length kept) (g_tileBag g))) in *.
  assert (Hlook : map pl_rack (g_players g) !! g_currentPlayerIndex g = Some rack)
    by (by rewrite map_lookup, Hplayer).
  destruct (insert_split _ _ _ (kept ++ drawn) Hlook) as (l1 & l2 & Hold & Hnew).
  rewrite Hnew in Hr.
  unfold distinctIds in Hdist. rewrite Hold, <- Hsplit in Hdist.
  assert (Hrack : NoDup (map t_id rack)).
  { eapply NoDup_of_submseteq; [|exact Hdist].
    apply (fmap_submseteq t_id). rewrite concat_app. cbn [concat]. solve_submseteq. }
  assert (Hsub : ∀ i, i ∈ ids → i ∈ map t_id rack).
  { intros i (p & -> & Hp)%(list_elem_of_fmap_1 p_tileId).
    rewrite Forall_forall in Hvalid. destruct (Hvalid p Hp) as (_ & _ & [t Ht]).
    apply rackMapOf_lookup in Ht as [Ht <-]. by apply (list_elem_of_fmap_2 t_id). }
  destruct (kept_rack rack ids Hrack Hids Hsub) as [Hlen Hperm].
  split.
  - rewrite !tileCount_alt, Hr, Hboard, Hcount, Hold, <- Hsplit.
    rewrite !concat_app. cbn [concat]. rewrite !length_app.
    pose proof (length_map p_tileId placements) as Hn. fold ids in Hn.
    fold kept in Hlen. lia.
  - split; [by rewrite Hboard|]. unfold distinctIds. rewrite Hr.
    eapply NoDup_of_submseteq; [|exact Hdist].
    apply (fmap_submseteq t_id). rewrite !concat_app. cbn [concat].
    assert (Hkept : kept ⊆+ rack) by apply sublist_submseteq, sublist_filter.
    transitivity ((drawn ++ bag_tiles (g_tileBag g')) ++ concat l1 ++ kept ++ concat l2).
    + apply Permutation_submseteq. solve_Permutation.
    + apply submseteq_skips_l, submseteq_skips_l, submseteq_skips_r, Hkept.
Qed.

Lemma resetBlank_ids (tiles : list Tile) : map t_id (map resetBlank tiles) = map t_id tiles.
Proof. rewrite map_map. apply map_ext. intros t. apply resetBlank_id. Qed.

Lemma exchange_conserves (random : nat → nat → nat) (g : Game) (playerId : string)
    (tileIds : list Z) :
  sound g → wellFormed (EXCHANGE_TILES tileIds) →
  tileCount (snd (exchangeTiles random playerId tileIds g)) = tileCount g
  ∧ sound (snd (exchangeTiles random playerId tileIds g)).
Proof.
  intros [Hwf Hdist] Hids. cbn [wellFormed] in Hids.
  destruct (exchangeTiles random playerId tileIds g) as [[[]|e] g'] eqn:Hex; cbn [snd].
  2:{ by apply exchangeTiles_throw in Hex as ->. }
  apply exchangeTiles_ok_frame in Hex
    as (player & tiles & Hplayer & Htiles & Hin & Hshort & Hr & Hb & Hboard).
  set (rack := pl_rack player) in *.
  set (kept := filter (λ t, t_id t ∉ tileIds) rack) in *.
  set (bag := bag_tiles (g_tileBag g)) in *.
  assert (Hlook : map pl_rack (g_players g) !! g_currentPlayerIndex g = Some rack)
    by (by rewrite map_lookup, Hplayer).
  destruct (insert_split _ _ _ (kept ++ take (length tiles) bag) Hlook)
    as (l1 & l2 & Hold & Hnew).
  rewrite Hnew in Hr.
  unfold distinctIds in Hdist. fold bag in Hdist. rewrite Hold in Hdist.
  assert (Hrack : NoDup (map t_id rack)).
  { eapply NoDup_of_submseteq; [|exact Hdist].
    apply (fmap_submseteq t_id). rewrite concat_app. cbn [concat]. solve_submseteq. }
  assert (Hsub : ∀ i, i ∈ tileIds → i ∈ map t_id rack).
  { intros i Hi. rewrite <- Htiles in Hi.
    apply (list_elem_of_fmap_1 t_id) in Hi as (t & -> & Ht).
    rewrite Forall_forall in Hin. by apply (list_elem_of_fmap_2 t_id), Hin. }
  destruct (kept_rack rack tileIds Hrack Hids Hsub) as [Hlen Hperm].
  fold kept in Hlen, Hperm.
  assert (Hn : length tiles = length tileIds) by (by rewrite <- Htiles, length_map).
  split.
  - rewrite !tileCount_alt, Hr, Hboard, Hold. fold bag.
    rewrite (Permutation_length Hb).
    rewrite !concat_app. cbn [concat].
    rewrite !length_app, length_drop, length_take, length_map. lia.
  - split; [by rewrite Hboard|]. unfold distinctIds. rewrite Hr.
    rewrite <- (take_drop (length tiles) bag) in Hdist.
    eapply NoDup_of_submseteq; [|exact Hdist]. apply Permutation_submseteq.
    rewrite !map_app, !concat_app. cbn [concat]. rewrite !map_app.
    rewrite (fmap_Permutation t_id _ _ Hb : map t_id (bag_tiles (g_tileBag g')) ≡ₚ _).
    rewrite map_app, resetBlank_ids, Htiles, Hperm.
    solve_Permutation.
Qed.

Lemma frame_conserves (g g' : Game) :
  map pl_rack (g_players g') = map pl_rack (g_players g) →
  g_tileBag g' = g_tileBag g →
  g_board g' = g_board g →
  tileCount g' = tileCount g ∧ (sound g → sound g').
Proof.
  intros Hr Hb Hc. split.
  - by rewrite !tileCount_alt, Hr, Hb, Hc.
  - unfold sound, distinctIds. by rewrite Hr, Hb, Hc.
Qed.

Lemma turn_conserves (isValid : string → bool) (random : nat → nat → nat)
    (ev : Event) (g : Game) :
  sound g → turnEvent ev →
  tileCount (snd (handle isValid random ev g)) = tileCount g
  ∧ sound (snd (handle isValid random ev g)).
Proof.
  intros Hg Hev.
  destruct ev as [id name|id|id connected| |playerId msg|]; cbn [handle turnEvent] in *;
    try done.
  - unfold setConnected. runM.
    edestruct (frame_conserves g) as [Hcount Hsound]; [| | |split; [exact Hcount | by apply Hsound]];
      [cbn; apply setFirst_racks | done | done].
  - destruct msg as [placements|tileIds|]; cbn [submit].
    + pose proof (play_conserves isValid g playerId placements Hg Hev) as Hplay.
      unfold bind. by destruct (playTiles _ _ _ _) as [[?|?] ?].
    + by apply exchange_conserves.
    + destruct (pass_frame playerId g) as (Hr & Hb & Hc).
      destruct (frame_conserves g _ Hr Hb Hc) as [Hcount Hsound]. split; [done | by apply Hsound].
  - runM. destruct (g_turnTimer g); [|done]. cbn [snd].
    destruct (bool_decide _); [|done].
    match goal with
    | |- context [forcePass ?s] => destruct (forcePass_frame s) as (Hr & Hb & Hc)
    end.
    edestruct (frame_conserves g) as [Hcount Hsound];
      [exact Hr | exact Hb | exact Hc | split; [exact Hcount | by apply Hsound]].
Qed.

Lemma turns_conserve (isValid : string → bool) (random : nat → nat → nat)
    (evs : list Event) (g : Game) :
  sound g → Forall turnEvent evs →
  tileCount (runEvents isValid random evs g) = tileCount g
  ∧ sound (runEvents isValid random evs g).
Proof.
  unfold runEvents. revert g. induction evs as [|ev evs IH]; intros g Hg Hevs; cbn [foldl];
    [done|].
  apply Forall_cons in Hevs as [Hev Hevs].
  destruct (turn_conserves isValid random ev g Hg Hev) as [Hcount Hsound].
  destruct (IH _ Hsound Hevs) as [Hcount' Hsound']. split; [congruence | done].
Qed.

(** ** From a new game to a started session *)

Lemma init_ids (random : nat → nat → nat) (calls : nat) :
  length (bag_tiles (init random calls)) = 112%nat
  ∧ NoDup (map t_id (bag_tiles (init random calls))).
Proof.
  assert (Hperm : bag_tiles (init random calls) ≡ₚ fst initTiles) by apply shuffle_perm.
  split.
  - rewrite <- initTiles_count. by apply Permutation_length.
  - exact (NoDup_ids_perm _ _ Hperm initTiles_NoDup).
Qed.

Lemma newGame_inLobby (random : nat → nat → nat) (calls : nat) :
  inLobby (newGame random calls).
Proof.
  destruct (init_ids random calls) as [Hlen Hnodup].
  unfold inLobby, newGame. cbn [g_phase g_players g_tileBag g_board map].
  split_and!; [reflexivity | constructor | exact Hlen | exact Hnodup | reflexivity].
Qed.

Lemma lobby_handle (isValid : string → bool) (random : nat → nat → nat)
    (ev : Event) (g : Game) :
  inLobby g → lobbyEvent ev → inLobby (snd (handle isValid random ev g)).
Proof.
  intros (Hphase & Hracks & Hlen & Hnodup & Hboard) Hev.
  destruct ev as [id name|id|id connected| |playerId msg|]; cbn [handle lobbyEvent] in *;
    try done.
  - unfold addPlayer. runM.
    destruct (negb _); [done|]. destruct (4 <=? _)%nat; [done|]. destruct (existsb _ _); [done|].
    split_and!; try done. cbn. rewrite map_app. apply Forall_app. split; [done|].
    by repeat constructor.
  - unfold removePlayer. runM. destruct (bool_decide _); [|done].
    split_and!; try done. cbn.
    rewrite Forall_forall in Hracks. apply Forall_forall.
    intros rack (p & -> & Hp%list_elem_of_filter)%(list_elem_of_fmap_1 pl_rack).
    apply Hracks. apply (list_elem_of_fmap_2 pl_rack). apply Hp.
  - unfold setConnected. runM. split_and!; try done. cbn. by rewrite setFirst_racks.
Qed.

Lemma lobby_runEvents (isValid : string → bool) (random : nat → nat → nat)
    (evs : list Event) (g : Game) :
  inLobby g → Forall lobbyEvent evs → inLobby (runEvents isValid random evs g).
Proof.
  unfold runEvents. revert g. induction evs as [|ev evs IH]; intros g Hg Hevs; cbn [foldl];
    [done|].
  apply Forall_cons in Hevs as [Hev Hevs]. apply IH; [by apply lobby_handle | done].
Qed.

Lemma dealtFrom_concat (tiles : list Tile) (ps : list Player) :
  concat (map pl_rack (dealtFrom tiles ps)) = take (7 * length ps) tiles.
Proof.
  revert tiles. induction ps as [|p ps IH]; intros tiles; cbn [dealtFrom map concat length].
  - by rewrite Nat.mul_0_r, take_0.
  - rewrite IH. cbn [setRack pl_rack].
    rewrite <- (take_drop 7 tiles) at 3.
    destruct (decide (7 ≤ length tiles)%nat) as [Hlong|Hshort].
    + replace (7 * S (length ps))%nat with (7 + 7 * length ps)%nat by lia.
      rewrite take_app_add'; [done|]. rewrite length_take. lia.
    + rewrite (drop_ge tiles 7) by lia. rewrite take_nil, !app_nil_r.
      rewrite take_take. f_equal. lia.
Qed.

Lemma initBoard_empty : wfBoard initBoard ∧ boardTiles initBoard = 0%nat.
Proof.
  split; [split|]; [reflexivity | | reflexivity].
  apply Forall_forall. intros line Hline.
  apply elem_of_replicate in Hline as [-> _]. reflexivity.
Qed.

Lemma start_from_lobby (g g' : Game) :
  inLobby g → start g = (Ok tt, g') →
  tileCount g' = 112%nat ∧ sound g'.
Proof.
  intros (Hphase & Hracks & Hlen & Hnodup & Hboard). rewrite start_eq.
  destruct (_ <? _)%nat; [done|]. intros [= <-].
  destruct initBoard_empty as [Hwf Hzero].
  split; [|split].
  - rewrite tileCount_alt.
    cbn [g_tileBag g_players g_board setTurnTimer setTileBag setPlayers setPhase bag_tiles].
    rewrite dealtFrom_concat, Hboard, Hzero.
    rewrite length_drop, length_take. lia.
  - cbn [g_board setTurnTimer setTileBag setPlayers setPhase]. by rewrite Hboard.
  - unfold distinctIds.
    cbn [g_tileBag g_players g_board setTurnTimer setTileBag setPlayers setPhase bag_tiles].
    rewrite dealtFrom_concat.
    eapply NoDup_of_submseteq; [|exact Hnodup].
    apply (fmap_submseteq t_id), Permutation_submseteq.
    rewrite <- (take_drop (7 * length (g_players g)) (bag_tiles (g_tileBag g))) at 3.
    solve_Permutation.
Qed.

(** The positive side of C3: a session that is started from the lobby
    and then only receives intents that name no tile and no cell twice
    (and turn timeouts and connection changes) holds 112 tiles in pool,
    racks and board together, after every sequence of such events. *)
Theorem well_formed_sessions_conserve_tiles (isValid : string → bool)
    (random : nat → nat → nat) (calls : nat) (lobby turns : list Event) (g : Game) :
  Forall lobbyEvent lobby →
  start (runEvents isValid random lobby (newGame random calls)) = (Ok tt, g) →
  Forall turnEvent turns →
  tileCount (runEvents isValid random turns g) = 112%nat.
Proof.
  intros Hlobby Hstart Hturns.
  pose proof (lobby_runEvents isValid random lobby _
                (newGame_inLobby random calls) Hlobby) as Hwaiting.
  destruct (start_from_lobby _ g Hwaiting Hstart) as [Hcount Hsound].
  destruct (turns_conserve isValid random turns g Hsound Hturns) as [Hsame _].
  congruence.
Qed.

(** ** Intents that name a tile or a cell twice *)

(** C3: the code breaks the invariant on a play that names one rack
    tile twice.  "a" holds tile 0 (い) once and plays it on the start
    cell and on the cell to its right; the play is accepted as いい,
    both cells receive a copy of the tile, the rack loses one tile and
    draws one, and the session holds 113 tiles instead of 112. *)
Theorem duplicate_tile_play_adds_a_tile :
  tileCount started = 112%nat
  ∧ ∃ g', playTiles someWords "a" [mkPlacement 7 7 0 None; mkPlacement 7 8 0 None] started
          = (Ok ([("いい", 4)], 4), g')
          ∧ cellAt (g_board g') 7 7 = Some tileI
          ∧ cellAt (g_board g') 7 8 = Some tileI
          ∧ tileCount g' = 113%nat.
Proof.
  split; [vm_compute; reflexivity|].
  eexists. split_and!; vm_compute; reflexivity.
Qed.

(** The same defect in [exchangeTiles]: an exchange that names tile 0
    twice returns it to the pool twice. *)
Lemma duplicate_tile_exchange_adds_a_tile :
  ∃ g', exchangeTiles lastIndex "a" [0; 0] started = (Ok tt, g')
        ∧ tileCount g' = 113%nat
        ∧ length (filter (λ t, t_id t = 0) (bag_tiles (g_tileBag g'))) = 2%nat.
Proof. eexists. split_and!; vm_compute; reflexivity. Qed.

(** Two placements on one cell lose a tile: the second tile overwrites
    the first on the board, and both leave the rack. *)
Lemma same_cell_play_loses_a_tile :
  ∃ g', playTiles someWords "a"
          [mkPlacement 7 7 0 None; mkPlacement 7 7 1 None; mkPlacement 7 8 5 None] started
        = (Ok ([("いう", 4)], 4), g')
        ∧ tileCount g' = 111%nat.
Proof. eexists. split_and!; vm_compute; reflexivity. Qed.

(** * Further properties of the session engine *)

(** ** The steps of a turn

    What [pass], [playTiles] and [exchangeTiles] do once [assertTurn]
    has let them through, as the state each of them hands to
    [advanceTurn] and [checkGameEnd]. *)

Lemma assertTurn_ok (playerId : string) (g : Game) (player : Player) :
  assertTurn playerId g = (Ok tt, g) →
  g_players g !! g_currentPlayerIndex g = Some player →
  pl_id player = playerId.
Proof.
  unfold assertTurn. runM.
  destruct (bool_decide (g_phase g = playing)); cbn [negb]; [|done].
  destruct (bool_decide (currentPlayerId g = playerId)) eqn:Hc; cbn [negb]; [|done].
  apply bool_decide_eq_true in Hc. unfold currentPlayerId in Hc.
  intros _ Hp. by rewrite Hp in Hc.
Qed.

Lemma forcePass_steps (g : Game) (player : Player) :
  g_players g !! g_currentPlayerIndex g = Some player →
  forcePass g
  = checkGameEnd
      (snd (advanceTurn
              (pushTurn (mkTurn (pl_id player) (pl_name player) actPass None 0)
                 (setConsecutivePasses (g_consecutivePasses g + 1) g)))).
Proof.
  intros Hp. unfold forcePass. runM. rewrite Hp.
  by rewrite advanceTurn_eq.
Qed.

Lemma playTiles_steps (isValid : string → bool) (g g' : Game) (playerId : string)
    (placements : list TilePlacement) (res : list (string * Z) * Z) :
  playTiles isValid playerId placements g = (Ok res, g') →
  ∃ player wordsFound,
    g_phase g = playing
    ∧ g_players g !! g_currentPlayerIndex g = Some player
    ∧ pl_id player = playerId
    ∧ validate isValid (g_board g) placements (rackMapOf (pl_rack player)) (g_isFirstMove g)
      = Ok wordsFound
    ∧ let kept := filter (λ t, t_id t ∉ (list_to_set (map p_tileId placements) : gset Z))
                         (pl_rack player) in
      let drawn := drawToFill (length kept) (g_tileBag g) in
      checkGameEnd
        (snd (advanceTurn
                (pushTurn
                   (mkTurn (pl_id player) (pl_name player) actPlay (Some (fst res)) (snd res))
                   (setConsecutivePasses 0
                      (setIsFirstMove false
                         (setPlayers
                            (<[g_currentPlayerIndex g :=
                                 setScore (pl_score player + snd res)
                                          (setRack (kept ++ fst drawn) player)]>
                               (g_players g))
                            (setTileBag (snd drawn)
                               (setBoard
                                  (commitPlacements (rackMapOf (pl_rack player)) placements
                                     (g_board g))
                                  g))))))))
      = (Ok tt, g').
Proof.
  unfold playTiles. intros H.
  destruct (assertTurn_cases playerId g) as [(Ha & Hphase & Hcur)|[e' Ha]].
  2:{ rewrite (bind_throw _ _ _ _ _ Ha) in H. congruence. }
  rewrite (bind_ok _ _ _ _ _ Ha) in H. runM.
  destruct (g_players g !! g_currentPlayerIndex g) as [player|] eqn:Hp; [|congruence].
  destruct (validate isValid _ _ _ _) as [wordsFound|] eqn:Hvalid; [|congruence].
  destruct (scoreWords _ _) as [wordsTotal wordResults].
  destruct (drawToFill _ _) as [drawn bag] eqn:Hdraw.
  rewrite advanceTurn_eq in H.
  match type of H with
  | context [checkGameEnd ?s] => destruct (checkGameEnd_ok s) as [g2 Hend]; rewrite Hend in H
  end.
  injection H as <- <-.
  exists player, wordsFound. split_and!; try done.
  - by apply (assertTurn_ok playerId g).
  - cbv zeta. rewrite Hdraw, advanceTurn_eq. exact Hend.
Qed.

Lemma exchangeTiles_steps (random : nat → nat → nat) (g g' : Game) (playerId : string)
    (tileIds : list Z) :
  exchangeTiles random playerId tileIds g = (Ok tt, g') →
  ∃ player tiles newTiles bag,
    g_phase g = playing
    ∧ g_players g !! g_currentPlayerIndex g = Some player
    ∧ pl_id player = playerId
    ∧ exchange random tiles (g_tileBag g) = (Ok newTiles, bag)
    ∧ g' = snd (advanceTurn
                  (pushTurn (mkTurn (pl_id player) (pl_name player) actExchange None 0)
                     (setConsecutivePasses 0
                        (setPlayers
                           (<[g_currentPlayerIndex g :=
                                setRack (filter (λ t, t_id t ∉ tileIds) (pl_rack player)
                                         ++ newTiles) player]>
                              (g_players g))
                           (setTileBag bag g))))).
Proof.
  unfold exchangeTiles. intros H.
  destruct (assertTurn_cases playerId g) as [(Ha & Hphase & Hcur)|[e' Ha]].
  2:{ rewrite (bind_throw _ _ _ _ _ Ha) in H. congruence. }
  rewrite (bind_ok _ _ _ _ _ Ha) in H. runM.
  destruct (bool_decide (length tileIds = 0%nat)); [congruence|].
  destruct (remaining (g_tileBag g) <? length tileIds)%nat; [congruence|].
  destruct (g_players g !! g_currentPlayerIndex g) as [player|] eqn:Hp; [|congruence].
  destruct (findTiles (pl_rack player) tileIds []) as [tiles|] eqn:Hfind; [|congruence].
  destruct (exchange random tiles (g_tileBag g)) as [[newTiles|e'] bag] eqn:Hex; [|congruence].
  exists player, tiles, newTiles, bag. split_and!; try done.
  - by apply (assertTurn_ok playerId g).
  - exact (eq_sym (f_equal snd H)).
Qed.

(** ** Seats, turn index and turn timer of every session *)

Lemma seated_same (g g' : Game) :
  map pl_id (g_players g') = map pl_id (g_players g) →
  (g_phase g' = waiting ↔ g_phase g = waiting) →
  g_currentPlayerIndex g' = g_currentPlayerIndex g →
  seated g → seated g'.
Proof.
  intros Hids Hphase Hidx (Hlen & Hnodup & Hwait & Hplay).
  assert (Hl : length (g_players g') = length (g_players g)).
  { by rewrite <- (length_map pl_id), Hids, length_map. }
  unfold seated. rewrite Hids, Hl, Hidx. split_and!; [done | done | |].
  - intros H. apply Hwait. by apply Hphase.
  - intros H. apply Hplay. intros H'. apply H. by apply Hphase.
Qed.

Lemma insert_ids (ps : list Player) (i : nat) (p p' : Player) :
  ps !! i = Some p → pl_id p' = pl_id p → map pl_id (<[i := p']> ps) = map pl_id ps.
Proof.
  intros Hp Hid. rewrite map_insert, Hid. apply list_insert_id.
  by rewrite map_lookup, Hp.
Qed.

Lemma endGame_ids (g : Game) :
  map pl_id (g_players (snd (endGame g))) = map pl_id (g_players g).
Proof. rewrite endGame_eq. cbn. rewrite map_map. by apply map_ext. Qed.

Lemma closing_steady (g : Game) :
  g_phase g = playing → seated g →
  g_phase (snd (advanceTurn g)) = playing
  ∧ steady (snd (advanceTurn g))
  ∧ steady (snd (checkGameEnd (snd (advanceTurn g)))).
Proof.
  intros Hphase Hg. pose proof Hg as (Hlen & Hnodup & Hwait & Hplay).
  destruct Hplay as [Hmin Hidx]; [congruence|].
  rewrite advanceTurn_eq, (bool_decide_eq_true_2 _ Hphase). cbn [snd].
  set (s := setTurnTimer true _).
  assert (Hs : steady s).
  { split.
    - unfold seated, s. cbn. split_and!; [done | done | congruence |].
      intros _. split; [done|]. apply Nat.mod_upper_bound. lia.
    - unfold timed, s. cbn. by rewrite (bool_decide_eq_true_2 _ Hphase). }
  split_and!; [exact Hphase | exact Hs |].
  destruct (checkGameEnd_cases s) as [-> | ->]; [exact Hs|].
  destruct Hs as [Hseat _]. split.
  - apply (seated_same s); [apply endGame_ids | | | exact Hseat].
    + rewrite endGame_eq. cbn. unfold s. cbn. rewrite Hphase. split; congruence.
    + by rewrite endGame_eq.
  - rewrite endGame_eq. unfold timed. cbn. done.
Qed.

Lemma dealtFrom_ids (tiles : list Tile) (ps : list Player) :
  map pl_id (dealtFrom tiles ps) = map pl_id ps.
Proof.
  revert tiles. induction ps as [|p ps IH]; intros tiles; cbn [dealtFrom map]; [done|].
  by rewrite IH.
Qed.

Lemma setFirst_ids (id : string) (connected : bool) (ps : list Player) :
  map pl_id (setFirst id connected ps) = map pl_id ps.
Proof.
  induction ps as [|p ps IH]; [done|]. cbn [setFirst].
  destruct (bool_decide (pl_id p = id)); cbn [map]; [done|]. by rewrite IH.
Qed.

Lemma existsb_id (id : string) (ps : list Player) :
  existsb (λ p, bool_decide (pl_id p = id)) ps = true ↔ id ∈ map pl_id ps.
Proof.
  rewrite existsb_exists. split.
  - intros (p & Hp%list_elem_of_In & <-%bool_decide_eq_true).
    by apply (list_elem_of_fmap_2 pl_id).
  - intros (p & -> & Hp)%(list_elem_of_fmap_1 pl_id).
    exists p. split; [by apply list_elem_of_In | by apply bool_decide_eq_true].
Qed.

Lemma seated_current (g : Game) :
  seated g → g_phase g ≠ waiting → is_Some (g_players g !! g_currentPlayerIndex g).
Proof.
  intros (_ & _ & _ & Hplay) Hphase. apply lookup_lt_is_Some. by apply Hplay.
Qed.

Lemma forcePass_steady (g : Game) :
  g_phase g = playing → seated g → steady (snd (forcePass g)).
Proof.
  intros Hphase Hseat.
  destruct (seated_current g Hseat) as [player Hp]; [congruence|].
  rewrite (forcePass_steps g player Hp).
  match goal with
  | |- context [advanceTurn ?s] => apply (closing_steady s); [exact Hphase|]
  end.
  by apply (seated_same g).
Qed.

Lemma handle_steady (isValid : string → bool) (random : nat → nat → nat)
    (ev : Event) (g : Game) :
  steady g → steady (snd (handle isValid random ev g)).
Proof.
  intros [Hseat Htime]. pose proof Hseat as (Hlen & Hnodup & Hwait & Hplay).
  destruct ev as [id name|id|id connected| |playerId msg|]; cbn [handle].
  - unfold addPlayer. runM.
    destruct (bool_decide (g_phase g = waiting)) eqn:Hw; cbn [negb]; [|done].
    apply bool_decide_eq_true in Hw.
    destruct (4 <=? _)%nat eqn:Hfull; [done|]. apply Nat.leb_gt in Hfull.
    destruct (existsb _ _) eqn:Hex; [done|]. cbn [snd]. split.
    + unfold seated. cbn. rewrite map_app, length_app. cbn. split_and!.
      * lia.
      * apply NoDup_app. split_and!; [done | | apply NoDup_singleton].
        intros x Hx ->%list_elem_of_singleton.
        apply existsb_id in Hx. congruence.
      * auto.
      * intros H. done.
    + exact Htime.
  - runM. destruct (bool_decide (g_phase g = waiting)) eqn:Hw; [|done].
    apply bool_decide_eq_true in Hw. unfold removePlayer. runM. cbn [snd]. split.
    + unfold seated. cbn. split_and!.
      * etransitivity; [apply length_filter | done].
      * eapply NoDup_of_submseteq; [|exact Hnodup].
        apply (fmap_submseteq pl_id), sublist_submseteq, sublist_filter.
      * auto.
      * intros H. done.
    + exact Htime.
  - unfold setConnected. runM. cbn [snd]. split; [|exact Htime].
    apply (seated_same g); [apply setFirst_ids | done | done | exact Hseat].
  - rewrite start_eq. destruct (_ <? _)%nat eqn:Hn; [done|]. apply Nat.ltb_ge in Hn.
    cbn [snd]. split.
    + unfold seated. cbn. rewrite dealtFrom_ids, dealtFrom_length.
      split_and!; [done | done | done |].
      intros _. split; [done|].
      destruct (decide (g_phase g = waiting)) as [Hw|Hw]; [rewrite Hwait by done; lia|].
      by apply Hplay.
    + reflexivity.
  - destruct msg as [placements|tileIds|]; cbn [submit].
    + unfold bind.
      destruct (playTiles _ _ _ _) as [[res|e] g'] eqn:Hplay'; cbn [snd].
      2:{ by apply playTiles_throw in Hplay' as ->. }
      apply playTiles_steps in Hplay' as (player & wordsFound & Hphase & Hp & _ & _ & Hend).
      cbv zeta in Hend.
      match type of Hend with
      | checkGameEnd (snd (advanceTurn ?s)) = _ =>
          destruct (closing_steady s) as (_ & _ & Hs); [exact Hphase | |]
      end.
      * apply (seated_same g); [by apply (insert_ids _ _ player) | done | done | exact Hseat].
      * by rewrite Hend in Hs.
    + destruct (exchangeTiles _ _ _ _) as [[[]|e] g'] eqn:Hex; cbn [snd].
      2:{ by apply exchangeTiles_throw in Hex as ->. }
      apply exchangeTiles_steps in Hex
        as (player & tiles & newTiles & bag & Hphase & Hp & _ & _ & ->).
      match goal with
      | |- steady (snd (advanceTurn ?s)) =>
          destruct (closing_steady s) as (_ & Hs & _); [exact Hphase | | exact Hs]
      end.
      apply (seated_same g); [by apply (insert_ids _ _ player) | done | done | exact Hseat].
    + unfold pass.
      destruct (assertTurn_cases playerId g) as [(Ha & Hphase & _)|[e Ha]].
      * rewrite (bind_ok _ _ _ _ _ Ha). by apply forcePass_steady.
      * by rewrite (bind_throw _ _ _ _ _ Ha).
  - runM. destruct (g_turnTimer g) eqn:Ht; [|done].
    unfold timed in Htime. rewrite Ht in Htime. symmetry in Htime.
    rewrite Htime. apply bool_decide_eq_true in Htime.
    apply forcePass_steady; [done|].
    by apply (seated_same g).
Qed.

Lemma newGame_steady (random : nat → nat → nat) (calls : nat) : steady (newGame random calls).
Proof.
  split; [|reflexivity]. unfold seated. cbn. split_and!; [lia | constructor | done | done].
Qed.

Lemma reachable_steady (isValid : string → bool) (random : nat → nat → nat) (g : Game) :
  reachable isValid random g → steady g.
Proof.
  intros (calls & evs & ->). unfold runEvents.
  generalize (newGame_steady random calls). generalize (newGame random calls).
  induction evs as [|ev evs IH]; intros g0 Hg0; cbn [foldl]; [done|].
  by apply IH, handle_steady.
Qed.








(** X2: in every session that a new game can get to, a turn timeout is
    pending exactly while the phase is playing: a game that is being
    played always has a running turn clock, and no turn clock is left
    behind in the waiting room or after the end of the game. *)
Theorem turn_timer_runs_exactly_while_playing (isValid : string → bool)
    (random : nat → nat → nat) (g : Game) :
  reachable isValid random g →
  (g_turnTimer g = true ↔ g_phase g = playing).
Proof.
  intros [_ Htime]%reachable_steady. unfold timed in Htime. rewrite Htime.
  apply bool_decide_eq_true.
Qed.

(** X2, after the pass that ends the game of "a" and "b". *)
Lemma turn_timer_runs_exactly_while_playing_witness :
  g_turnTimer (runGame (pass "b") beforeLastPass) = true
  ↔ g_phase (runGame (pass "b") beforeLastPass) = playing.
Proof.
  apply (turn_timer_runs_exactly_while_playing someWords blankFirst).
  exists 0%nat, [Join "a" "A"; Join "b" "B"; StartGame;
                 Submit "a" PASS; Submit "b" PASS; Submit "a" PASS; Submit "b" PASS].
  vm_compute. reflexivity.
Defined.

(** ** Scores and the turn history *)

Lemma sumZ_app (l k : list Z) : sumZ (l ++ k) = sumZ l + sumZ k.
Proof.
  unfold sumZ. induction l as [|x l IH]; cbn [app foldr]; [lia|]. rewrite IH. lia.
Qed.

Lemma recorded_snoc (id : string) (history : list TurnRecord) (t : TurnRecord) :
  recorded id (history ++ [t])
  = recorded id history + (if decide (tr_playerId t = id) then tr_totalScore t else 0).
Proof.
  unfold recorded. rewrite filter_app, map_app, sumZ_app, filter_cons, filter_nil.
  destruct (decide (tr_playerId t = id)); cbn; lia.
Qed.

Lemma accounted_same (g g' : Game) :
  seats g' = seats g → g_turnHistory g' = g_turnHistory g → g_phase g' = g_phase g →
  accounted g → accounted g'.
Proof.
  unfold seats, accounted, leftOnRack. intros Hseats -> ->. rewrite !Forall_lookup.
  intros Hg i p' Hp'.
  assert (Hi : map (λ p, (pl_id p, pl_score p, pl_rack p)) (g_players g') !! i
               = Some (pl_id p', pl_score p', pl_rack p')) by (by rewrite map_lookup, Hp').
  rewrite Hseats, map_lookup in Hi.
  destruct (g_players g !! i) as [p|] eqn:Hp; [|done].
  injection Hi as <- <- <-. by apply (Hg i).
Qed.

Lemma accounted_turn (g s : Game) (player : Player) (t : TurnRecord) (rack : list Tile) :
  NoDup (map pl_id (g_players g)) →
  g_players g !! g_currentPlayerIndex g = Some player →
  g_phase g = playing → g_phase s = playing →
  g_turnHistory s = g_turnHistory g ++ [t] →
  tr_playerId t = pl_id player →
  g_players s
  = <[g_currentPlayerIndex g :=
        setScore (pl_score player + tr_totalScore t) (setRack rack player)]> (g_players g) →
  accounted g → accounted s.
Proof.
  unfold accounted, leftOnRack. intros Hnodup Hp Hphase -> -> Hid ->.
  rewrite Hphase, !Forall_lookup, !(bool_decide_eq_false_2 (playing = finished)) by done.
  cbn. intros Hg i p' Hp'. rewrite recorded_snoc.
  destruct (decide (i = g_currentPlayerIndex g)) as [->|Hne].
  - rewrite list_lookup_insert_eq in Hp' by (by eapply lookup_lt_Some).
    injection Hp' as <-. cbn. rewrite (decide_True _ _ Hid).
    specialize (Hg _ _ Hp). cbn in Hg. lia.
  - rewrite list_lookup_insert_ne in Hp' by done.
    specialize (Hg _ _ Hp'). cbn in Hg. rewrite decide_False; [lia|].
    rewrite Hid. intros Heq. apply Hne.
    apply (NoDup_lookup _ _ _ (pl_id p') Hnodup).
    + by rewrite map_lookup, Hp'.
    + by rewrite map_lookup, Hp, <- Heq.
Qed.

Lemma accounted_endGame (g : Game) :
  g_phase g = playing → accounted g → accounted (snd (endGame g)).
Proof.
  unfold accounted, leftOnRack. intros Hphase. rewrite endGame_eq, Hphase.
  rewrite (bool_decide_eq_false_2 (playing = finished)) by done.
  cbn [snd g_players g_phase g_turnHistory setPlayers setTurnTimer setPhase].
  rewrite (bool_decide_eq_true_2 (finished = finished)) by done.
  rewrite Forall_map. intros Hg. eapply Forall_impl; [exact Hg|].
  intros p Hp. unfold compose. cbn beta in Hp. cbn [pl_score pl_id pl_rack setScore]. lia.
Qed.

Lemma closing_accounted (g : Game) :
  g_phase g = playing → accounted g →
  (g_phase (snd (advanceTurn g)) ≠ waiting ∧ accounted (snd (advanceTurn g)))
  ∧ (g_phase (snd (checkGameEnd (snd (advanceTurn g)))) ≠ waiting
     ∧ accounted (snd (checkGameEnd (snd (advanceTurn g))))).
Proof.
  intros Hphase Hg.
  rewrite advanceTurn_eq, (bool_decide_eq_true_2 _ Hphase). cbn [snd].
  set (s := setTurnTimer true _).
  assert (Hs : accounted s) by (by apply (accounted_same g)).
  assert (Hplaying : g_phase s = playing) by exact Hphase.
  split; [split; [by rewrite Hplaying | exact Hs]|].
  destruct (checkGameEnd_cases s) as [-> | ->]; cbn [snd];
    [split; [by rewrite Hplaying | exact Hs]|].
  split; [by rewrite endGame_eq | by apply accounted_endGame].
Qed.

Lemma forcePass_accounted (g : Game) :
  g_phase g = playing → seated g → accounted g →
  g_phase (snd (forcePass g)) ≠ waiting ∧ accounted (snd (forcePass g)).
Proof.
  intros Hphase Hseat Hg.
  destruct (seated_current g Hseat) as [player Hp]; [congruence|].
  rewrite (forcePass_steps g player Hp).
  match goal with
  | |- context [advanceTurn ?s] => apply (closing_accounted s); [exact Hphase|]
  end.
  apply (accounted_turn g _ player (mkTurn (pl_id player) (pl_name player) actPass None 0)
           (pl_rack player)); try done; [apply Hseat|].
  cbn. rewrite Z.add_0_r. symmetry.
  replace (setScore (pl_score player) (setRack (pl_rack player) player)) with player
    by (by destruct player).
  by apply list_insert_id.
Qed.

Lemma handle_accounted (isValid : string → bool) (random : nat → nat → nat)
    (ev : Event) (g : Game) :
  tableEvent ev → steady g → g_phase g ≠ waiting → accounted g →
  g_phase (snd (handle isValid random ev g)) ≠ waiting
  ∧ accounted (snd (handle isValid random ev g)).
Proof.
  intros Hev [Hseat Htime] Hstarted Hg.
  destruct ev as [id name|id|id connected| |playerId msg|]; cbn [handle tableEvent] in *;
    try done.
  - unfold addPlayer. runM. by rewrite (bool_decide_eq_false_2 _ Hstarted).
  - runM. by rewrite (bool_decide_eq_false_2 _ Hstarted).
  - unfold setConnected. runM. cbn [snd]. split; [done|].
    apply (accounted_same g); try done.
    unfold seats. cbn. apply setFirst_seats.
  - destruct msg as [placements|tileIds|]; cbn [submit].
    + unfold bind.
      destruct (playTiles _ _ _ _) as [[res|e] g'] eqn:Hplay; cbn [snd].
      2:{ by apply playTiles_throw in Hplay as ->. }
      apply playTiles_steps in Hplay as (player & wordsFound & Hphase & Hp & _ & _ & Hend).
      cbv zeta in Hend.
      match type of Hend with
      | checkGameEnd (snd (advanceTurn ?s)) = _ =>
          destruct (closing_accounted s) as (_ & Hs); [exact Hphase | |]
      end.
      * eapply (accounted_turn g _ player); try done.
        all: try apply Hseat; try reflexivity.
      * by rewrite Hend in Hs.
    + destruct (exchangeTiles _ _ _ _) as [[[]|e] g'] eqn:Hex; cbn [snd].
      2:{ by apply exchangeTiles_throw in Hex as ->. }
      apply exchangeTiles_steps in Hex
        as (player & tiles & newTiles & bag & Hphase & Hp & _ & _ & ->).
      match goal with
      | |- context [advanceTurn ?s] =>
          destruct (closing_accounted s) as (Hs & _); [exact Hphase | | exact Hs]
      end.
      eapply (accounted_turn g _ player); try done.
      all: try apply Hseat; try reflexivity.
      cbn. rewrite Z.add_0_r. f_equal.
    + unfold pass.
      destruct (assertTurn_cases playerId g) as [(Ha & Hphase & _)|[e Ha]].
      * rewrite (bind_ok _ _ _ _ _ Ha). by apply forcePass_accounted.
      * by rewrite (bind_throw _ _ _ _ _ Ha).
  - runM. destruct (g_turnTimer g) eqn:Ht; [|done].
    unfold timed in Htime. rewrite Ht in Htime. symmetry in Htime.
    rewrite Htime. apply bool_decide_eq_true in Htime.
    apply forcePass_accounted; [done | by apply (seated_same g) | by apply (accounted_same g)].
Qed.

Lemma handle_opening (isValid : string → bool) (random : nat → nat → nat)
    (ev : Event) (g : Game) :
  lobbyEvent ev → opening g → opening (snd (handle isValid random ev g)).
Proof.
  intros Hev (Hphase & Hhistory & Hscores).
  destruct ev as [id name|id|id connected| |playerId msg|]; cbn [handle lobbyEvent] in *;
    try done.
  - unfold addPlayer. runM.
    destruct (negb _); [done|]. destruct (4 <=? _)%nat; [done|]. destruct (existsb _ _); [done|].
    split_and!; try done. cbn. apply Forall_app. split; [done|]. by apply Forall_singleton.
  - runM. destruct (bool_decide _); [|done]. unfold removePlayer. runM.
    split_and!; try done. cbn. rewrite Forall_forall in Hscores. apply Forall_forall.
    intros p [_ Hp]%list_elem_of_filter. by apply Hscores.
  - unfold setConnected. runM. split_and!; try done. cbn.
    clear Hphase Hhistory. induction Hscores as [|p ps Hp Hps IH]; [constructor|].
    cbn [setFirst].
    destruct (bool_decide (pl_id p = id)); constructor; done.
Qed.

Lemma dealtFrom_scores (tiles : list Tile) (ps : list Player) :
  Forall (λ p, pl_score p = 0) ps → Forall (λ p, pl_score p = 0) (dealtFrom tiles ps).
Proof.
  intros Hps. revert tiles. induction Hps as [|p ps Hp _ IH]; intros tiles; cbn [dealtFrom];
    constructor; [done | apply IH].
Qed.

Lemma runEvents_app (isValid : string → bool) (random : nat → nat → nat)
    (evs evs' : list Event) (g : Game) :
  runEvents isValid random (evs ++ evs') g
  = runEvents isValid random evs' (runEvents isValid random evs g).
Proof. unfold runEvents. apply foldl_app. Qed.

Lemma started_session (isValid : string → bool) (random : nat → nat → nat)
    (calls : nat) (lobby : list Event) (g : Game) :
  start (runEvents isValid random lobby (newGame random calls)) = (Ok tt, g) →
  reachable isValid random g.
Proof.
  intros Hstart. exists calls, (lobby ++ [StartGame]).
  rewrite runEvents_app. unfold runEvents at 1. cbn [foldl handle]. by rewrite Hstart.
Qed.

Lemma runEvents_opening (isValid : string → bool) (random : nat → nat → nat)
    (evs : list Event) (g : Game) :
  Forall lobbyEvent evs → opening g → opening (runEvents isValid random evs g).
Proof.
  unfold runEvents. intros Hevs. revert g.
  induction Hevs as [|ev evs Hev _ IH]; intros g Hg; cbn [foldl]; [done|].
  by apply IH, handle_opening.
Qed.

(** X3: the books of a session balance.  In a session that was started
    from the waiting room, whatever events other than START_GAME follow
    (intents that succeed or fail, turn timeouts, joins, leaves,
    connections lost and restored), the score of every seat is the sum
    of the turn totals that the history records under the id of the
    seat, minus, once the game is finished, the points of the tiles
    left on its rack. *)
Theorem scores_follow_the_history (isValid : string → bool) (random : nat → nat → nat)
    (calls : nat) (lobby turns : list Event) (g : Game) :
  Forall lobbyEvent lobby →
  start (runEvents isValid random lobby (newGame random calls)) = (Ok tt, g) →
  Forall tableEvent turns →
  accounted (runEvents isValid random turns g).
Proof.
  intros Hlobby Hstart Hturns.
  pose proof (reachable_steady _ _ _ (started_session isValid random calls lobby g Hstart))
    as Hsteady.
  assert (H0 : opening (newGame random calls)) by (split_and!; [done | done | constructor]).
  destruct (runEvents_opening isValid random lobby _ Hlobby H0) as (_ & Hhistory & Hscores).
  rewrite start_eq in Hstart. destruct (_ <? _)%nat; [done|]. injection Hstart as <-.
  match goal with
  | |- accounted (runEvents _ _ _ ?s) =>
      assert (Hs : g_phase s ≠ waiting ∧ accounted s)
  end.
  { split; [done|]. unfold accounted, leftOnRack. cbn. rewrite Hhistory.
    eapply Forall_impl; [by apply dealtFrom_scores|]. intros p ->. done. }
  revert Hsteady Hs. unfold runEvents.
  match goal with
  | |- steady ?s → _ => generalize s
  end.
  induction Hturns as [|ev evs Hev _ IH]; intros g0 Hsteady [Hphase Hg0]; cbn [foldl];
    [done|].
  apply IH; [by apply handle_steady | by apply handle_accounted].
Qed.

(** X3, at the session of "a" and "b" in which "a" plays いう for 4
    points and "b" passes. *)
Lemma scores_follow_the_history_witness :
  accounted
    (runEvents someWords lastIndex
       [Submit "a" (PLAY_TILES [mkPlacement 7 7 0 None; mkPlacement 7 8 5 None]);
        Submit "b" PASS]
       started).
Proof.
  apply (scores_follow_the_history someWords lastIndex 0
           [Join "a" "A"; Join "b" "B"]
           [Submit "a" (PLAY_TILES [mkPlacement 7 7 0 None; mkPlacement 7 8 5 None]);
            Submit "b" PASS]
           started).
  - repeat constructor.
  - vm_compute. reflexivity.
  - repeat constructor.
Defined.

(** ** The end of the game, seen from a turn *)

Lemma checkGameEnd_finishes (g : Game) :
  g_phase g = playing →
  let over :=
    Z.of_nat (length (g_players g)) * 2 ≤ g_consecutivePasses g
    ∨ (Exists (λ p, pl_rack p = []) (g_players g) ∧ bag_tiles (g_tileBag g) = []) in
  (over → checkGameEnd g = endGame g)
  ∧ (¬ over → checkGameEnd g = (Ok tt, g)).
Proof.
  intros Hphase over. subst over. unfold checkGameEnd, isEmpty. runM.
  destruct (g_consecutivePasses g >=? _) eqn:Hpasses.
  { rewrite Z.geb_leb in Hpasses. apply Z.leb_le in Hpasses. split; [done|]. intros H.
    exfalso. apply H. by left. }
  rewrite Z.geb_leb in Hpasses. apply Z.leb_gt in Hpasses.
  destruct (find _ _) as [p|] eqn:Hfind.
  - apply find_some in Hfind as [Hin%list_elem_of_In Hempty%bool_decide_eq_true].
    apply nil_length_inv in Hempty.
    destruct (bool_decide (length (bag_tiles (g_tileBag g)) = 0%nat)) eqn:Hbag.
    + split; [done|]. intros H. exfalso. apply H. right.
      apply bool_decide_eq_true, nil_length_inv in Hbag. split; [|done].
      apply Exists_exists. by exists p.
    + apply bool_decide_eq_false in Hbag. split; [|done].
      intros [H|[_ H]]; [lia|]. rewrite H in Hbag. done.
  - split; [|done]. intros [H|[H _]]; [lia|].
    apply Exists_exists in H as (p & Hin & Hempty).
    apply list_elem_of_In in Hin. apply (find_none _ _ Hfind) in Hin.
    apply bool_decide_eq_false in Hin. by rewrite Hempty in Hin.
Qed.

(** X4: what a pass does.  When it is the turn of [playerId] in a game
    that is being played, [pass] succeeds, appends a pass record with
    score zero to the history and counts one more consecutive pass.  It
    ends the game exactly when that count reaches twice the number of
    seats, or when some rack is empty while the pool is empty; in every
    other case the game goes on, the seats are untouched and the turn
    moves to the next seat in order, wrapping around. *)
Theorem pass_ends_the_game_when (g : Game) (playerId : string) (player : Player) :
  g_phase g = playing →
  g_players g !! g_currentPlayerIndex g = Some player →
  pl_id player = playerId →
  ∃ g', pass playerId g = (Ok tt, g')
    ∧ g_turnHistory g'
      = g_turnHistory g ++ [mkTurn playerId (pl_name player) actPass None 0]
    ∧ g_consecutivePasses g' = g_consecutivePasses g + 1
    ∧ (g_phase g' = finished
       ↔ Z.of_nat (length (g_players g)) * 2 ≤ g_consecutivePasses g + 1
         ∨ (Exists (λ p, pl_rack p = []) (g_players g) ∧ bag_tiles (g_tileBag g) = []))
    ∧ (g_phase g' ≠ finished →
         g_phase g' = playing
         ∧ g_players g' = g_players g
         ∧ g_currentPlayerIndex g'
           = ((g_currentPlayerIndex g + 1) `mod` length (g_players g))%nat).
Proof.
  intros Hphase Hp <-. unfold pass.
  assert (Ha : assertTurn (pl_id player) g = (Ok tt, g)).
  { unfold assertTurn, currentPlayerId. runM.
    rewrite (bool_decide_eq_true_2 _ Hphase), Hp. cbn [negb].
    by rewrite bool_decide_eq_true_2. }
  rewrite (bind_ok _ _ _ _ _ Ha), (forcePass_steps g player Hp).
  rewrite advanceTurn_eq.
  cbn [g_phase g_players g_currentPlayerIndex pushTurn setConsecutivePasses snd].
  rewrite (bool_decide_eq_true_2 _ Hphase).
  match goal with
  | |- context [checkGameEnd ?s] =>
      destruct (checkGameEnd_finishes s Hphase) as [Hover Hon]
  end.
  cbn [g_players g_consecutivePasses g_tileBag g_currentPlayerIndex g_turnHistory g_phase
         setTurnTimer setCurrentPlayerIndex pushTurn setConsecutivePasses] in Hover, Hon.
  match type of Hover with
  | ?over → _ => destruct (decide over) as [Hyes|Hno]
  end.
  - rewrite (Hover Hyes), endGame_eq. eexists. split; [reflexivity|]. cbn.
    split_and!; try done.
  - rewrite (Hon Hno). eexists. split; [reflexivity|]. cbn.
    split_and!; try done. split; [congruence | done].
Qed.

(** X4, at the first pass of "a" and at the pass of "b" that ends the
    game of the two. *)
Lemma pass_ends_the_game_when_witness :
  (∃ g', pass "a" started = (Ok tt, g')
     ∧ g_turnHistory g' = g_turnHistory started ++ [mkTurn "a" "A" actPass None 0]
     ∧ g_consecutivePasses g' = g_consecutivePasses started + 1
     ∧ (g_phase g' = finished
        ↔ Z.of_nat (length (g_players started)) * 2 ≤ g_consecutivePasses started + 1
          ∨ (Exists (λ p, pl_rack p = []) (g_players started)
             ∧ bag_tiles (g_tileBag started) = []))
     ∧ (g_phase g' ≠ finished →
          g_phase g' = playing
          ∧ g_players g' = g_players started
          ∧ g_currentPlayerIndex g'
            = ((g_currentPlayerIndex started + 1) `mod` length (g_players started))%nat))
  ∧ g_phase (runGame (pass "b") beforeLastPass) = finished.
Proof.
  split.
  - apply (pass_ends_the_game_when started "a" (mkPlayer "a" "A" 0 (tableTiles (seq 0 7)) true)).
    + vm_compute. reflexivity.
    + vm_compute. reflexivity.
    + reflexivity.
  - vm_compute. reflexivity.
Defined.

(** X5: what a successful play does to the course of the game.  It
    clears the first-move flag and resets the count of consecutive
    passes, and it ends the game exactly when, after the rack of the
    mover was refilled, some rack is empty while the pool is empty;
    otherwise the game goes on with the next seat in order. *)
Theorem play_ends_the_game_when (isValid : string → bool) (g g' : Game)
    (playerId : string) (placements : list TilePlacement) (res : list (string * Z) * Z) :
  playTiles isValid playerId placements g = (Ok res, g') →
  g_isFirstMove g' = false
  ∧ g_consecutivePasses g' = 0
  ∧ (g_phase g' = finished
     ↔ Exists (λ p, pl_rack p = []) (g_players g') ∧ bag_tiles (g_tileBag g') = [])
  ∧ (g_phase g' ≠ finished →
       g_phase g' = playing
       ∧ g_currentPlayerIndex g'
         = ((g_currentPlayerIndex g + 1) `mod` length (g_players g))%nat).
Proof.
  intros (player & wordsFound & Hphase & Hp & _ & _ & Hend)%playTiles_steps.
  cbv zeta in Hend. rewrite advanceTurn_eq in Hend.
  cbn [g_phase g_players g_currentPlayerIndex pushTurn setConsecutivePasses setIsFirstMove
         setPlayers setTileBag setBoard snd] in Hend.
  rewrite (bool_decide_eq_true_2 _ Hphase), length_insert in Hend.
  match type of Hend with
  | checkGameEnd ?s = _ => destruct (checkGameEnd_finishes s Hphase) as [Hover Hon]
  end.
  cbn [g_players g_consecutivePasses g_tileBag g_currentPlayerIndex g_turnHistory g_phase
         setTurnTimer setCurrentPlayerIndex pushTurn setConsecutivePasses setIsFirstMove
         setPlayers setTileBag setBoard] in Hover, Hon.
  assert (Hseats : (0 < length (g_players g))%nat).
  { apply lookup_lt_Some in Hp. lia. }
  rewrite length_insert in Hover, Hon.
  match type of Hover with
  | (_ ∨ ?out) → _ => destruct (decide out) as [Hyes|Hno]
  end.
  - rewrite Hover, endGame_eq in Hend by (by right). injection Hend as <-. cbn.
    assert (Hracks : ∀ ps : list Player,
              Exists (λ p, pl_rack p = [])
                (map (λ player, setScore (pl_score player - rackPoints (pl_rack player)) player)
                     ps)
              ↔ Exists (λ p, pl_rack p = []) ps).
    { intros ps. rewrite Exists_fmap. done. }
    rewrite Hracks. split_and!; try done.
  - rewrite Hon in Hend by (intros [H|H]; [lia | done]). injection Hend as <-. cbn.
    split_and!; try done. split; [congruence | done].
Qed.

(** X5, at the play of いう by "a" as the first move. *)
Lemma play_ends_the_game_when_witness :
  let g' := runGame (playTiles someWords "a" [mkPlacement 7 7 0 None; mkPlacement 7 8 5 None])
              started in
  g_isFirstMove g' = false
  ∧ g_consecutivePasses g' = 0
  ∧ (g_phase g' = finished
     ↔ Exists (λ p, pl_rack p = []) (g_players g') ∧ bag_tiles (g_tileBag g') = [])
  ∧ (g_phase g' ≠ finished →
       g_phase g' = playing
       ∧ g_currentPlayerIndex g'
         = ((g_currentPlayerIndex started + 1) `mod` length (g_players started))%nat).
Proof.
  apply (play_ends_the_game_when someWords started _ "a"
           [mkPlacement 7 7 0 None; mkPlacement 7 8 5 None] ([("いう", 4)], 4)).
  vm_compute. reflexivity.
Defined.

(** X6: a finished game stays as it is.  In every session that a new
    game can get to and that is finished, each intent is refused with
    the error of a game that is not being played, and every event other
    than START_GAME leaves the session as it was, except that a
    connection lost or restored may change the connected flag of a seat:
    board, pool, history, scores, racks, turn index and phase stay. *)
Theorem finished_game_is_final (isValid : string → bool) (random : nat → nat → nat)
    (g : Game) :
  reachable isValid random g →
  g_phase g = finished →
  (∀ playerId msg,
     fst (handle isValid random (Submit playerId msg) g) = Throw ErrNotStarted)
  ∧ ∀ ev, tableEvent ev →
      snd (handle isValid random ev g)
      = setPlayers (g_players (snd (handle isValid random ev g))) g
      ∧ seats (snd (handle isValid random ev g)) = seats g.
Proof.
  intros [_ Htime]%reachable_steady Hphase.
  assert (Hassert : ∀ playerId, assertTurn playerId g = (Throw ErrNotStarted, g)).
  { intros playerId. unfold assertTurn. runM. by rewrite Hphase. }
  assert (Hsame : g = setPlayers (g_players g) g) by (by destruct g).
  assert (Hsubmit : ∀ playerId msg,
            submit isValid random playerId msg g = (Throw ErrNotStarted, g)).
  { intros playerId [placements|tileIds|]; cbn [submit].
    - unfold bind at 1. unfold playTiles. by rewrite (bind_throw _ _ _ _ _ (Hassert playerId)).
    - unfold exchangeTiles. by rewrite (bind_throw _ _ _ _ _ (Hassert playerId)).
    - unfold pass. by rewrite (bind_throw _ _ _ _ _ (Hassert playerId)). }
  split.
  - intros playerId msg. cbn [handle]. by rewrite Hsubmit.
  - intros ev Hev.
    destruct ev as [id name|id|id connected| |playerId msg|]; cbn [handle tableEvent] in *;
      try done.
    + unfold addPlayer. runM. by rewrite Hphase.
    + runM. by rewrite Hphase.
    + unfold setConnected. runM. cbn [snd]. split; [done|].
      unfold seats. cbn. apply setFirst_seats.
    + by rewrite Hsubmit.
    + runM. unfold timed in Htime. rewrite Htime, Hphase. done.
Qed.

(** X6, after the pass that ends the game of "a" and "b". *)
Lemma finished_game_is_final_witness :
  let g := runGame (pass "b") beforeLastPass in
  (∀ playerId msg,
     fst (handle someWords blankFirst (Submit playerId msg) g) = Throw ErrNotStarted)
  ∧ ∀ ev, tableEvent ev →
      snd (handle someWords blankFirst ev g)
      = setPlayers (g_players (snd (handle someWords blankFirst ev g))) g
      ∧ seats (snd (handle someWords blankFirst ev g)) = seats g.
Proof.
  apply (finished_game_is_final someWords blankFirst).
  - exists 0%nat, [Join "a" "A"; Join "b" "B"; StartGame;
                   Submit "a" PASS; Submit "b" PASS; Submit "a" PASS; Submit "b" PASS].
    vm_compute. reflexivity.
  - vm_compute. reflexivity.
Defined.

(** ** What the validator accepts *)

Lemma string_app_assoc (a b c : string) : (a +:+ b) +:+ c = a +:+ (b +:+ c).
Proof.
  induction a as [|x a IH]; [done|].
  change (String x ((a +:+ b) +:+ c) = String x (a +:+ (b +:+ c))). by rewrite IH.
Qed.

Lemma string_app_nil_r (a : string) : a +:+ "" = a.
Proof.
  induction a as [|x a IH]; [done|].
  change (String x (a +:+ "") = String x a). by rewrite IH.
Qed.

Lemma spell_app (tiles more : list WordTile) :
  spell (tiles ++ more) = spell tiles +:+ spell more.
Proof.
  induction tiles as [|wt tiles IH]; [done|].
  cbn [app spell foldr]. fold (spell (tiles ++ more)). fold (spell tiles).
  by rewrite IH, string_app_assoc.
Qed.

Lemma collectRun_spell (fuel : nat) (board : Board) (cells : gset (Z * Z))
    (dr dc r c : Z) (word : string) (tiles : list WordTile) :
  word = spell tiles →
  fst (collectRun fuel board cells dr dc r c word tiles)
  = spell (snd (collectRun fuel board cells dr dc r c word tiles)).
Proof.
  revert r c word tiles. induction fuel as [|fuel IH]; intros r c word tiles Hword;
    cbn [collectRun]; [done|].
  destruct ((r <? BOARD_SIZE) && (c <? BOARD_SIZE)); [|done].
  destruct (cellAt board r c) as [tile|]; [|done].
  apply IH. rewrite spell_app, Hword. cbn. by rewrite string_app_nil_r.
Qed.

Lemma getWordAt_spelled (board : Board) (row col : Z) (direction : Direction)
    (cells : gset (Z * Z)) (w : WordFound) :
  getWordAt board row col direction cells = Some w →
  w_word w = spell (w_tiles w) ∧ (2 ≤ length (w_tiles w))%nat.
Proof.
  unfold getWordAt. destruct (stepOf direction) as [dr dc].
  destruct (wordStart _ _ _ _ _ _) as [r c].
  pose proof (collectRun_spell loopFuel board cells dr dc r c "" [] eq_refl) as H.
  destruct (collectRun _ _ _ _ _ _ _ _ _) as [word tiles].
  destruct (length tiles <? 2)%nat eqn:Hlen; [done|]. apply Nat.ltb_ge in Hlen.
  by intros [= <-].
Qed.

Lemma extractWords_all (P : WordFound → Prop) (board : Board)
    (placedTiles : list PlacedTile) (cells : gset (Z * Z)) :
  (∀ pt direction w, pt ∈ placedTiles →
     getWordAt board (pt_row pt) (pt_col pt) direction cells = Some w → P w) →
  Forall P (extractWords board placedTiles cells).
Proof.
  unfold extractWords. intros Hfound.
  enough (H : ∀ (rest : list PlacedTile) (acc : list WordFound * gset (Direction * (Z * Z))),
             rest ⊆ placedTiles → Forall P (fst acc) →
             Forall P
               (fst (foldl
                       (λ acc pt,
                          let acc := noteWord horizontal
                                       (getWordAt board (pt_row pt) (pt_col pt) horizontal cells)
                                       acc in
                          noteWord vertical
                            (getWordAt board (pt_row pt) (pt_col pt) vertical cells) acc)
                       acc rest)))
    by (apply H; [done | constructor]).
  induction rest as [|pt rest IH]; intros acc Hsub Hacc; cbn [foldl]; [done|].
  assert (Hpt : pt ∈ placedTiles) by (apply Hsub; left).
  apply IH; [intros x Hx; apply Hsub; by right|].
  apply noteWord_tiles; [intros w; by apply Hfound|].
  apply noteWord_tiles; [intros w; by apply Hfound | done].
Qed.

Lemma checkWords_ok (isValid : string → bool) (words : list WordFound) :
  checkWords isValid words = Ok tt → Forall (λ w, isValid (w_word w) = true) words.
Proof.
  induction words as [|w rest IH]; cbn [checkWords]; [constructor|].
  destruct (isValid (w_word w)) eqn:Hw; cbn [negb]; [|done].
  intros H%IH. by constructor.
Qed.

(** The checks that an accepted play has passed, in the order of
    [validate]. *)
Lemma validate_ok_inv (isValid : string → bool) (board : Board)
    (placements : list TilePlacement) (rackTiles : gmap Z Tile) (isFirstMove : bool)
    (words : list WordFound) :
  validate isValid board placements rackTiles isFirstMove = Ok words →
  ∃ placedTiles,
    placements ≠ []
    ∧ collectPlaced board rackTiles placements [] = Ok placedTiles
    ∧ let tempBoard :=
        foldl (λ b pt, setCell b (pt_row pt) (pt_col pt) (pt_tile pt)) board placedTiles in
      let horizontally :=
        bool_decide (size (list_to_set (map pt_row placedTiles) : gset Z) = 1%nat) in
      (horizontally = true ∨ size (list_to_set (map pt_col placedTiles) : gset Z) = 1%nat)
      ∧ gapFree tempBoard horizontally placedTiles = true
      ∧ (if isFirstMove
         then touchesCenter placedTiles = true ∧ (2 ≤ length placedTiles)%nat
         else adjacent board placedTiles = true)
      ∧ words
        = extractWords tempBoard placedTiles
            (list_to_set (map (λ pt, (pt_row pt, pt_col pt)) placedTiles))
      ∧ words ≠ []
      ∧ checkWords isValid words = Ok tt.
Proof.
  unfold validate.
  destruct (bool_decide (length placements = 0%nat)) eqn:Hnone; [done|].
  apply bool_decide_eq_false in Hnone.
  destruct (collectPlaced board rackTiles placements []) as [placedTiles|] eqn:Hplaced; [|done].
  cbn [rbind].
  destruct (bool_decide (size (list_to_set (map pt_row placedTiles) : gset Z) = 1%nat))
    eqn:Hrows;
    destruct (bool_decide (size (list_to_set (map pt_col placedTiles) : gset Z) = 1%nat))
      eqn:Hcols; cbn [negb andb]; try done.
  all: destruct (gapFree _ _ _) eqn:Hgap; cbn [negb]; [|done].
  all: match goal with
       | |- rbind ?check _ = _ → _ => destruct check as [[]|] eqn:Hcheck; [|done]
       end.
  all: cbn [rbind]; destruct (bool_decide (length _ = 0%nat)) eqn:Hwords; [done|].
  all: apply bool_decide_eq_false in Hwords.
  all: destruct (checkWords _ _) as [[]|] eqn:Hdict; [|done]; cbn [rbind]; intros [= <-].
  all: exists placedTiles; cbv zeta; rewrite ?Hrows.
  all: split_and!; try done.
  all: try (by intros ->).
  all: try (by left).
  all: try (right; by apply bool_decide_eq_true in Hcols).
  all: try (intros Hnil; by rewrite Hnil in Hwords).
  all: destruct isFirstMove.
  all: try (destruct (touchesCenter placedTiles); cbn [negb] in Hcheck; [|done];
            destruct (length placedTiles <? 2)%nat eqn:Hlen; [done|];
            apply Nat.ltb_ge in Hlen; done).
  all: by destruct (adjacent board placedTiles).
Qed.

(** X7: the words of an accepted play.  When [validate] accepts a play
    it returns at least one word, and every word it returns is in the
    dictionary, has at least two tiles, and is spelled by the letters
    of its tiles in order, where a blank contributes the letter it was
    assigned and every other tile its own character. *)
Theorem accepted_words_are_dictionary_words (isValid : string → bool) (board : Board)
    (placements : list TilePlacement) (rackTiles : gmap Z Tile) (isFirstMove : bool)
    (words : list WordFound) :
  validate isValid board placements rackTiles isFirstMove = Ok words →
  words ≠ []
  ∧ Forall (λ w, isValid (w_word w) = true
               ∧ (2 ≤ length (w_tiles w))%nat
               ∧ w_word w = spell (w_tiles w))
      words.
Proof.
  intros (placedTiles & _ & _ & H)%validate_ok_inv. cbv zeta in H.
  destruct H as (_ & _ & _ & Hwords & Hsome & Hdict). split; [done|].
  apply checkWords_ok in Hdict.
  assert (Hspelled : Forall (λ w, w_word w = spell (w_tiles w) ∧ (2 ≤ length (w_tiles w))%nat)
                       words).
  { rewrite Hwords. apply extractWords_all. intros pt direction w _. apply getWordAt_spelled. }
  rewrite Forall_forall in Hdict, Hspelled. apply Forall_forall. intros w Hw.
  destruct (Hspelled w Hw) as [Hspell Hlen]. split_and!; [by apply Hdict | done | done].
Qed.

(** X7, at the lone tile か that is placed under い of いう and forms いか. *)
Lemma accepted_words_are_dictionary_words_witness :
  [mkWord "いか" [mkWordTile tileI 7 7 false; mkWordTile tileKa 8 7 true]] ≠ []
  ∧ Forall (λ w, someWords (w_word w) = true
               ∧ (2 ≤ length (w_tiles w))%nat
               ∧ w_word w = spell (w_tiles w))
      [mkWord "いか" [mkWordTile tileI 7 7 false; mkWordTile tileKa 8 7 true]].
Proof.
  apply (accepted_words_are_dictionary_words someWords boardIU [mkPlacement 8 7 10 None]
           (rackMapOf [tileKa]) false).
  vm_compute. reflexivity.
Defined.

Lemma foldl_min_le (l : list Z) (a : Z) :
  foldl Z.min a l ≤ a ∧ ∀ x, x ∈ l → foldl Z.min a l ≤ x.
Proof.
  revert a. induction l as [|y l IH]; intros a; cbn [foldl].
  - split; [lia|]. intros x Hx. by apply elem_of_nil in Hx.
  - destruct (IH (Z.min a y)) as [Hhead Hrest]. split; [lia|].
    intros x [->|Hx]%elem_of_cons; [lia | by apply Hrest].
Qed.

Lemma foldl_max_ge (l : list Z) (a : Z) :
  a ≤ foldl Z.max a l ∧ ∀ x, x ∈ l → x ≤ foldl Z.max a l.
Proof.
  revert a. induction l as [|y l IH]; intros a; cbn [foldl].
  - split; [lia|]. intros x Hx. by apply elem_of_nil in Hx.
  - destruct (IH (Z.max a y)) as [Hhead Hrest]. split; [lia|].
    intros x [->|Hx]%elem_of_cons; [lia | by apply Hrest].
Qed.

Lemma minOf_le (l : list Z) (x : Z) : x ∈ l → minOf l ≤ x.
Proof.
  destruct l as [|y l]; [by intros ?%elem_of_nil|]. cbn [minOf].
  destruct (foldl_min_le l y) as [Hhead Hrest].
  intros [->|Hx]%elem_of_cons; [done | by apply Hrest].
Qed.

Lemma maxOf_ge (l : list Z) (x : Z) : x ∈ l → x ≤ maxOf l.
Proof.
  destruct l as [|y l]; [by intros ?%elem_of_nil|]. cbn [maxOf].
  destruct (foldl_max_ge l y) as [Hhead Hrest].
  intros [->|Hx]%elem_of_cons; [done | by apply Hrest].
Qed.

Lemma one_value (l : list Z) (x y : Z) :
  size (list_to_set l : gset Z) = 1%nat → x ∈ l → y ∈ l → x = y.
Proof.
  intros Hsize Hx Hy.
  apply (size_singleton_inv (list_to_set l : gset Z)); [done | |]; by apply elem_of_list_to_set.
Qed.

Lemma collectPlaced_rows_cols (board : Board) (rackTiles : gmap Z Tile)
    (placements : list TilePlacement) (placedTiles : list PlacedTile) :
  collectPlaced board rackTiles placements [] = Ok placedTiles →
  map pt_row placedTiles = map p_row placements
  ∧ map pt_col placedTiles = map p_col placements.
Proof.
  intros H%collectPlaced_cells. cbn [map app] in H.
  split.
  - apply (f_equal (map fst)) in H. rewrite !map_map in H. exact H.
  - apply (f_equal (map snd)) in H. rewrite !map_map in H. exact H.
Qed.

Lemma tempBoard_filled (board : Board) (placedTiles : list PlacedTile) (r c : Z) :
  Forall (λ pt, inBounds (pt_row pt) (pt_col pt) = true) placedTiles →
  occupied (foldl (λ b pt, setCell b (pt_row pt) (pt_col pt) (pt_tile pt)) board placedTiles)
           r c = true →
  is_Some (cellAt board r c) ∨ (r, c) ∈ map (λ pt, (pt_row pt, pt_col pt)) placedTiles.
Proof.
  intros Hin Hocc. unfold occupied in Hocc. apply bool_decide_eq_true in Hocc.
  destruct (decide ((r, c) ∈ map (λ pt, (pt_row pt, pt_col pt)) placedTiles)) as [Hyes|Hno];
    [by right|].
  left. by rewrite <- (tempBoard_other board placedTiles r c Hin Hno).
Qed.

(** X8: the shape of an accepted play.  The placements of a play that
    [validate] accepts lie in one row or in one column, and the stretch
    between any two of them has no hole: each of its cells either held
    a tile on the board before the play or receives one from the
    play. *)
Theorem accepted_play_is_a_gapless_line (isValid : string → bool) (board : Board)
    (placements : list TilePlacement) (rackTiles : gmap Z Tile) (isFirstMove : bool)
    (words : list WordFound) :
  validate isValid board placements rackTiles isFirstMove = Ok words →
  ((∃ r, Forall (λ p, p_row p = r) placements) ∨ (∃ c, Forall (λ p, p_col p = c) placements))
  ∧ ∀ p q r c, p ∈ placements → q ∈ placements →
      p_row p ≤ r ≤ p_row q → p_col p ≤ c ≤ p_col q →
      is_Some (cellAt board r c) ∨ (r, c) ∈ placedCells placements.
Proof.
  intros (placedTiles & Hsome & Hplaced & H)%validate_ok_inv. cbv zeta in H.
  destruct H as (Hline & Hgap & _).
  pose proof (collectPlaced_inBounds _ _ _ _ _ Hplaced (Forall_nil_2 _)) as Hin.
  pose proof (collectPlaced_cells _ _ _ _ _ Hplaced) as Hcells. cbn [map app] in Hcells.
  destruct (collectPlaced_rows_cols _ _ _ _ Hplaced) as [Hrows Hcols].
  assert (Hfilled : ∀ r c,
            occupied (foldl (λ b pt, setCell b (pt_row pt) (pt_col pt) (pt_tile pt))
                            board placedTiles) r c = true →
            is_Some (cellAt board r c) ∨ (r, c) ∈ placedCells placements).
  { intros r c [Hold|Hnew]%(tempBoard_filled board placedTiles r c Hin); [by left|].
    right. unfold placedCells. apply elem_of_list_to_set. by rewrite <- Hcells. }
  destruct placedTiles as [|first rest] eqn:Hfirst.
  { destruct placements; [done | discriminate Hrows]. }
  rewrite <- Hfirst in *. rewrite Hfirst in Hgap. cbn [gapFree] in Hgap. rewrite <- Hfirst in Hgap.
  assert (Hfirst_row : pt_row first ∈ map p_row placements).
  { rewrite <- Hrows, Hfirst. left. }
  assert (Hfirst_col : pt_col first ∈ map p_col placements).
  { rewrite <- Hcols, Hfirst. left. }
  destruct (bool_decide (size (list_to_set (map pt_row placedTiles) : gset Z) = 1%nat))
    eqn:Hhorizontal.
  - apply bool_decide_eq_true in Hhorizontal. rewrite Hrows in Hhorizontal.
    assert (Hrow : ∀ p, p ∈ placements → p_row p = pt_row first).
    { intros p Hp. apply (one_value _ _ _ Hhorizontal); [|done].
      by apply (list_elem_of_fmap_2 p_row). }
    split.
    + left. exists (pt_row first). apply Forall_forall. exact Hrow.
    + intros p q r c Hp Hq Hr Hc. rewrite (Hrow p Hp), (Hrow q Hq) in Hr.
      replace r with (pt_row first) by lia. apply Hfilled.
      rewrite forallb_forall in Hgap. apply Hgap, list_elem_of_In, elem_of_seqZ.
      rewrite Hcols.
      pose proof (minOf_le (map p_col placements) (p_col p)
                    (list_elem_of_fmap_2 p_col _ _ Hp)).
      pose proof (maxOf_ge (map p_col placements) (p_col q)
                    (list_elem_of_fmap_2 p_col _ _ Hq)).
      lia.
  - destruct Hline as [?|Hvertical]; [done|]. rewrite Hcols in Hvertical.
    assert (Hcol : ∀ p, p ∈ placements → p_col p = pt_col first).
    { intros p Hp. apply (one_value _ _ _ Hvertical); [|done].
      by apply (list_elem_of_fmap_2 p_col). }
    split.
    + right. exists (pt_col first). apply Forall_forall. exact Hcol.
    + intros p q r c Hp Hq Hr Hc. rewrite (Hcol p Hp), (Hcol q Hq) in Hc.
      replace c with (pt_col first) by lia. apply Hfilled.
      rewrite forallb_forall in Hgap. apply Hgap, list_elem_of_In, elem_of_seqZ.
      rewrite Hrows.
      pose proof (minOf_le (map p_row placements) (p_row p)
                    (list_elem_of_fmap_2 p_row _ _ Hp)).
      pose proof (maxOf_ge (map p_row placements) (p_row q)
                    (list_elem_of_fmap_2 p_row _ _ Hq)).
      lia.
Qed.

(** X8, at the first move いう of "a" from the start cell to the right. *)
Lemma accepted_play_is_a_gapless_line_witness :
  let placements := [mkPlacement 7 7 0 None; mkPlacement 7 8 5 None] in
  ((∃ r, Forall (λ p, p_row p = r) placements) ∨ (∃ c, Forall (λ p, p_col p = c) placements))
  ∧ ∀ p q r c, p ∈ placements → q ∈ placements →
      p_row p ≤ r ≤ p_row q → p_col p ≤ c ≤ p_col q →
      is_Some (cellAt initBoard r c) ∨ (r, c) ∈ placedCells placements.
Proof.
  apply (accepted_play_is_a_gapless_line someWords initBoard
           [mkPlacement 7 7 0 None; mkPlacement 7 8 5 None]
           (rackMapOf (tableTiles (seq 0 7))) true
           [mkWord "いう" [mkWordTile tileI 7 7 true; mkWordTile tileU 7 8 true]]).
  vm_compute. reflexivity.
Defined.

Lemma collectPlaced_lettered (board : Board) (rackTiles : gmap Z Tile)
    (placements : list TilePlacement) (acc placedTiles : list PlacedTile) :
  collectPlaced board rackTiles placements acc = Ok placedTiles →
  Forall (lettered rackTiles) placements.
Proof.
  revert acc. induction placements as [|p rest IH]; intros acc; cbn [collectPlaced];
    [constructor|].
  destruct (rackTiles !! p_tileId p) as [tile|] eqn:Htile; [|done].
  destruct (negb (inBounds _ _)); [done|].
  destruct (occupied _ _ _); [done|].
  destruct (t_isBlank tile) eqn:Hblank.
  - destruct (truthy (p_assignedChar p)) eqn:Hchar; cbn [negb]; [|done].
    intros H%IH. constructor; [|done]. intros tile' Htile' _. done.
  - intros H%IH. constructor; [|done]. intros tile' Htile' Hblank'. congruence.
Qed.

(** X9: where an accepted play stands.  Every placement of a play that
    [validate] accepts names a tile of the rack, lies on the grid on a
    cell that the board leaves empty, and names a letter when its tile
    is a blank.  On the first move the play has at least two placements
    and one of them is on the centre cell (7,7); on every later move
    some placement has a neighbour cell, on the grid, that holds a tile
    of the board. *)
Theorem accepted_play_is_anchored (isValid : string → bool) (board : Board)
    (placements : list TilePlacement) (rackTiles : gmap Z Tile) (isFirstMove : bool)
    (words : list WordFound) :
  validate isValid board placements rackTiles isFirstMove = Ok words →
  Forall (λ p, placeable board rackTiles p ∧ lettered rackTiles p) placements
  ∧ (if isFirstMove
     then (2 ≤ length placements)%nat ∧ ∃ p, p ∈ placements ∧ p_row p = 7 ∧ p_col p = 7
     else ∃ p nr nc,
            p ∈ placements ∧ (nr, nc) ∈ neighbours (p_row p) (p_col p)
            ∧ inBounds nr nc = true ∧ is_Some (cellAt board nr nc)).
Proof.
  intros (placedTiles & Hsome & Hplaced & H)%validate_ok_inv. cbv zeta in H.
  destruct H as (_ & _ & Hanchor & _).
  pose proof (collectPlaced_placeable _ _ _ _ _ Hplaced) as Hfit.
  pose proof (collectPlaced_lettered _ _ _ _ _ Hplaced) as Hlettered.
  pose proof (collectPlaced_cells _ _ _ _ _ Hplaced) as Hcells. cbn [map app] in Hcells.
  pose proof (collectPlaced_length _ _ _ _ _ Hplaced) as Hlen. cbn [length Nat.add] in Hlen.
  assert (Hback : ∀ pt, pt ∈ placedTiles →
            ∃ p, p ∈ placements ∧ p_row p = pt_row pt ∧ p_col p = pt_col pt).
  { intros pt Hpt.
    assert (Hcell : (pt_row pt, pt_col pt) ∈ map (λ p, (p_row p, p_col p)) placements).
    { rewrite <- Hcells. by apply (list_elem_of_fmap_2 (λ pt, (pt_row pt, pt_col pt))). }
    apply (list_elem_of_fmap_1 (λ p, (p_row p, p_col p))) in Hcell as (p & [= Hr Hc] & Hp).
    by exists p. }
  split.
  - rewrite Forall_forall in Hfit, Hlettered. apply Forall_forall. intros p Hp.
    split; [by apply Hfit | by apply Hlettered].
  - destruct isFirstMove.
    + destruct Hanchor as [Hcentre Hmany]. split; [lia|].
      unfold touchesCenter in Hcentre. apply existsb_exists in Hcentre
        as (pt & Hpt%list_elem_of_In & [Hr%bool_decide_eq_true Hc%bool_decide_eq_true]%andb_prop).
      destruct (Hback pt Hpt) as (p & Hp & Hrow & Hcol). exists p.
      split_and!; [done | by rewrite Hrow, Hr | by rewrite Hcol, Hc].
    + unfold adjacent in Hanchor. apply existsb_exists in Hanchor
        as (pt & Hpt%list_elem_of_In & Hnext).
      apply existsb_exists in Hnext as ([dr dc] & Hdir%list_elem_of_In & Hocc).
      destruct (Hback pt Hpt) as (p & Hp & Hrow & Hcol).
      destruct (inBounds (pt_row pt + dr) (pt_col pt + dc)) eqn:Hin; cbn [negb] in Hocc;
        [|done].
      apply bool_decide_eq_true in Hocc.
      exists p, (pt_row pt + dr), (pt_col pt + dc). split_and!; try done.
      rewrite Hrow, Hcol. unfold neighbours.
      repeat (apply elem_of_cons in Hdir as [[= -> ->]|Hdir];
              [rewrite ?Z.add_0_r; set_solver|]).
      by apply elem_of_nil in Hdir.
Qed.

(** X9, at the lone tile か that is placed under い of いう. *)
Lemma accepted_play_is_anchored_witness :
  let placements := [mkPlacement 8 7 10 None] in
  Forall (λ p, placeable boardIU (rackMapOf [tileKa]) p ∧ lettered (rackMapOf [tileKa]) p)
    placements
  ∧ ∃ p nr nc,
      p ∈ placements ∧ (nr, nc) ∈ neighbours (p_row p) (p_col p)
      ∧ inBounds nr nc = true ∧ is_Some (cellAt boardIU nr nc).
Proof.
  apply (accepted_play_is_anchored someWords boardIU [mkPlacement 8 7 10 None]
           (rackMapOf [tileKa]) false
           [mkWord "いか" [mkWordTile tileI 7 7 false; mkWordTile tileKa 8 7 true]]).
  vm_compute. reflexivity.
Defined.

(** ** The word through a cell *)

Lemma cellAt_off_grid (board : Board) (r c : Z) :
  ¬ (0 ≤ r ∧ 0 ≤ c ∧ occupied board r c = true) → cellAt board r c = None.
Proof.
  intros H. unfold occupied in H.
  destruct (cellAt board r c) as [t|] eqn:Hcell; [|done]. exfalso. apply H.
  unfold cellAt in Hcell. destruct ((r <? 0) || (c <? 0)) eqn:Hneg; [done|].
  apply orb_false_iff in Hneg as [Hr%Z.ltb_ge Hc%Z.ltb_ge].
  split_and!; [done | done |]. apply bool_decide_eq_true. by eexists.
Qed.

Lemma wordStart_spec (board : Board) (dr dc : Z) (fuel : nat) (r c : Z) :
  0 ≤ r → 0 ≤ c →
  ∃ k : nat,
    (k ≤ fuel)%nat
    ∧ wordStart fuel board dr dc r c = (r - Z.of_nat k * dr, c - Z.of_nat k * dc)
    ∧ 0 ≤ r - Z.of_nat k * dr ∧ 0 ≤ c - Z.of_nat k * dc
    ∧ (∀ j, 0 < j ≤ Z.of_nat k → is_Some (cellAt board (r - j * dr) (c - j * dc)))
    ∧ ((k < fuel)%nat →
         cellAt board (r - Z.of_nat k * dr - dr) (c - Z.of_nat k * dc - dc) = None).
Proof.
  revert r c. induction fuel as [|fuel IH]; intros r c Hr Hc; cbn [wordStart].
  - exists 0%nat. split_and!; try lia. f_equal; lia.
  - destruct ((r - dr >=? 0) && (c - dc >=? 0) && occupied board (r - dr) (c - dc)) eqn:Hcond.
    + apply andb_prop in Hcond as [[Hr'%Z.geb_le Hc'%Z.geb_le]%andb_prop Hocc].
      destruct (IH (r - dr) (c - dc)) as (k & Hk & Hstart & Hr0 & Hc0 & Hrun & Hexit);
        [lia | lia |].
      exists (S k). split_and!; try lia.
      * rewrite Hstart. f_equal; lia.
      * intros j Hj. destruct (decide (j = 1)) as [->|Hne].
        { unfold occupied in Hocc. apply bool_decide_eq_true in Hocc.
          by rewrite !Z.mul_1_l. }
        specialize (Hrun (j - 1)).
        replace (r - dr - (j - 1) * dr) with (r - j * dr) in Hrun by lia.
        replace (c - dc - (j - 1) * dc) with (c - j * dc) in Hrun by lia.
        apply Hrun. lia.
      * intros Hlt.
        replace (r - Z.of_nat (S k) * dr - dr) with (r - dr - Z.of_nat k * dr - dr) by lia.
        replace (c - Z.of_nat (S k) * dc - dc) with (c - dc - Z.of_nat k * dc - dc) by lia.
        apply Hexit. lia.
    + exists 0%nat. split_and!; try lia.
      * f_equal; lia.
      * intros _. replace (r - Z.of_nat 0 * dr - dr) with (r - dr) by lia.
        replace (c - Z.of_nat 0 * dc - dc) with (c - dc) by lia.
        apply cellAt_off_grid. intros (Hr' & Hc' & Hocc).
        apply andb_false_iff in Hcond as [[Hcond|Hcond]%andb_false_iff|Hcond];
          [rewrite Z.geb_leb in Hcond; apply Z.leb_gt in Hcond; lia
          |rewrite Z.geb_leb in Hcond; apply Z.leb_gt in Hcond; lia
          |congruence].
Qed.

Lemma collectRun_spec (board : Board) (cells : gset (Z * Z)) (dr dc : Z) (fuel : nat)
    (r c : Z) (word : string) (tiles : list WordTile) :
  ∃ n : nat,
    (n ≤ fuel)%nat
    ∧ map cellOf (snd (collectRun fuel board cells dr dc r c word tiles))
      = map cellOf tiles ++ map (λ j, (r + j * dr, c + j * dc)) (seqZ 0 (Z.of_nat n))
    ∧ (∀ j, 0 ≤ j < Z.of_nat n →
         r + j * dr < BOARD_SIZE ∧ c + j * dc < BOARD_SIZE
         ∧ is_Some (cellAt board (r + j * dr) (c + j * dc)))
    ∧ ((n < fuel)%nat →
         ¬ (r + Z.of_nat n * dr < BOARD_SIZE ∧ c + Z.of_nat n * dc < BOARD_SIZE
            ∧ is_Some (cellAt board (r + Z.of_nat n * dr) (c + Z.of_nat n * dc)))).
Proof.
  revert r c word tiles. induction fuel as [|fuel IH]; intros r c word tiles;
    cbn [collectRun].
  - exists 0%nat. split_and!; try lia. cbn. by rewrite app_nil_r.
  - destruct ((r <? BOARD_SIZE) && (c <? BOARD_SIZE)) eqn:Hin.
    + apply andb_prop in Hin as [Hr%Z.ltb_lt Hc%Z.ltb_lt].
      destruct (cellAt board r c) as [tile|] eqn:Hcell.
      * destruct (IH (r + dr) (c + dc) (word +:+ letterOf tile)
                    (tiles ++ [mkWordTile tile r c (bool_decide ((r, c) ∈ cells))]))
          as (n & Hn & Hcells & Hrun & Hexit).
        exists (S n). split_and!; try lia.
        -- rewrite Hcells, map_app, <- app_assoc. f_equal. cbn [map app cellOf wt_row wt_col].
           rewrite Nat2Z.inj_succ, (seqZ_cons 0 (Z.succ (Z.of_nat n))) by lia. cbn [map].
           f_equal; [unfold cellOf; cbn [wt_row wt_col]; f_equal; lia|].
           replace (Z.succ 0) with (1 + 0) by lia.
           rewrite <- (fmap_add_seqZ 1 0), Z.pred_succ, map_map.
           apply map_ext. intros j. f_equal; lia.
        -- intros j Hj. destruct (decide (j = 0)) as [->|Hne].
           { rewrite !Z.mul_0_l, !Z.add_0_r. split_and!; [done | done | by eexists]. }
           specialize (Hrun (j - 1)).
           replace (r + dr + (j - 1) * dr) with (r + j * dr) in Hrun by lia.
           replace (c + dc + (j - 1) * dc) with (c + j * dc) in Hrun by lia.
           apply Hrun. lia.
        -- intros Hlt.
           replace (r + Z.of_nat (S n) * dr) with (r + dr + Z.of_nat n * dr) by lia.
           replace (c + Z.of_nat (S n) * dc) with (c + dc + Z.of_nat n * dc) by lia.
           apply Hexit. lia.
      * exists 0%nat. split_and!; try lia.
        -- cbn. by rewrite app_nil_r.
        -- intros _. rewrite !Z.mul_0_l, !Z.add_0_r. rewrite Hcell. by intros (_ & _ & [? ?]).
    + exists 0%nat. split_and!; try lia.
      cbn. by rewrite app_nil_r.
Qed.

Lemma getWordAt_run (board : Board) (row col : Z) (direction : Direction)
    (cells : gset (Z * Z)) :
  inBounds row col = true → is_Some (cellAt board row col) →
  ∃ r0 c0 (n : nat),
    (row, col) ∈ runCells direction r0 c0 n
    ∧ (∀ r c, (r, c) ∈ runCells direction r0 c0 n →
         inBounds r c = true ∧ is_Some (cellAt board r c))
    ∧ cellAt board (r0 - fst (stepOf direction)) (c0 - snd (stepOf direction)) = None
    ∧ ¬ (inBounds (r0 + Z.of_nat n * fst (stepOf direction))
                  (c0 + Z.of_nat n * snd (stepOf direction)) = true
         ∧ is_Some (cellAt board (r0 + Z.of_nat n * fst (stepOf direction))
                                 (c0 + Z.of_nat n * snd (stepOf direction))))
    ∧ match getWordAt board row col direction cells with
      | Some w => (2 ≤ n)%nat ∧ map cellOf (w_tiles w) = runCells direction r0 c0 n
      | None => n = 1%nat
      end.
Proof.
  intros [Hrow Hcol]%inBounds_range Hcell. unfold BOARD_SIZE in Hrow, Hcol.
  unfold getWordAt, runCells.
  destruct (stepOf direction) as [dr dc] eqn:Hstep. cbn [fst snd].
  assert (Haxis : (dr, dc) = (0, 1) ∨ (dr, dc) = (1, 0)).
  { rewrite <- Hstep. apply stepOf_axis. }
  destruct (wordStart_spec board dr dc loopFuel row col) as
    (k & Hk & Hstart & Hr0 & Hc0 & Hback & Hbefore); [lia | lia |].
  rewrite Hstart.
  set (r0 := row - Z.of_nat k * dr) in *. set (c0 := col - Z.of_nat k * dc) in *.
  assert (Hk14 : (k < loopFuel)%nat).
  { unfold loopFuel, BOARD_SIZE. subst r0 c0. destruct Haxis as [[= -> ->]|[= -> ->]]; lia. }
  destruct (collectRun_spec board cells dr dc loopFuel r0 c0 "" []) as
    (n & Hn & Hcells & Hrun & Hafter).
  cbn [map app] in Hcells.
  assert (Hkn : (k < n)%nat).
  { destruct (decide (k < n)%nat) as [|Hle]; [done|]. exfalso.
    apply Hafter; [lia|].
    destruct (decide (n = k)) as [->|Hne].
    - replace (r0 + Z.of_nat k * dr) with row by (subst r0; lia).
      replace (c0 + Z.of_nat k * dc) with col by (subst c0; lia).
      unfold BOARD_SIZE. split_and!; [lia | lia | done].
    - specialize (Hback (Z.of_nat k - Z.of_nat n)).
      replace (r0 + Z.of_nat n * dr) with (row - (Z.of_nat k - Z.of_nat n) * dr)
        by (subst r0; lia).
      replace (c0 + Z.of_nat n * dc) with (col - (Z.of_nat k - Z.of_nat n) * dc)
        by (subst c0; lia).
      unfold BOARD_SIZE.
      split_and!; [destruct Haxis as [[= -> ->]|[= -> ->]]; lia
                  |destruct Haxis as [[= -> ->]|[= -> ->]]; lia
                  |apply Hback; lia]. }
  exists r0, c0, n. split_and!.
  - apply (list_elem_of_fmap_2' _ _ (Z.of_nat k)); [apply elem_of_seqZ; lia|].
    subst r0 c0. f_equal; lia.
  - intros r c (j & [= -> ->] & Hj%elem_of_seqZ)%(list_elem_of_fmap_1 _).
    destruct (Hrun j) as (Hr & Hc & Hsome); [lia|].
    split; [|done]. apply inBounds_range.
    destruct Haxis as [[= -> ->]|[= -> ->]]; lia.
  - by apply Hbefore.
  - intros [[Hr Hc]%inBounds_range Hsome].
    destruct (decide (n < loopFuel)%nat) as [Hlt|Hfull].
    + apply (Hafter Hlt). split_and!; [lia | lia | done].
    + unfold loopFuel, BOARD_SIZE in *.
      destruct Haxis as [[= -> ->]|[= -> ->]]; lia.
  - destruct (collectRun _ _ _ _ _ _ _ _ _) as [word tiles]. cbn [snd] in Hcells.
    assert (Hlen : length tiles = n).
    { apply (f_equal length) in Hcells. rewrite !length_map, length_seqZ in Hcells. lia. }
    destruct (length tiles <? 2)%nat eqn:Hshort.
    + apply Nat.ltb_lt in Hshort. lia.
    + apply Nat.ltb_ge in Hshort. split; [lia | exact Hcells].
Qed.

(** X10: the word through a cell.  For a cell of the grid that holds a
    tile, [getWordAt] looks at the maximal run of tiles through the
    cell in the given direction: a stretch of cells on the grid, all
    with a tile, that contains the cell, with no tile on the cell before
    its first cell and no tile of the grid after its last.  It returns
    no word exactly when the cell stands alone, and otherwise the word
    whose tiles are the tiles of the board on the cells of the run, in
    order, flagged as new where the cell is one of the new cells, and
    whose letters spell the word. *)
Theorem word_at_a_cell_is_the_maximal_run (board : Board) (row col : Z)
    (direction : Direction) (cells : gset (Z * Z)) :
  inBounds row col = true → is_Some (cellAt board row col) →
  ∃ r0 c0 (n : nat),
    (row, col) ∈ runCells direction r0 c0 n
    ∧ (∀ r c, (r, c) ∈ runCells direction r0 c0 n →
         inBounds r c = true ∧ is_Some (cellAt board r c))
    ∧ cellAt board (r0 - fst (stepOf direction)) (c0 - snd (stepOf direction)) = None
    ∧ ¬ (inBounds (r0 + Z.of_nat n * fst (stepOf direction))
                  (c0 + Z.of_nat n * snd (stepOf direction)) = true
         ∧ is_Some (cellAt board (r0 + Z.of_nat n * fst (stepOf direction))
                                 (c0 + Z.of_nat n * snd (stepOf direction))))
    ∧ match getWordAt board row col direction cells with
      | Some w =>
          (2 ≤ n)%nat
          ∧ map cellOf (w_tiles w) = runCells direction r0 c0 n
          ∧ Forall (wordTileOf board cells) (w_tiles w)
          ∧ w_word w = spell (w_tiles w)
      | None => n = 1%nat
      end.
Proof.
  intros Hin Hcell.
  destruct (getWordAt_run board row col direction cells Hin Hcell)
    as (r0 & c0 & n & Hmember & Hrun & Hbefore & Hafter & Hword).
  exists r0, c0, n. split_and!; try done.
  destruct (getWordAt board row col direction cells) as [w|] eqn:Hw; [|done].
  destruct Hword as [Hn Hcells]. split_and!; [done | done | |].
  - by apply getWordAt_tiles in Hw.
  - by apply getWordAt_spelled in Hw as [Hspell _].
Qed.

(** X10, at the cell of い in いう, read along the row. *)
Lemma word_at_a_cell_is_the_maximal_run_witness :
  ∃ r0 c0 (n : nat),
    (7, 7) ∈ runCells horizontal r0 c0 n
    ∧ (∀ r c, (r, c) ∈ runCells horizontal r0 c0 n →
         inBounds r c = true ∧ is_Some (cellAt boardIU r c))
    ∧ cellAt boardIU (r0 - fst (stepOf horizontal)) (c0 - snd (stepOf horizontal)) = None
    ∧ ¬ (inBounds (r0 + Z.of_nat n * fst (stepOf horizontal))
                  (c0 + Z.of_nat n * snd (stepOf horizontal)) = true
         ∧ is_Some (cellAt boardIU (r0 + Z.of_nat n * fst (stepOf horizontal))
                                   (c0 + Z.of_nat n * snd (stepOf horizontal))))
    ∧ match getWordAt boardIU 7 7 horizontal ∅ with
      | Some w =>
          (2 ≤ n)%nat
          ∧ map cellOf (w_tiles w) = runCells horizontal r0 c0 n
          ∧ Forall (wordTileOf boardIU ∅) (w_tiles w)
          ∧ w_word w = spell (w_tiles w)
      | None => n = 1%nat
      end.
Proof.
  apply (word_at_a_cell_is_the_maximal_run boardIU 7 7 horizontal ∅).
  - vm_compute. reflexivity.
  - eexists. vm_compute. reflexivity.
Defined.

(** ** Every word of a play uses a tile of the play *)

Lemma cellAt_setCell_eq (board : Board) (r c : Z) (t : Tile) :
  wfBoard board → inBounds r c = true → cellAt (setCell board r c t) r c = Some t.
Proof.
  intros [Hrows Hcols] [Hr Hc]%inBounds_range.
  destruct (lookup_lt_is_Some_2 board (Z.to_nat r)) as [line Hline]; [lia|].
  assert (Hlen : length line = Z.to_nat BOARD_SIZE).
  { rewrite Forall_forall in Hcols. apply Hcols. by eapply list_elem_of_lookup_2. }
  rewrite (cellAt_lookup _ r c (<[Z.to_nat c := Some t]> line)) by
    (try lia; unfold setCell; by rewrite list_lookup_alter_eq, Hline).
  rewrite list_lookup_insert_eq by lia. done.
Qed.

Lemma setCell_keeps (board : Board) (r c r' c' : Z) (t : Tile) :
  wfBoard board → inBounds r c = true →
  is_Some (cellAt board r' c') → is_Some (cellAt (setCell board r c t) r' c').
Proof.
  intros Hwf Hin Hsome. destruct (decide ((r, c) = (r', c'))) as [[= <- <-]|Hne].
  - rewrite cellAt_setCell_eq by done. by eexists.
  - apply inBounds_range in Hin as [Hr Hc].
    rewrite cellAt_setCell_ne by (done || lia). done.
Qed.

Lemma tempBoard_keeps (board : Board) (placedTiles : list PlacedTile) (r c : Z) :
  wfBoard board →
  Forall (λ pt, inBounds (pt_row pt) (pt_col pt) = true) placedTiles →
  is_Some (cellAt board r c) →
  is_Some (cellAt (foldl (λ b pt, setCell b (pt_row pt) (pt_col pt) (pt_tile pt))
                         board placedTiles) r c).
Proof.
  revert board. induction placedTiles as [|pt rest IH]; intros board Hwf Hin Hsome;
    cbn [foldl]; [done|].
  apply Forall_cons in Hin as [Hpt Hin].
  apply IH; [by apply wfBoard_setCell | done | by apply setCell_keeps].
Qed.

Lemma tempBoard_placed (board : Board) (placedTiles : list PlacedTile) (pt : PlacedTile) :
  wfBoard board →
  Forall (λ pt, inBounds (pt_row pt) (pt_col pt) = true) placedTiles →
  pt ∈ placedTiles →
  is_Some (cellAt (foldl (λ b pt, setCell b (pt_row pt) (pt_col pt) (pt_tile pt))
                         board placedTiles) (pt_row pt) (pt_col pt)).
Proof.
  revert board. induction placedTiles as [|pt' rest IH]; intros board Hwf Hin Hpt;
    [by apply elem_of_nil in Hpt|].
  cbn [foldl]. apply Forall_cons in Hin as [Hpt' Hin].
  apply elem_of_cons in Hpt as [->|Hpt].
  - apply tempBoard_keeps; [by apply wfBoard_setCell | done |].
    rewrite cellAt_setCell_eq by done. by eexists.
  - apply IH; [by apply wfBoard_setCell | done | done].
Qed.

(** X11: every word of a play uses a tile of the play.  On a board of
    15 by 15 cells, each word that [validate] returns for an accepted
    play has at least one tile that is flagged as newly placed: the
    play is never scored for a word that was on the board already. *)
Theorem accepted_words_use_a_new_tile (isValid : string → bool) (board : Board)
    (placements : list TilePlacement) (rackTiles : gmap Z Tile) (isFirstMove : bool)
    (words : list WordFound) :
  wfBoard board →
  validate isValid board placements rackTiles isFirstMove = Ok words →
  Forall (λ w, Exists (λ wt, wt_isNew wt = true) (w_tiles w)) words.
Proof.
  intros Hwf (placedTiles & _ & Hplaced & H)%validate_ok_inv. cbv zeta in H.
  destruct H as (_ & _ & _ & -> & _ & _).
  pose proof (collectPlaced_inBounds _ _ _ _ _ Hplaced (Forall_nil_2 _)) as Hin.
  apply extractWords_all. intros pt direction w Hpt Hw.
  set (tempBoard := foldl _ board placedTiles) in *.
  set (cells := list_to_set _) in *.
  assert (Hpt_in : inBounds (pt_row pt) (pt_col pt) = true).
  { rewrite Forall_forall in Hin. by apply Hin. }
  destruct (getWordAt_run tempBoard (pt_row pt) (pt_col pt) direction cells Hpt_in)
    as (r0 & c0 & n & Hmember & _ & _ & _ & Hword).
  { by apply tempBoard_placed. }
  rewrite Hw in Hword. destruct Hword as [_ Hcells]. rewrite <- Hcells in Hmember.
  apply (list_elem_of_fmap_1 cellOf) in Hmember as (wt & Hcell & Hwt).
  apply Exists_exists. exists wt. split; [done|].
  apply getWordAt_tiles in Hw. rewrite Forall_forall in Hw.
  destruct (Hw wt Hwt) as [Hflag _]. unfold flaggedBy in Hflag. rewrite Hflag.
  apply bool_decide_eq_true. unfold cellOf in Hcell. rewrite <- Hcell.
  subst cells. apply elem_of_list_to_set.
  by apply (list_elem_of_fmap_2 (λ pt, (pt_row pt, pt_col pt))).
Qed.

(** X11, at the lone tile か that is placed under い of いう: the word
    いか is returned, the word いう of the board is not. *)
Lemma accepted_words_use_a_new_tile_witness :
  Forall (λ w, Exists (λ wt, wt_isNew wt = true) (w_tiles w))
    [mkWord "いか" [mkWordTile tileI 7 7 false; mkWordTile tileKa 8 7 true]].
Proof.
  apply (accepted_words_use_a_new_tile someWords boardIU [mkPlacement 8 7 10 None]
           (rackMapOf [tileKa]) false).
  - split; [reflexivity|]. vm_compute. repeat constructor.
  - vm_compute. reflexivity.
Defined.

(** ** The tile bag *)

(** X12: draws compose.  Drawing [m] tiles and then [n] gives the same
    tiles, in the same order, and leaves the same pool as drawing
    [m + n] at once; a draw takes the tiles from the front of the pool,
    as many as are asked for or as the pool holds, and the pool keeps
    all the others in their order. *)
Theorem draws_compose (b : TileBag) (m n : nat) :
  fst (draw m b) ++ fst (draw n (snd (draw m b))) = fst (draw (m + n) b)
  ∧ snd (draw n (snd (draw m b))) = snd (draw (m + n) b)
  ∧ fst (draw m b) ++ bag_tiles (snd (draw m b)) = bag_tiles b
  ∧ length (fst (draw m b)) = (m `min` length (bag_tiles b))%nat.
Proof.
  unfold draw. cbn [fst snd bag_tiles bag_nextId bag_calls].
  rewrite !take_min_length, !drop_min_length.
  split_and!.
  - rewrite <- (take_drop m (take (m + n) (bag_tiles b))) at 1.
    rewrite take_take, Nat.min_l by lia. f_equal.
    by rewrite take_drop_commute, Nat.add_comm.   
  - f_equal. by rewrite drop_drop.
  - apply take_drop.
  - apply length_take.
Qed.

(** X13: an exchange swaps tiles one for one.  When the pool holds at
    least as many tiles as are returned, [exchange] hands out the tiles
    at the front of the pool, as many as were returned; afterwards the
    pool holds the tiles it had left together with the returned ones,
    in some order, so its size is what it was, and a returned blank
    carries no assigned letter any more.  When the pool holds fewer
    tiles, [exchange] throws and leaves the bag as it was. *)
Theorem exchange_swaps_one_for_one (random : nat → nat → nat) (tilesToReturn : list Tile)
    (b : TileBag) :
  ((length tilesToReturn ≤ length (bag_tiles b))%nat →
     ∃ drawn b',
       exchange random tilesToReturn b = (Ok drawn, b')
       ∧ drawn = take (length tilesToReturn) (bag_tiles b)
       ∧ length drawn = length tilesToReturn
       ∧ bag_tiles b'
         ≡ₚ drop (length tilesToReturn) (bag_tiles b) ++ map resetBlank tilesToReturn
       ∧ length (bag_tiles b') = length (bag_tiles b)
       ∧ Forall (λ t, t_isBlank t = true → t_assignedChar t = None)
           (map resetBlank tilesToReturn))
  ∧ ((length (bag_tiles b) < length tilesToReturn)%nat →
       exchange random tilesToReturn b = (Throw ErrBagShort, b)).
Proof.
  split.
  - intros Hlen.
    destruct (exchange random tilesToReturn b) as [[drawn|e] b'] eqn:Hex.
    2:{ unfold exchange in Hex. rewrite (proj2 (Nat.ltb_ge _ _) Hlen) in Hex.
        by destruct (draw _ _). }
    apply exchange_ok in Hex as (_ & -> & Hperm).
    exists (take (length tilesToReturn) (bag_tiles b)), b'.
    split_and!; try done.
    + rewrite length_take. lia.
    + rewrite Hperm, length_app, length_drop, length_map. lia.
    + rewrite Forall_map. apply Forall_forall. intros t _. unfold resetBlank.
      destruct (t_isBlank t) eqn:Hblank; cbn; [done | congruence].
  - intros Hshort. unfold exchange. by rewrite (proj2 (Nat.ltb_lt _ _) Hshort).
Qed.

(** ** The bonus layout *)

Lemma on_the_grid (P : nat → nat → Prop) :
  Forall (λ r, Forall (λ c, P r c) (seq 0 15)) (seq 0 15) →
  ∀ r c, (r < 15)%nat → (c < 15)%nat → P r c.
Proof.
  rewrite Forall_forall. intros H r c Hr Hc.
  assert (Hrow : Forall (λ c, P r c) (seq 0 15)) by (apply H, elem_of_seq; lia).
  rewrite Forall_forall in Hrow. apply Hrow, elem_of_seq. lia.
Qed.

(** X14: the images of a cell under the symmetries of the board.  For a
    cell of the grid, [mirrorPositions] lists the cell first and lists
    no cell twice; every cell it lists is on the grid, and with a cell
    it lists its transpose and its two reflections; it lists 1, 4 or 8
    cells. *)
Theorem mirror_positions_are_the_orbit (row col : nat) :
  (row < 15)%nat → (col < 15)%nat →
  NoDup (mirrorPositions row col)
  ∧ mirrorPositions row col !! 0%nat = Some (row, col)
  ∧ Forall (λ rc : nat * nat,
              (rc.1 < 15)%nat ∧ (rc.2 < 15)%nat
              ∧ (rc.2, rc.1) ∈ mirrorPositions row col
              ∧ ((14 - rc.1)%nat, rc.2) ∈ mirrorPositions row col
              ∧ (rc.1, (14 - rc.2)%nat) ∈ mirrorPositions row col)
      (mirrorPositions row col)
  ∧ length (mirrorPositions row col) ∈ [1; 4; 8]%nat.
Proof.
  revert row col.
  match goal with
  | |- ∀ row col, _ → _ → @?P row col => apply (on_the_grid P)
  end.
  cbn beta. apply (bool_decide_unpack _). vm_compute. exact I.
Qed.

(** X14, at the cell (1,5) of a triple letter score. *)
Lemma mirror_positions_are_the_orbit_witness :
  NoDup (mirrorPositions 1 5)
  ∧ mirrorPositions 1 5 !! 0%nat = Some (1%nat, 5%nat)
  ∧ Forall (λ rc : nat * nat,
              (rc.1 < 15)%nat ∧ (rc.2 < 15)%nat
              ∧ (rc.2, rc.1) ∈ mirrorPositions 1 5
              ∧ ((14 - rc.1)%nat, rc.2) ∈ mirrorPositions 1 5
              ∧ (rc.1, (14 - rc.2)%nat) ∈ mirrorPositions 1 5)
      (mirrorPositions 1 5)
  ∧ length (mirrorPositions 1 5) ∈ [1; 4; 8]%nat.
Proof.
  apply (mirror_positions_are_the_orbit 1 5); lia.
Defined.

(** X15: the bonus layout.  [createBonusLayout] builds a grid of 15 by
    15 cells that is symmetric under transposition and under both
    reflections; the start cell is the centre (7,7) and no other cell;
    every listed position and every mirror image of it carries the
    bonus it is listed with, and a cell that is no such image carries
    none. *)
Theorem bonus_layout_is_symmetric :
  length createBonusLayout = 15%nat
  ∧ Forall (λ line, length line = 15%nat) createBonusLayout
  ∧ (∀ r c, (r < 15)%nat → (c < 15)%nat →
       bonusAt createBonusLayout c r = bonusAt createBonusLayout r c
       ∧ bonusAt createBonusLayout (14 - r) c = bonusAt createBonusLayout r c
       ∧ bonusAt createBonusLayout r (14 - c) = bonusAt createBonusLayout r c
       ∧ (bonusAt createBonusLayout r c = START ↔ r = 7%nat ∧ c = 7%nat)
       ∧ (bonusAt createBonusLayout r c ≠ NONE →
            Exists (λ entry : nat * nat * BonusType,
                      (r, c) ∈ mirrorPositions entry.1.1 entry.1.2)
              BONUS_POSITIONS))
  ∧ Forall (λ entry : nat * nat * BonusType,
              Forall (λ rc : nat * nat, bonusAt createBonusLayout rc.1 rc.2 = entry.2)
                (mirrorPositions entry.1.1 entry.1.2))
      BONUS_POSITIONS.
Proof.
  split_and!.
  - vm_compute. reflexivity.
  - apply (bool_decide_unpack _). vm_compute. exact I.
  - match goal with
    | |- ∀ r c, _ → _ → @?P r c => apply (on_the_grid P)
    end.
    cbn beta. apply (bool_decide_unpack _). vm_compute. exact I.
  - apply (bool_decide_unpack _). vm_compute. exact I.
Qed.

(** ** Joining and leaving the waiting room *)

(** X16: who may join.  [addPlayer] seats a player exactly when the
    session waits, has fewer than four seats and has no seat with the
    same id; the new seat is the last one, with score zero, an empty
    rack and the connected flag set, and removing the player again
    gives back the session as it was.  Otherwise [addPlayer] throws and
    changes nothing: the error is that of a game in progress when the
    session does not wait, else that of a full table when there are
    four seats, else that of an id that has joined already. *)
Theorem addPlayer_seats_a_new_player (g : Game) (id name : string) :
  (fst (addPlayer id name g) = Ok tt
   ↔ g_phase g = waiting ∧ (length (g_players g) < 4)%nat ∧ id ∉ map pl_id (g_players g))
  ∧ (fst (addPlayer id name g) = Ok tt →
       snd (addPlayer id name g)
       = setPlayers (g_players g ++ [mkPlayer id name 0 [] true]) g
       ∧ snd (removePlayer id (snd (addPlayer id name g))) = g)
  ∧ (fst (addPlayer id name g) ≠ Ok tt →
       snd (addPlayer id name g) = g
       ∧ fst (addPlayer id name g)
         = Throw (if negb (bool_decide (g_phase g = waiting)) then ErrInGame
                  else if (4 <=? length (g_players g))%nat then ErrFull
                  else ErrAlreadyJoined)).
Proof.
  unfold addPlayer. runM.
  destruct (bool_decide (g_phase g = waiting)) eqn:Hphase; cbn [negb].
  2:{ apply bool_decide_eq_false in Hphase. split_and!; [|done|done].
      split; [done | by intros [? _]]. }
  apply bool_decide_eq_true in Hphase.
  destruct (4 <=? length (g_players g))%nat eqn:Hfull.
  { apply Nat.leb_le in Hfull. split_and!; [|done|done].
    split; [done | intros (_ & ? & _); lia]. }
  apply Nat.leb_gt in Hfull.
  destruct (existsb _ _) eqn:Hseen.
  { apply existsb_id in Hseen. split_and!; [|done|done].
    split; [done | by intros (_ & _ & ?)]. }
  assert (Hnew : id ∉ map pl_id (g_players g)).
  { intros Hin%existsb_id. congruence. }
  cbn [fst snd]. split_and!; [done | | done].
  intros _. split; [done|]. unfold removePlayer. runM. cbn [snd g_players setPlayers].
  rewrite filter_app, filter_cons, filter_nil. cbn [pl_id].
  rewrite decide_False by (by intros H; apply H).
  rewrite app_nil_r.
  assert (Hkept : filter (λ p, pl_id p ≠ id) (g_players g) = g_players g).
  { clear -Hnew. induction (g_players g) as [|p ps IH]; [done|].
    cbn [map] in Hnew. apply not_elem_of_cons in Hnew as [Hne Hnew].
    rewrite filter_cons, decide_True by done. by rewrite IH. }
  rewrite Hkept. by destruct g.
Qed.

(** ** The winner *)

(** The head of the list sorted by falling score: a seat with the
    highest score, and the first of the seats with that score. *)
Lemma sortBy_score_head (ps : list Player) :
  ps ≠ [] →
  ∃ i p,
    ps !! i = Some p
    ∧ sortBy (λ a b, pl_score b - pl_score a) ps !! 0%nat = Some p
    ∧ Forall (λ q, pl_score q ≤ pl_score p) ps
    ∧ ∀ j q, (j < i)%nat → ps !! j = Some q → pl_score q < pl_score p.
Proof.
  induction ps as [|x ps IH]; [done|]. intros _.
  destruct ps as [|y ps'] eqn:Hps.
  { exists 0%nat, x. cbn. split_and!; [done | done | by constructor | intros; lia]. }
  rewrite <- Hps in *.
  destruct IH as (i & p & Hp & Hhead & Hmax & Hfirst); [by rewrite Hps|].
  unfold sortBy in *. cbn [foldr].
  destruct (foldr _ [] ps) as [|top rest] eqn:Hsorted; [done|].
  cbn in Hhead. injection Hhead as ->. cbn [insertSorted].
  destruct (pl_score p - pl_score x <=? 0) eqn:Hcmp.
  - apply Z.leb_le in Hcmp. exists 0%nat, x. split_and!; [done | done | | intros; lia].
    constructor; [lia|]. eapply Forall_impl; [exact Hmax|]. intros q Hq. cbn in Hq. lia.
  - apply Z.leb_gt in Hcmp. exists (S i), p. split_and!; [done | done | |].
    + constructor; [lia | done].
    + intros [|j] q Hj Hq.
      * injection Hq as <-. lia.
      * apply (Hfirst j); [lia | done].
Qed.

(** X17: the winner.  In every session that a new game can get to,
    [getWinner] returns nothing unless the game is finished; for a
    finished game it returns the public view of a seat whose score no
    seat exceeds, and of the seats with that score the first in turn
    order.  It never reads a seat that does not exist. *)
Theorem getWinner_is_the_first_top_scorer (isValid : string → bool)
    (random : nat → nat → nat) (g : Game) :
  reachable isValid random g →
  (g_phase g ≠ finished → getWinner g = Ok None)
  ∧ (g_phase g = finished →
       ∃ i p,
         g_players g !! i = Some p
         ∧ getWinner g = Ok (Some (toPlayerInfo p))
         ∧ Forall (λ q, pl_score q ≤ pl_score p) (g_players g)
         ∧ ∀ j q, (j < i)%nat → g_players g !! j = Some q → pl_score q < pl_score p).
Proof.
  intros [(_ & _ & _ & Hseats) _]%reachable_steady. unfold getWinner. split.
  - intros Hphase. by rewrite (bool_decide_eq_false_2 _ Hphase).
  - intros Hphase. rewrite (bool_decide_eq_true_2 _ Hphase). cbn [negb].
    destruct Hseats as [Htwo _]; [congruence|].
    destruct (sortBy_score_head (g_players g)) as (i & p & Hp & Hhead & Hmax & Hfirst).
    { intros Hnil. rewrite Hnil in Htwo. cbn in Htwo. lia. }
    exists i, p. rewrite Hhead. done.
Qed.

(** X17, after the pass that ends the game of "a" and "b" with the
    scores -6 and -7. *)
Lemma getWinner_is_the_first_top_scorer_witness :
  let g := runGame (pass "b") beforeLastPass in
  (g_phase g ≠ finished → getWinner g = Ok None)
  ∧ (g_phase g = finished →
       ∃ i p,
         g_players g !! i = Some p
         ∧ getWinner g = Ok (Some (toPlayerInfo p))
         ∧ Forall (λ q, pl_score q ≤ pl_score p) (g_players g)
         ∧ ∀ j q, (j < i)%nat → g_players g !! j = Some q → pl_score q < pl_score p).
Proof.
  apply (getWinner_is_the_first_top_scorer someWords blankFirst).
  exists 0%nat, [Join "a" "A"; Join "b" "B"; StartGame;
                 Submit "a" PASS; Submit "b" PASS; Submit "a" PASS; Submit "b" PASS].
  vm_compute. reflexivity.
Defined.

(** ** What the clients are told *)

(** X18: the tiles that the clients are told of add up.  In a session
    that was started from the waiting room and then only received
    intents that name no tile and no cell twice, turn timeouts and
    connection changes, the number of tiles that the server reports as
    remaining in the pool, the tile counts of the public views of the
    seats and the tiles on the board add up to 112; the public views
    list the seats in turn order, one for each. *)
Theorem reported_tiles_add_up (isValid : string → bool) (random : nat → nat → nat)
    (calls : nat) (lobby turns : list Event) (g : Game) :
  Forall lobbyEvent lobby →
  start (runEvents isValid random lobby (newGame random calls)) = (Ok tt, g) →
  Forall turnEvent turns →
  let g' := runEvents isValid random turns g in
  (remaining (g_tileBag g') + sum_list (map pi_tileCount (getPlayersInfo g'))
   + boardTiles (g_board g') = 112)%nat
  ∧ map pi_id (getPlayersInfo g') = getPlayerIds g'
  ∧ map pi_score (getPlayersInfo g') = map pl_score (g_players g').
Proof.
  intros Hlobby Hstart Hturns g'.
  pose proof (well_formed_sessions_conserve_tiles isValid random calls lobby turns g
                Hlobby Hstart Hturns) as Hcount.
  fold g' in Hcount. unfold tileCount in Hcount.
  unfold getPlayersInfo, getPlayerIds, remaining. rewrite !map_map.
  split_and!; done.
Qed.

(** X18, at the session of "a" and "b" in which "a" plays いう and "b"
    passes. *)
Lemma reported_tiles_add_up_witness :
  let g' := runEvents someWords lastIndex
              [Submit "a" (PLAY_TILES [mkPlacement 7 7 0 None; mkPlacement 7 8 5 None]);
               Submit "b" PASS]
              started in
  (remaining (g_tileBag g') + sum_list (map pi_tileCount (getPlayersInfo g'))
   + boardTiles (g_board g') = 112)%nat
  ∧ map pi_id (getPlayersInfo g') = getPlayerIds g'
  ∧ map pi_score (getPlayersInfo g') = map pl_score (g_players g').
Proof.
  apply (reported_tiles_add_up someWords lastIndex 0 [Join "a" "A"; Join "b" "B"]
           [Submit "a" (PLAY_TILES [mkPlacement 7 7 0 None; mkPlacement 7 8 5 None]);
            Submit "b" PASS]
           started).
  - repeat constructor.
  - vm_compute. reflexivity.
  - constructor; [|constructor; [exact I | constructor]].
    split; apply (bool_decide_unpack _); vm_compute; exact I.
Defined.

(** ** Two disconnections in a row *)

(** X19: a reconnection cancels only the grace timer that was armed
    last.  When, during the game, the connections of a participant are
    closed twice before the participant reconnects (two connections
    carried the same id), each close arms a grace timer and the second
    handle replaces the first in the record of the participant.  The
    reconnection then succeeds and cancels the second timer, but the
    first stays pending, and when it fires it removes the participant,
    reconnected though it is, from the room and notifies the caller. *)
Theorem reconnect_cancels_only_the_last_timer (r : Room) (id : string) (ws : nat) :
  g_phase (rm_game r) = playing →
  is_Some (rm_players r !! id) →
  let h := rm_nextHandle r in
  let away := runRoom (handleDisconnect id) (runRoom (handleDisconnect id) r) in
  let back := runRoom (reconnectPlayer id ws) away in
  let gone := runRoom (timeoutFires h) back in
  fst (reconnectPlayer id ws away) = Ok true
  ∧ rm_timeouts back !! S h = None
  ∧ rm_timeouts back !! h = Some id
  ∧ (∃ player, rm_players back !! id = Some player
       ∧ rp_ws player = ws ∧ rp_reconnectTimer player = None)
  ∧ rm_players gone !! id = None
  ∧ rm_notified gone = rm_notified r ++ [id].
Proof.
  intros Hphase [player Hplayer] h away back gone.
  subst gone back away. unfold runRoom.
  rewrite (handleDisconnect_playing r id player Hphase Hplayer). cbn [snd].
  match goal with
  | |- context [handleDisconnect id ?r1] =>
      rewrite (handleDisconnect_playing r1 id
                 (mkRoomPlayer (rp_id player) (rp_name player) (rp_ws player) (Some h)))
        by (try exact Hphase; apply lookup_insert_eq)
  end.
  cbn [snd rm_players rm_hostId rm_game rm_timeouts rm_nextHandle rm_notified
         rp_id rp_name rp_ws].
  fold h.
  match goal with
  | |- context [reconnectPlayer id ws ?r2] =>
      assert (Hback :
        reconnectPlayer id ws r2
        = (Ok true,
           mkRoom
             (<[id := mkRoomPlayer (rp_id player) (rp_name player) ws None]> (rm_players r2))
             (rm_hostId r)
             (setPlayers (setFirst id true (g_players (rm_game r2))) (rm_game r2))
             (delete (S h) (rm_timeouts r2)) (S (S h)) (rm_notified r)))
  end.
  { unfold reconnectPlayer, clearTimeout, onGame, setConnected. runM.
    cbn -[setFirst]. rewrite lookup_insert_eq. cbn -[setFirst]. reflexivity. }
  rewrite Hback. cbn [fst snd rm_players rm_hostId rm_game rm_timeouts rm_nextHandle
                        rm_notified].
  assert (Hpending :
    delete (S h) (<[S h := id]> (<[h := id]> (rm_timeouts r))) !! h = Some id).
  { rewrite lookup_delete_ne by lia. rewrite lookup_insert_ne by lia.
    apply lookup_insert_eq. }
  match goal with
  | |- context [timeoutFires h ?r3] =>
      assert (Hgone :
        timeoutFires h r3
        = (Ok tt,
           mkRoom (delete id (rm_players r3)) (rm_hostId r) (rm_game r3)
             (delete h (rm_timeouts r3)) (S (S h)) (rm_notified r ++ [id])))
  end.
  { unfold timeoutFires, roomRemovePlayer, clearTimeout, onGame, removePlayer. runM.
    cbn -[setFirst]. rewrite Hpending. cbn -[setFirst].
    rewrite lookup_insert_eq. cbn -[setFirst]. rewrite Hphase. reflexivity. }
  rewrite Hgone. cbn [fst snd rm_players rm_notified].
  split_and!; try done.
  - apply lookup_delete_eq.
  - eexists. split; [apply lookup_insert_eq | done].
  - apply lookup_delete_eq.
Qed.

(** X19, at the room of "a" and "b" when two connections of "a" close
    and "a" comes back on connection 7. *)
Lemma reconnect_cancels_only_the_last_timer_witness :
  let r := startedRoom in
  let h := rm_nextHandle r in
  let away := runRoom (handleDisconnect "a") (runRoom (handleDisconnect "a") r) in
  let back := runRoom (reconnectPlayer "a" 7) away in
  let gone := runRoom (timeoutFires h) back in
  fst (reconnectPlayer "a" 7 away) = Ok true
  ∧ rm_timeouts back !! S h = None
  ∧ rm_timeouts back !! h = Some "a"
  ∧ (∃ player, rm_players back !! "a" = Some player
       ∧ rp_ws player = 7%nat ∧ rp_reconnectTimer player = None)
  ∧ rm_players gone !! "a" = None
  ∧ rm_notified gone = rm_notified r ++ ["a"].
Proof.
  apply (reconnect_cancels_only_the_last_timer startedRoom "a" 7).
  - vm_compute. reflexivity.
  - eexists. vm_compute. reflexivity.
Defined.

(** ** Rooms drive their games *)

Lemma roomAddPlayer_game (id name : string) (ws : nat) (r : Room) :
  rm_game (snd (roomAddPlayer id name ws r)) = snd (addPlayer id name (rm_game r)).
Proof.
  unfold roomAddPlayer, onGame. runM. cbn [rm_game setRoomPlayers].
  destruct (addPlayer id name (rm_game r)) as [[[]|e] g'] eqn:Hadd; cbn; [|done].
  by destruct (bool_decide _).
Qed.

Lemma roomRemovePlayer_game (id : string) (r : Room) :
  rm_game (snd (roomRemovePlayer id r))
  = if bool_decide (g_phase (rm_game r) = waiting)
    then snd (removePlayer id (rm_game r)) else rm_game r.
Proof.
  unfold roomRemovePlayer, clearTimeout, onGame, removePlayer. runM.
  destruct (rm_players r !! id ≫= rp_reconnectTimer) as [h|]; cbn;
    by destruct (bool_decide (g_phase (rm_game r) = waiting)).
Qed.

Lemma roomHandle_game (isValid : string → bool) (random : nat → nat → nat)
    (ev : RoomEvent) (r : Room) :
  ∃ evs,
    rm_game (snd (roomHandle isValid random ev r))
    = runEvents isValid random evs (rm_game r).
Proof.
  destruct ev as [id name ws|id ws|id|id msg|id|h|]; cbn [roomHandle].
  - unfold bind at 1, get.
    destruct (negb (bool_decide (g_phase (rm_game r) = waiting))); [by exists []|].
    destruct (4 <=? playerCount r)%nat; [by exists []|].
    exists [Join id name]. by rewrite roomAddPlayer_game.
  - unfold reconnectPlayer, clearTimeout, onGame, setConnected. runM.
    destruct (rm_players r !! id) as [player|]; [|by exists []].
    exists [Connection id true]. by destruct (rp_reconnectTimer player).
  - unfold bind at 1, get. destruct (negb (isHost id r)); [by exists []|].
    exists [StartGame]. unfold onGame, runEvents. cbn [foldl handle].
    by destruct (start (rm_game r)).
  - exists [Submit id msg]. unfold onGame, runEvents. cbn [foldl handle].
    by destruct (submit isValid random id msg (rm_game r)).
  - unfold handleDisconnect.
    unfold bind at 1, get.
    destruct (rm_players r !! id) as [player|]; [|by exists []].
    unfold bind at 1. unfold onGame at 1, setConnected at 1, modify at 1.
    cbn [rm_game]. unfold bind at 1, get.
    cbn [rm_game setGame g_phase setPlayers].
    destruct (bool_decide (g_phase (rm_game r) = playing)) eqn:Hplaying.
    + exists [Connection id false]. runM. reflexivity.
    + exists [Connection id false; Leave id].
      unfold bind at 1.
      match goal with
      | |- context [roomRemovePlayer id ?r1] =>
          pose proof (roomRemovePlayer_game id r1) as Hgame;
          destruct (roomRemovePlayer id r1) as [[[]|e] r2]
      end; cbn [snd rm_game setGame g_phase setPlayers] in *.
      * unfold modify, notify. cbn [snd rm_game]. rewrite Hgame.
        unfold runEvents. cbn [foldl handle]. unfold setConnected. runM. cbn [snd g_phase setPlayers].
        by destruct (bool_decide (g_phase (rm_game r) = waiting)).
      * rewrite Hgame.
        unfold runEvents. cbn [foldl handle]. unfold setConnected. runM. cbn [snd g_phase setPlayers].
        by destruct (bool_decide (g_phase (rm_game r) = waiting)).
  - unfold timeoutFires. unfold bind at 1, get.
    destruct (rm_timeouts r !! h) as [id|]; [|by exists []].
    exists [Leave id]. unfold bind at 1, modify at 1. unfold bind at 1.
    match goal with
    | |- context [roomRemovePlayer id ?r1] =>
        pose proof (roomRemovePlayer_game id r1) as Hgame;
        destruct (roomRemovePlayer id r1) as [[[]|e] r2]
    end; cbn [snd rm_game setTimeouts] in *.
    + unfold modify, notify. cbn [snd rm_game]. rewrite Hgame.
      unfold runEvents. cbn [foldl handle]. runM.
      by destruct (bool_decide (g_phase (rm_game r) = waiting)).
    + rewrite Hgame. unfold runEvents. cbn [foldl handle]. runM.
      by destruct (bool_decide (g_phase (rm_game r) = waiting)).
  - exists [TurnTimeout]. unfold onGame, runEvents. cbn [foldl].
    by destruct (handle isValid random TurnTimeout (rm_game r)).
Qed.

Lemma runRoomEvents_game (isValid : string → bool) (random : nat → nat → nat)
    (evs : list RoomEvent) (r : Room) :
  ∃ gevs,
    rm_game (runRoomEvents isValid random evs r)
    = runEvents isValid random gevs (rm_game r).
Proof.
  unfold runRoomEvents. revert r. induction evs as [|ev evs IH]; intros r; cbn [foldl].
  - by exists [].
  - destruct (roomHandle_game isValid random ev r) as [first Hfirst].
    destruct (IH (snd (roomHandle isValid random ev r))) as [rest Hrest].
    exists (first ++ rest). by rewrite runEvents_app, <- Hfirst.
Qed.

Lemma reachableRoom_game (isValid : string → bool) (random : nat → nat → nat) (r : Room) :
  reachableRoom isValid random r → reachable isValid random (rm_game r).
Proof.
  intros (calls & id & name & ws & evs & ->).
  destruct (runRoomEvents_game isValid random evs
              (snd (roomAddPlayer id name ws (newRoom random calls)))) as [gevs Hgame].
  exists calls, (Join id name :: gevs). rewrite Hgame, roomAddPlayer_game.
  reflexivity.
Qed.

(** X20: a room drives its game by the events of the game.  Whatever
    a handler of the server does to a room, it does to the game of the
    room what a sequence of game events does (a join, a leave in the
    waiting phase, a connection change, the start, an intent, a turn
    timeout); so the game of every room that CREATE_ROOM and the events
    after it can get to is a session that a new game can get to by such
    events, and what holds of all those sessions holds of it: its seats
    are in order and its turn clock runs exactly while it is played. *)
Theorem rooms_drive_their_games_by_game_events (isValid : string → bool)
    (random : nat → nat → nat) (r : Room) :
  reachableRoom isValid random r →
  reachable isValid random (rm_game r)
  ∧ (∀ ev, ∃ evs,
       rm_game (snd (roomHandle isValid random ev r))
       = runEvents isValid random evs (rm_game r))
  ∧ seated (rm_game r)
  ∧ (g_turnTimer (rm_game r) = true ↔ g_phase (rm_game r) = playing).
Proof.
  intros Hgame%reachableRoom_game. split_and!.
  - exact Hgame.
  - intros ev. apply roomHandle_game.
  - by apply reachable_steady in Hgame as [Hseat _].
  - apply reachable_steady in Hgame as [_ Htime]. unfold timed in Htime. rewrite Htime.
    apply bool_decide_eq_true.
Qed.

(** X20, at the room that "a" created, "b" joined and "a" started. *)
Lemma rooms_drive_their_games_by_game_events_witness :
  reachable someWords lastIndex (rm_game startedRoom)
  ∧ (∀ ev, ∃ evs,
       rm_game (snd (roomHandle someWords lastIndex ev startedRoom))
       = runEvents someWords lastIndex evs (rm_game startedRoom))
  ∧ seated (rm_game startedRoom)
  ∧ (g_turnTimer (rm_game startedRoom) = true ↔ g_phase (rm_game startedRoom) = playing).
Proof.
  apply (rooms_drive_their_games_by_game_events someWords lastIndex startedRoom).
  exists 0%nat, "a", "A", 1%nat, [JoinRoom "b" "B" 2; HostStarts "a"].
  vm_compute. reflexivity.
Defined.

(** ** Participants and seats *)

Lemma roomAddPlayer_players (id name : string) (ws : nat) (r : Room) :
  rm_players (snd (roomAddPlayer id name ws r))
  = <[id := mkRoomPlayer id name ws None]> (rm_players r).
Proof.
  unfold roomAddPlayer, onGame. runM. cbn [rm_game setRoomPlayers].
  destruct (addPlayer id name (rm_game r)) as [[[]|e] g'] eqn:Hadd; cbn; [|done].
  by destruct (bool_decide _).
Qed.

Lemma roomRemovePlayer_players (id : string) (r : Room) :
  rm_players (snd (roomRemovePlayer id r)) = delete id (rm_players r).
Proof.
  unfold roomRemovePlayer, clearTimeout, onGame, removePlayer. runM.
  destruct (rm_players r !! id ≫= rp_reconnectTimer) as [h|]; cbn;
    by destruct (bool_decide (g_phase (rm_game r) = waiting)).
Qed.

Lemma addPlayer_cases (id name : string) (g : Game) :
  (addPlayer id name g = (Ok tt, setPlayers (g_players g ++ [mkPlayer id name 0 [] true]) g)
   ∧ g_phase g = waiting ∧ (length (g_players g) < 4)%nat ∧ id ∉ map pl_id (g_players g))
  ∨ (∃ e, addPlayer id name g = (Throw e, g)
       ∧ (g_phase g ≠ waiting ∨ (4 ≤ length (g_players g))%nat
          ∨ id ∈ map pl_id (g_players g))).
Proof.
  unfold addPlayer. runM.
  destruct (bool_decide (g_phase g = waiting)) eqn:Hphase; cbn [negb].
  2:{ apply bool_decide_eq_false in Hphase. right. eexists. split; [done | by left]. }
  apply bool_decide_eq_true in Hphase.
  destruct (4 <=? length (g_players g))%nat eqn:Hfull.
  { apply Nat.leb_le in Hfull. right. eexists. split; [done | right; by left]. }
  apply Nat.leb_gt in Hfull.
  destruct (existsb _ _) eqn:Hseen.
  { apply existsb_id in Hseen. right. eexists. split; [done | right; by right]. }
  left. split_and!; try done. intros Hin%existsb_id. congruence.
Qed.

Lemma seats_within_room (l : list string) (m : gmap string RoomPlayer) :
  NoDup l → (∀ x, x ∈ l → is_Some (m !! x)) → (length l ≤ size m)%nat.
Proof.
  intros Hnodup Hin.
  rewrite <- (size_list_to_set (C := gset string) l Hnodup), <- size_dom.
  apply subseteq_size. intros x Hx%elem_of_list_to_set. by apply elem_of_dom, Hin.
Qed.

Lemma room_within_seats (l : list string) (m : gmap string RoomPlayer) :
  NoDup l → (∀ x, is_Some (m !! x) → x ∈ l) → (size m ≤ length l)%nat.
Proof.
  intros Hnodup Hin.
  rewrite <- (size_list_to_set (C := gset string) l Hnodup), <- size_dom.
  apply subseteq_size. intros x Hx%elem_of_dom. by apply elem_of_list_to_set, Hin.
Qed.

Lemma removed_ids (id x : string) (ps : list Player) :
  x ∈ map pl_id (filter (λ p, pl_id p ≠ id) ps) ↔ x ∈ map pl_id ps ∧ x ≠ id.
Proof.
  split.
  - intros (p & -> & [Hne Hp]%list_elem_of_filter)%(list_elem_of_fmap_1 pl_id).
    split; [by apply (list_elem_of_fmap_2 pl_id) | done].
  - intros [(p & -> & Hp)%(list_elem_of_fmap_1 pl_id) Hne].
    apply (list_elem_of_fmap_2 pl_id). by apply list_elem_of_filter.
Qed.

Lemma submit_not_playing (isValid : string → bool) (random : nat → nat → nat)
    (playerId : string) (msg : Intent) (g : Game) :
  g_phase g ≠ playing →
  submit isValid random playerId msg g = (Throw ErrNotStarted, g).
Proof.
  intros Hphase.
  assert (Hassert : assertTurn playerId g = (Throw ErrNotStarted, g)).
  { unfold assertTurn. runM. by rewrite (bool_decide_eq_false_2 _ Hphase). }
  destruct msg as [placements|tileIds|]; cbn [submit].
  - unfold bind at 1. unfold playTiles. by rewrite (bind_throw _ _ _ _ _ Hassert).
  - unfold exchangeTiles. by rewrite (bind_throw _ _ _ _ _ Hassert).
  - unfold pass. by rewrite (bind_throw _ _ _ _ _ Hassert).
Qed.

Lemma closing_ids (g : Game) :
  map pl_id (g_players (snd (advanceTurn g))) = map pl_id (g_players g)
  ∧ map pl_id (g_players (snd (checkGameEnd (snd (advanceTurn g)))))
    = map pl_id (g_players g).
Proof.
  destruct (advanceTurn_frame g) as (Hp & _ & _).
  split; [by rewrite Hp|].
  destruct (checkGameEnd_cases (snd (advanceTurn g))) as [-> | ->]; cbn [snd];
    [by rewrite Hp|].
  by rewrite endGame_ids, Hp.
Qed.

Lemma forcePass_ids (g : Game) :
  map pl_id (g_players (snd (forcePass g))) = map pl_id (g_players g).
Proof.
  destruct (g_players g !! g_currentPlayerIndex g) as [player|] eqn:Hp.
  - rewrite (forcePass_steps g player Hp).
    match goal with
    | |- context [advanceTurn ?s] => destruct (closing_ids s) as [_ Hids]
    end.
    by rewrite Hids.
  - unfold forcePass. runM. by rewrite Hp.
Qed.

(** Intents and turn timeouts keep the seats and their order. *)
Lemma turn_ids (isValid : string → bool) (random : nat → nat → nat) (ev : Event) (g : Game) :
  turnEvent ev ∨ (∃ playerId msg, ev = Submit playerId msg) ∨ ev = StartGame →
  map pl_id (g_players (snd (handle isValid random ev g))) = map pl_id (g_players g).
Proof.
  intros Hev.
  destruct ev as [id name|id|id connected| |playerId msg|]; cbn [handle].
  - destruct Hev as [[]|[(? & ? & [=])|[=]]].
  - destruct Hev as [[]|[(? & ? & [=])|[=]]].
  - unfold setConnected. runM. cbn. apply setFirst_ids.
  - rewrite start_eq. destruct (_ <? _)%nat; [done|]. cbn. apply dealtFrom_ids.
  - destruct msg as [placements|tileIds|]; cbn [submit].
    + unfold bind.
      destruct (playTiles _ _ _ _) as [[res|e] g'] eqn:Hplay; cbn [snd].
      2:{ by apply playTiles_throw in Hplay as ->. }
      apply playTiles_steps in Hplay as (player & wordsFound & _ & Hp & _ & _ & Hend).
      cbv zeta in Hend.
      match type of Hend with
      | checkGameEnd (snd (advanceTurn ?s)) = _ => destruct (closing_ids s) as [_ Hids]
      end.
      rewrite Hend in Hids. cbn [snd] in Hids.
      change (map pl_id (g_players g') = map pl_id (g_players g)).
      rewrite Hids. by apply (insert_ids _ _ player).
    + destruct (exchangeTiles _ _ _ _) as [[[]|e] g'] eqn:Hex; cbn [snd].
      2:{ by apply exchangeTiles_throw in Hex as ->. }
      apply exchangeTiles_steps in Hex
        as (player & tiles & newTiles & bag & _ & Hp & _ & _ & ->).
      match goal with
      | |- context [advanceTurn ?s] => destruct (closing_ids s) as [Hids _]
      end.
      rewrite Hids. by apply (insert_ids _ _ player).
    + unfold pass.
      destruct (assertTurn_cases playerId g) as [(Ha & _)|[e Ha]].
      2:{ by rewrite (bind_throw _ _ _ _ _ Ha). }
      rewrite (bind_ok _ _ _ _ _ Ha). apply forcePass_ids.
  - runM. destruct (g_turnTimer g); [|done]. cbn [snd].
    destruct (bool_decide (g_phase g = playing)); [|done].
    by rewrite forcePass_ids.
Qed.

Lemma closing_phase (g : Game) :
  g_phase (snd (advanceTurn g)) = g_phase g
  ∧ (g_phase (snd (checkGameEnd (snd (advanceTurn g)))) = waiting → g_phase g = waiting).
Proof.
  assert (Hphase : g_phase (snd (advanceTurn g)) = g_phase g).
  { rewrite advanceTurn_eq. cbn [snd]. by destruct (bool_decide _). }
  split; [done|].
  destruct (checkGameEnd_cases (snd (advanceTurn g))) as [-> | ->]; cbn [snd];
    [by rewrite Hphase|].
  by rewrite endGame_eq.
Qed.

Lemma forcePass_phase (g : Game) :
  g_phase (snd (forcePass g)) = waiting → g_phase g = waiting.
Proof.
  destruct (g_players g !! g_currentPlayerIndex g) as [player|] eqn:Hp.
  - rewrite (forcePass_steps g player Hp).
    match goal with
    | |- context [advanceTurn ?s] => destruct (closing_phase s) as [_ Hphase]
    end.
    exact Hphase.
  - unfold forcePass. runM. by rewrite Hp.
Qed.

(** No event brings a session back to the waiting room. *)
Lemma handle_phase (isValid : string → bool) (random : nat → nat → nat) (ev : Event) (g : Game) :
  g_phase (snd (handle isValid random ev g)) = waiting → g_phase g = waiting.
Proof.
  destruct ev as [id name|id|id connected| |playerId msg|]; cbn [handle].
  - unfold addPlayer. runM. destruct (negb _); [done|].
    destruct (4 <=? _)%nat; [done|]. by destruct (existsb _ _).
  - runM. by destruct (bool_decide _).
  - unfold setConnected. by runM.
  - rewrite start_eq. by destruct (_ <? _)%nat.
  - destruct msg as [placements|tileIds|]; cbn [submit].
    + unfold bind.
      destruct (playTiles _ _ _ _) as [[res|e] g'] eqn:Hplay; cbn [snd].
      2:{ by apply playTiles_throw in Hplay as ->. }
      apply playTiles_steps in Hplay as (player & wordsFound & _ & Hp & _ & _ & Hend).
      cbv zeta in Hend.
      match type of Hend with
      | checkGameEnd (snd (advanceTurn ?s)) = _ => destruct (closing_phase s) as [_ Hphase]
      end.
      rewrite Hend in Hphase. exact Hphase.
    + destruct (exchangeTiles _ _ _ _) as [[[]|e] g'] eqn:Hex; cbn [snd].
      2:{ by apply exchangeTiles_throw in Hex as ->. }
      apply exchangeTiles_steps in Hex
        as (player & tiles & newTiles & bag & _ & Hp & _ & _ & ->).
      match goal with
      | |- context [advanceTurn ?s] => destruct (closing_phase s) as [Hphase _]
      end.
      by rewrite Hphase.
    + unfold pass.
      destruct (assertTurn_cases playerId g) as [(Ha & _)|[e Ha]].
      2:{ by rewrite (bind_throw _ _ _ _ _ Ha). }
      rewrite (bind_ok _ _ _ _ _ Ha). apply forcePass_phase.
  - runM. destruct (g_turnTimer g); [|done]. cbn [snd].
    destruct (bool_decide (g_phase g = playing)); [|done].
    intros Hw. by apply forcePass_phase in Hw.
Qed.

Lemma insert_present (m : gmap string RoomPlayer) (id : string) (v v' : RoomPlayer) :
  m !! id = Some v → ∀ x, is_Some (<[id := v']> m !! x) ↔ is_Some (m !! x).
Proof.
  intros Hv x. rewrite lookup_insert_is_Some. split.
  - intros [<-|[_ Hx]]; [by eexists | done].
  - intros Hx. destruct (decide (id = x)); [by left | by right].
Qed.

Lemma inStep_same (r r' : Room) :
  (∀ x, is_Some (rm_players r' !! x) ↔ is_Some (rm_players r !! x)) →
  getPlayerIds (rm_game r') = getPlayerIds (rm_game r) →
  (g_phase (rm_game r') = waiting → g_phase (rm_game r) = waiting) →
  inStep r → inStep r'.
Proof.
  intros Hplayers Hids Hphase [Hseat Hroom]. unfold inStep. rewrite Hids. split.
  - intros x Hx%Hplayers. by apply Hseat.
  - intros Hw%Hphase x Hx. apply Hplayers. by apply Hroom.
Qed.

Lemma roomRemovePlayer_inStep (id : string) (r : Room) :
  inStep r → inStep (snd (roomRemovePlayer id r)).
Proof.
  intros [Hseat Hroom]. unfold inStep.
  rewrite roomRemovePlayer_players, roomRemovePlayer_game.
  destruct (bool_decide (g_phase (rm_game r) = waiting)) eqn:Hw.
  - apply bool_decide_eq_true in Hw. unfold removePlayer, getPlayerIds in *. runM.
    cbn [snd g_players g_phase setPlayers]. split.
    + intros x [Hne Hx]%lookup_delete_is_Some. apply removed_ids. split; [by apply Hseat | done].
    + intros _ x [Hx Hne]%removed_ids. apply lookup_delete_is_Some.
      split; [done | by apply Hroom].
  - apply bool_decide_eq_false in Hw. split; [|done].
    intros x [Hne Hx]%lookup_delete_is_Some. by apply Hseat.
Qed.

Lemma handleDisconnect_away (r : Room) (id : string) (player : RoomPlayer) :
  g_phase (rm_game r) ≠ playing →
  rm_players r !! id = Some player →
  snd (handleDisconnect id r)
  = notify id
      (snd (roomRemovePlayer id
              (setGame (setPlayers (setFirst id false (g_players (rm_game r))) (rm_game r))
                 r))).
Proof.
  intros Hphase Hplayer. unfold handleDisconnect.
  unfold bind at 1, get. rewrite Hplayer.
  unfold bind at 1. unfold onGame at 1, setConnected at 1, modify at 1. cbn [rm_game].
  unfold bind at 1, get. cbn [rm_game setGame g_phase setPlayers].
  rewrite (bool_decide_eq_false_2 _ Hphase).
  unfold bind at 1.
  match goal with
  | |- context [roomRemovePlayer id ?r1] =>
      assert (Hok : ∃ r2, roomRemovePlayer id r1 = (Ok tt, r2))
  end.
  { unfold roomRemovePlayer, clearTimeout, onGame, removePlayer. runM.
    destruct (_ ≫= rp_reconnectTimer) as [h|]; cbn;
      destruct (bool_decide _); by eexists. }
  destruct Hok as [r2 Hok]. rewrite Hok. reflexivity.
Qed.

Lemma timeoutFires_gone (r : Room) (h : nat) (id : string) :
  rm_timeouts r !! h = Some id →
  snd (timeoutFires h r)
  = notify id (snd (roomRemovePlayer id (setTimeouts (delete h (rm_timeouts r)) r))).
Proof.
  intros Hpending. unfold timeoutFires. unfold bind at 1, get. rewrite Hpending.
  unfold bind at 1, modify at 1. unfold bind at 1.
  match goal with
  | |- context [roomRemovePlayer id ?r1] =>
      assert (Hok : ∃ r2, roomRemovePlayer id r1 = (Ok tt, r2))
  end.
  { unfold roomRemovePlayer, clearTimeout, onGame, removePlayer. runM.
    destruct (_ ≫= rp_reconnectTimer) as [h'|]; cbn;
      destruct (bool_decide _); by eexists. }
  destruct Hok as [r2 Hok]. rewrite Hok. reflexivity.
Qed.

Lemma runEvents_steady (isValid : string → bool) (random : nat → nat → nat)
    (evs : list Event) (g : Game) :
  steady g → steady (runEvents isValid random evs g).
Proof.
  unfold runEvents. revert g. induction evs as [|ev evs IH]; intros g Hg; cbn [foldl];
    [done|].
  by apply IH, handle_steady.
Qed.

Lemma roomHandle_steady (isValid : string → bool) (random : nat → nat → nat)
    (ev : RoomEvent) (r : Room) :
  steady (rm_game r) → steady (rm_game (snd (roomHandle isValid random ev r))).
Proof.
  intros Hg. destruct (roomHandle_game isValid random ev r) as [evs ->].
  by apply runEvents_steady.
Qed.

Lemma roomHandle_inStep (isValid : string → bool) (random : nat → nat → nat)
    (ev : RoomEvent) (r : Room) :
  steady (rm_game r) → inStep r → inStep (snd (roomHandle isValid random ev r)).
Proof.
  intros [Hseated Htimed] Hstep. pose proof Hstep as [Hseat Hroom].
  pose proof Hseated as (_ & Hnodup & _). clear Hseated Htimed.
  destruct ev as [id name ws|id ws|id|id msg|id|h|]; cbn [roomHandle].
  - unfold bind at 1, get.
    destruct (bool_decide (g_phase (rm_game r) = waiting)) eqn:Hw; cbn [negb]; [|done].
    apply bool_decide_eq_true in Hw.
    destruct (4 <=? playerCount r)%nat eqn:Hfull; [done|]. apply Nat.leb_gt in Hfull.
    unfold inStep, getPlayerIds in *. rewrite roomAddPlayer_players, roomAddPlayer_game.
    destruct (addPlayer_cases id name (rm_game r))
      as [(Hadd & _ & _ & Hnew)|(e & Hadd & [Hphase|[Hmany|Hseen]])]; rewrite Hadd;
      cbn [snd].
    + cbn [g_players g_phase setPlayers]. rewrite map_app. cbn [map pl_id]. split.
      * intros x [Hx|[_ Hx]]%lookup_insert_is_Some; apply elem_of_app;
          [right; by apply list_elem_of_singleton | left; by apply Hseat].
      * intros _ x [Hx| ->%list_elem_of_singleton]%elem_of_app;
          apply lookup_insert_is_Some; [|by left].
        destruct (decide (id = x)); [by left | right; split; [done | by apply Hroom]].
    + done.
    + exfalso. pose proof (seats_within_room _ (rm_players r) Hnodup (Hroom Hw)) as Hle.
      rewrite length_map in Hle. unfold playerCount in Hfull. lia.
    + split.
      * intros x [->|[_ Hx]]%lookup_insert_is_Some; [done | by apply Hseat].
      * intros _ x Hx. apply lookup_insert_is_Some.
        destruct (decide (id = x)); [by left | right; split; [done | by apply Hroom]].
  - unfold reconnectPlayer. unfold bind at 1. unfold bind at 1, get.
    destruct (rm_players r !! id) as [player|] eqn:Hplayer; [|done].
    assert (Hback : ∃ ps ts,
      (∀ x, is_Some (ps !! x) ↔ is_Some (rm_players r !! x))
      ∧ snd (bind (match rp_reconnectTimer player with
                   | Some h => clearTimeout h
                   | None => ret tt
                   end)
               (λ _, bind (modify (λ r, setRoomPlayers
                                          (<[id := mkRoomPlayer (rp_id player) (rp_name player)
                                                     ws None]> (rm_players r)) r))
                       (λ _, bind (onGame (setConnected id true)) (λ _, ret true))) r)
        = mkRoom ps (rm_hostId r)
            (setPlayers (setFirst id true (g_players (rm_game r))) (rm_game r))
            ts (rm_nextHandle r) (rm_notified r)).
    { unfold clearTimeout, onGame, setConnected. runM.
      destruct (rp_reconnectTimer player); cbn -[setFirst].
      all: do 2 eexists; (split; [|reflexivity]); cbn; by apply (insert_present _ _ player). }
    destruct Hback as (ps & ts & Hps & Hback).
    match goal with
    | |- inStep (snd (match ?m with _ => _ end)) =>
        replace (snd (match m with (Ok a, s') => ret tt s' | (Throw e, s') => (Throw e, s') end))
          with (snd m) by (by destruct m as [[?|?] ?])
    end.
    rewrite Hback. apply (inStep_same r); [done | | done | done].
    unfold getPlayerIds. cbn. apply setFirst_ids.
  - unfold bind at 1, get. destruct (negb (isHost id r)); [done|].
    unfold onGame. pose proof (turn_ids isValid random StartGame (rm_game r)) as Hids.
    pose proof (handle_phase isValid random StartGame (rm_game r)) as Hphase.
    cbn [handle] in Hids, Hphase.
    destruct (start (rm_game r)) as [res g'] eqn:Hstart. cbn [snd] in *.
    apply (inStep_same r); [done | apply Hids; by right; right | done | done].
  - unfold onGame.
    pose proof (turn_ids isValid random (Submit id msg) (rm_game r)) as Hids.
    pose proof (handle_phase isValid random (Submit id msg) (rm_game r)) as Hphase.
    cbn [handle] in Hids, Hphase.
    destruct (submit isValid random id msg (rm_game r)) as [res g'] eqn:Hsubmit.
    cbn [snd] in *.
    apply (inStep_same r); [done | apply Hids; right; left; by do 2 eexists | done | done].
  - destruct (rm_players r !! id) as [player|] eqn:Hplayer.
    2:{ unfold handleDisconnect. unfold bind at 1, get. by rewrite Hplayer. }
    destruct (decide (g_phase (rm_game r) = playing)) as [Hp|Hp].
    + rewrite (handleDisconnect_playing r id player Hp Hplayer). cbn [snd].
      apply (inStep_same r); [| |done|done].
      * cbn [rm_players]. by apply (insert_present _ _ player).
      * unfold getPlayerIds. cbn. apply setFirst_ids.
    + rewrite (handleDisconnect_away r id player Hp Hplayer).
      match goal with
      | |- inStep (notify id ?r2) =>
          enough (inStep r2) by done
      end.
      apply roomRemovePlayer_inStep.
      apply (inStep_same r); [done | | done | done].
      unfold getPlayerIds. cbn. apply setFirst_ids.
  - destruct (rm_timeouts r !! h) as [id|] eqn:Hpending.
    2:{ unfold timeoutFires. unfold bind at 1, get. by rewrite Hpending. }
    rewrite (timeoutFires_gone r h id Hpending).
    match goal with
    | |- inStep (notify id ?r2) => enough (inStep r2) by done
    end.
    by apply roomRemovePlayer_inStep.
  - unfold onGame.
    pose proof (turn_ids isValid random TurnTimeout (rm_game r)) as Hids.
    pose proof (handle_phase isValid random TurnTimeout (rm_game r)) as Hphase.
    destruct (handle isValid random TurnTimeout (rm_game r)) as [res g'] eqn:Hh.
    cbn [snd] in *.
    apply (inStep_same r); [done | apply Hids; by left | done | done].
Qed.

Lemma newRoom_inStep (random : nat → nat → nat) (calls : nat) (id name : string) (ws : nat) :
  steady (rm_game (snd (roomAddPlayer id name ws (newRoom random calls))))
  ∧ inStep (snd (roomAddPlayer id name ws (newRoom random calls))).
Proof.
  split.
  - rewrite roomAddPlayer_game.
    apply (handle_steady (λ _, true) random (Join id name)), newGame_steady.
  - assert (Hseats : g_players (rm_game (newRoom random calls)) = []) by reflexivity.
    assert (Hnobody : rm_players (newRoom random calls) = ∅) by reflexivity.
    assert (Hphase : g_phase (rm_game (newRoom random calls)) = waiting) by reflexivity.
    unfold inStep, getPlayerIds. rewrite roomAddPlayer_players, roomAddPlayer_game.
    destruct (addPlayer_cases id name (rm_game (newRoom random calls)))
      as [(Hadd & _)|(e & _ & [Hother|[Hmany|Hseen]])].
    + rewrite Hadd. cbn [snd g_players setPlayers]. rewrite Hseats, Hnobody.
      cbn [app map pl_id]. split.
      * intros x [->|[_ [? Hx]]]%lookup_insert_is_Some; [|by rewrite lookup_empty in Hx].
        by apply list_elem_of_singleton.
      * intros _ x ->%list_elem_of_singleton. apply lookup_insert_is_Some. by left.
    + done.
    + rewrite Hseats in Hmany. cbn [length] in Hmany. lia.
    + rewrite Hseats in Hseen. cbn [map] in Hseen. by apply elem_of_nil in Hseen.
Qed.

Lemma reachableRoom_inStep (isValid : string → bool) (random : nat → nat → nat) (r : Room) :
  reachableRoom isValid random r → steady (rm_game r) ∧ inStep r.
Proof.
  intros (calls & id & name & ws & evs & ->).
  induction evs as [|ev evs IH] using rev_ind.
  - apply newRoom_inStep.
  - unfold runRoomEvents in *. rewrite foldl_app. cbn [foldl]. destruct IH as [Hsteady Hstep].
    split; [by apply roomHandle_steady | by apply roomHandle_inStep].
Qed.

(** X21: the participants of a room and the seats of its game agree.
    In every room that the server can reach, each participant of the
    room has a seat in the game; while the room waits for the start,
    each seat belongs to a participant, the room counts as many
    participants as the game has seats, and a JOIN_ROOM of a new id
    into a room with fewer than four participants is accepted by the
    game and gives the id a seat. *)
Theorem participants_and_seats_agree (isValid : string → bool) (random : nat → nat → nat)
    (r : Room) :
  reachableRoom isValid random r →
  (∀ id, is_Some (rm_players r !! id) → id ∈ getPlayerIds (rm_game r))
  ∧ (g_phase (rm_game r) = waiting →
       (∀ id, id ∈ getPlayerIds (rm_game r) → is_Some (rm_players r !! id))
       ∧ playerCount r = length (g_players (rm_game r))
       ∧ ∀ id name ws,
           (playerCount r < 4)%nat → rm_players r !! id = None →
           fst (roomHandle isValid random (JoinRoom id name ws) r) = Ok tt
           ∧ id ∈ getPlayerIds
                    (rm_game (snd (roomHandle isValid random (JoinRoom id name ws) r)))).
Proof.
  intros [[Hseated _] [Hseat Hroom]]%reachableRoom_inStep.
  destruct Hseated as (_ & Hnodup & _).
  split; [exact Hseat|]. intros Hw. specialize (Hroom Hw).
  assert (Hcount : playerCount r = length (g_players (rm_game r))).
  { unfold playerCount. rewrite <- (length_map pl_id). apply Nat.le_antisymm.
    - by apply room_within_seats.
    - by apply seats_within_room. }
  split_and!; [exact Hroom | exact Hcount |].
  intros id name ws Hfree Hnew.
  assert (Hjoin : roomHandle isValid random (JoinRoom id name ws) r
                  = roomAddPlayer id name ws r).
  { cbn [roomHandle]. unfold bind at 1, get.
    rewrite (bool_decide_eq_true_2 _ Hw). cbn [negb].
    by destruct (4 <=? playerCount r)%nat eqn:Hfull; [apply Nat.leb_le in Hfull; lia|]. }
  rewrite Hjoin.
  assert (Hadd : addPlayer id name (rm_game r)
                 = (Ok tt, setPlayers (g_players (rm_game r) ++ [mkPlayer id name 0 [] true])
                             (rm_game r))).
  { destruct (addPlayer_cases id name (rm_game r))
      as [(Hadd & _)|(e & _ & [Hphase|[Hmany|Hseen]])]; [done|done|lia|].
    apply Hroom in Hseen as [player Hplayer]. congruence. }
  split.
  - unfold roomAddPlayer, onGame. runM. cbn [rm_game setRoomPlayers]. rewrite Hadd. cbn.
    by destruct (bool_decide _).
  - rewrite roomAddPlayer_game, Hadd. unfold getPlayerIds. cbn. rewrite map_app.
    set_solver.
Qed.

Lemma participants_and_seats_agree_witness :
  let r := runRoomEvents (λ _, true) (λ _ _, 0%nat) [JoinRoom "b" "B" 2%nat]
             (snd (roomAddPlayer "a" "A" 1%nat (newRoom (λ _ _, 0%nat) 0))) in
  reachableRoom (λ _, true) (λ _ _, 0%nat) r
  ∧ getPlayerIds (rm_game r) = ["a"; "b"]
  ∧ fst (roomHandle (λ _, true) (λ _ _, 0%nat) (JoinRoom "c" "C" 3%nat) r) = Ok tt.
Proof.
  intros r.
  assert (Hr : reachableRoom (λ _, true) (λ _ _, 0%nat) r).
  { by exists 0%nat, "a", "A", 1%nat, [JoinRoom "b" "B" 2%nat]. }
  split_and!; [exact Hr | by vm_compute |].
  destruct (participants_and_seats_agree (λ _, true) (λ _ _, 0%nat) r Hr) as [_ Hwaiting].
  destruct (Hwaiting eq_refl) as (_ & _ & Hjoin).
  apply (Hjoin "c" "C" 3%nat); [vm_compute; lia | by vm_compute].
Defined.
